(** * xv6 concurrent ranges and user work queues: a shallow embedding

    The development follows three source files:
    - [include/crange.hh]: the marked atomic pointer [markptr] with its two
      views, the level-0 [range_iterator], and the RAII handle
      [crange_locked];
    - [kernel/uwq.cc]: [uwq_trywork], [uwq::haswork], [uwq::tryworker] and
      [uwq::allocworker];
    - [include/proc.hh]: the fields of [proc] that the work queue touches.

    Machine words ([uptr], [u64]) are integers in [0, 2^64) with the
    wrap-around written out.  Memory is a finite map from addresses to
    objects; code that mutates memory threads the map explicitly, and code
    whose loops need not terminate takes fuel. *)

From stdpp Require Import base option list gmap.
From Stdlib Require Import ZArith Lia Bool.

Local Open Scope Z_scope.

(** ** Machine words *)

Module Word.

Definition width : Z := 64.
Definition modulus : Z := 2 ^ width.

(** Truncation of an integer to [uptr]/[u64]. *)
Definition wrap (z : Z) : Z := Z.land z (Z.ones width).

Definition is_word (w : Z) : Prop := 0 <= w < modulus.

(** The constant [~1] once converted to [uptr]. *)
Definition not1 : Z := wrap (Z.lnot 1).

(** Conversion of an integer to [bool]: every non-zero value is [true]. *)
Definition to_bool (v : Z) : bool := negb (v =? 0).

(** Integral promotion of a [bool]. *)
Definition of_bool (b : bool) : Z := if b then 1 else 0.

End Word.

(** ** std::atomic<uptr> *)

Module Atomic.

(** [compare_exchange_weak(expected, desired)] on a cell holding [cell].
    The weak form may fail even when the cell equals [expected]; whether it
    does is the caller-invisible choice [spurious].  The result is
    (success, new cell, new expected): on failure the cell is unchanged
    and [expected] is overwritten with the value read. *)
Definition compare_exchange_weak (spurious : bool) (cell expected desired : Z)
  : bool * Z * Z :=
  if (cell =? expected) && negb spurious
  then (true, desired, expected)
  else (false, cell, cell).

(** What may happen to a cell between a [load] and the following
    compare-and-swap of the same thread: another thread stores [v], or
    nothing happens. *)
Record step := Step { interfere : option Z; spurious : bool }.

Definition env_write (s : step) (cell : Z) : Z :=
  match interfere s with Some v => v | None => cell end.

(** A step during which the compare-and-swap cannot fail. *)
Definition quiet (s : step) : Prop := interfere s = None ∧ spurious s = false.

Definition undisturbed (s : step) : Prop := interfere s = None.

End Atomic.

(** ** markptr<T>, markptr_ptr<T>, markptr_mark<T> *)

Module Markptr.
Import Word Atomic.

Record markptr := MkMarkptr { _p : Z }.

(** A [T*] for a [T] of alignment at least two: a word with a clear low
    bit. *)
Definition is_ptr (p : Z) : Prop := is_word p ∧ Z.land p 1 = 0.

(** [markptr(T* v) : _p((uptr) v)] *)
Definition of_ptr (v : Z) : markptr := MkMarkptr v.

(** [bool operator==(const markptr<T> &v) const { return _p == v._p; }] *)
Definition eqb (a b : markptr) : bool := _p a =? _p b.

(** [markptr_ptr::load]: [(T* ) (_p.load() & ~1)] *)
Definition ptr_load (m : markptr) : Z := Z.land (_p m) not1.

(** [markptr_mark::load]: [_p.load() & 1], converted to [bool] *)
Definition mark_load (m : markptr) : bool := to_bool (Z.land (_p m) 1).

(** [markptr::cmpxch]:
<<
    uptr ee = expected._p.load();
    return _p.compare_exchange_weak(ee, desired._p.load());
>>
    Returns the result and the word afterwards. *)
Definition cmpxch (spur : bool) (this expected desired : markptr)
  : bool * markptr :=
  let ee := _p expected in
  let '(ok, cell, _) := compare_exchange_weak spur (_p this) ee (_p desired) in
  (ok, MkMarkptr cell).

(** [markptr_ptr::operator=(T *p)]:
<<
    do {
      p0 = _p.load();
      p1 = (p0 & 1) | (uptr) p;
    } while (!_p.compare_exchange_weak(p0, p1));
>>
    One element of [sched] is consumed per iteration.  The result is the
    word the successful compare-and-swap found in the cell and the word it
    left there; [None] when the schedule ends before a success. *)
Fixpoint ptr_assign (sched : list step) (this : markptr) (p : Z)
  : option (markptr * markptr) :=
  match sched with
  | [] => None
  | s :: rest =>
      let p0 := _p this in
      let p1 := Z.lor (Z.land p0 1) p in
      let cell := env_write s (_p this) in
      let '(ok, cell', _) := compare_exchange_weak (spurious s) cell p0 p1 in
      if ok then Some (MkMarkptr cell, MkMarkptr cell')
      else ptr_assign rest (MkMarkptr cell') p
  end.

(** [markptr_mark::operator=(bool m)]:
<<
    do {
      p0 = _p.load();
      p1 = (p0 & ~1) | !!m;
    } while (!_p.compare_exchange_weak(p0, p1));
>> *)
Fixpoint mark_assign (sched : list step) (this : markptr) (m : bool)
  : option (markptr * markptr) :=
  match sched with
  | [] => None
  | s :: rest =>
      let p0 := _p this in
      let p1 := Z.lor (Z.land p0 not1) (of_bool (negb (negb m))) in
      let cell := env_write s (_p this) in
      let '(ok, cell', _) := compare_exchange_weak (spurious s) cell p0 p1 in
      if ok then Some (MkMarkptr cell, MkMarkptr cell')
      else mark_assign rest (MkMarkptr cell') m
  end.

End Markptr.

(** ** Epoch guards *)

Module Gc.

(** Modelled from the spec: [scoped_gc_epoch] (gc.hh is not among the
    sources).  Section 4.3 describes it as a scoped token; section 6 gives
    the service [Epoch.{enter, leave}].  A guard object is a token that is
    [live] from its construction until it is destroyed or moved from; the
    calling thread's state is the number of live guards ([proc::epoch],
    "low 8 bits are depth count"). *)
Record scoped_gc_epoch := Guard { live : bool }.

Definition depth := nat.

(** Default construction enters an epoch. *)
Definition ctor (d : depth) : scoped_gc_epoch * depth := (Guard true, S d).

(** Destruction leaves the epoch if the token is still live. *)
Definition dtor (g : scoped_gc_epoch) (d : depth) : depth :=
  if live g then Nat.pred d else d.

(** Move construction hands the token over: (new guard, moved-from guard). *)
Definition move (g : scoped_gc_epoch) : scoped_gc_epoch * scoped_gc_epoch :=
  (Guard (live g), Guard false).

(** The two ways the sources spell a declaration of a variable [x] of
    class type [T] without constructor arguments: the member
    [scoped_gc_epoch gc;] of [crange_locked], and the block-scope
    [scoped_gc_epoch xgc();] of [uwq_trywork]. *)
Inductive decl_form :=
| DeclPlain        (* T x;   *)
| DeclEmptyParens  (* T x(); *).

(** In C++ a declaration of the form [T x();] declares a function [x]
    that takes no arguments and returns [T]: no object is created and no
    constructor runs.  The plain form default-constructs an object. *)
Definition declares_object (f : decl_form) : bool :=
  match f with
  | DeclEmptyParens => false
  | DeclPlain => true
  end.

(** Effect of a declaration of a [scoped_gc_epoch] on the thread: the
    guard that is live in the rest of the scope, if any, and the depth. *)
Definition declare (f : decl_form) (d : depth)
  : option scoped_gc_epoch * depth :=
  if declares_object f then let '(g, d') := ctor d in (Some g, d')
  else (None, d).

(** End of the scope of such a declaration. *)
Definition end_scope (g : option scoped_gc_epoch) (d : depth) : depth :=
  match g with Some g => dtor g d | None => d end.

End Gc.

(** ** Ranges, the level-0 iterator and the locked window *)

Module Crange.
Import Word Markptr.

(** [struct range]; [lock] is [true] while the spin lock is held. *)
Record range := MkRange {
  key : Z;
  size : Z;
  curlevel : Z;
  nlevel : Z;
  next : list markptr;
  lock : bool
}.

(** Memory: the [range] objects by address; address 0 is the null
    pointer and holds no object. *)
Abbreviation heap := (gmap Z range).

(** The word [e->next[0]]; [None] when [e] is not an object or has no
    level 0 (the C++ behaviour is undefined there). *)
Definition next0 (h : heap) (e : Z) : option markptr :=
  r ← h !! e; next r !! 0%nat.

(** [bool deleted() { return next[0].mark(); }] *)
Definition deleted (h : heap) (e : Z) : option bool :=
  mark_load <$> next0 h e.

(** The node [r] with its lock free. *)
Definition unlock (r : range) : range :=
  MkRange (key r) (size r) (curlevel r) (nlevel r) (next r) false.

(** Modelled from the spec: [release] of the spin-lock service
    (spinlock.cc is not among the sources); [release(&e->lock)] gives up
    the lock of [e] and touches nothing else. *)
Definition release (h : heap) (e : Z) : heap := alter unlock e h.

(** *** range_iterator *)

Record range_iterator := MkIter { _e : Z }.

(** [range_iterator& operator++() { _e = _e->next[0].ptr(); return *this; }] *)
Definition incr (h : heap) (it : range_iterator) : option range_iterator :=
  m ← next0 h (_e it); Some (MkIter (ptr_load m)).

(** [range*& operator*() { return _e; }] *)
Definition deref (it : range_iterator) : Z := _e it.

(** [bool operator!=(const range_iterator &other) { return _e != other._e; }] *)
Definition iter_neqb (a b : range_iterator) : bool := negb (_e a =? _e b).

(** The range-based [for] loop that the free functions [begin]/[end]
    exist for:
<<
    for (it = first; it != last; ++it) visit( *it );
>>
    The result is the list of visited nodes. *)
Fixpoint iterate (fuel : nat) (h : heap) (it last : range_iterator)
  : option (list Z) :=
  match fuel with
  | O => None
  | S fuel' =>
      if iter_neqb it last then
        it' ← incr h it;
        rest ← iterate fuel' h it' last;
        Some (deref it :: rest)
      else Some []
  end.

(** *** crange *)

Record crange := MkCrange { cr_nlevel : Z; crange_head : Z }.

(** [range_iterator begin() const { return range_iterator(crange_head->next[0].ptr()); }] *)
Definition crange_begin (h : heap) (cr : crange) : option range_iterator :=
  m ← next0 h (crange_head cr); Some (MkIter (ptr_load m)).

(** [range_iterator end() const { return range_iterator(0); }] *)
Definition crange_end (cr : crange) : range_iterator := MkIter 0.

(** *** crange_locked *)

Record crange_locked := MkLocked {
  cr_ : crange;
  base_ : Z;
  size_ : Z;
  prev_ : Z;
  succ_ : Z;
  moved_ : bool;
  gc : Gc.scoped_gc_epoch
}.

(** The private constructor
<<
    crange_locked(crange *cr, u64 base, u64 sz, range *p, range *s)
      : cr_(cr), base_(base), size_(sz), prev_(p), succ_(s), moved_(false) {}
>>
    The member [scoped_gc_epoch gc;] is default-constructed. *)
Definition locked_ctor (cr : crange) (base sz p s : Z) (d : Gc.depth)
  : crange_locked * Gc.depth :=
  let '(g, d') := Gc.ctor d in
  (MkLocked cr base sz p s false g, d').

(** The move constructor: (the new handle, the source afterwards).
<<
    crange_locked(crange_locked &&x)
      : cr_(x.cr_), base_(x.base_), size_(x.size_), prev_(x.prev_),
        succ_(x.succ_), moved_(false), gc(std::move(x.gc))
    { x.moved_ = true; }
>> *)
Definition locked_move (x : crange_locked) : crange_locked * crange_locked :=
  let '(g, g0) := Gc.move (gc x) in
  (MkLocked (cr_ x) (base_ x) (size_ x) (prev_ x) (succ_ x) false g,
   MkLocked (cr_ x) (base_ x) (size_ x) (prev_ x) (succ_ x) true g0).

(** What the destructor does, in program order. *)
Inductive event :=
| EvReadNext (e : Z)   (* n = e->next[0].ptr() *)
| EvRelease (e : Z)    (* release(&e->lock)    *).

(** The loop of the destructor:
<<
    for (range *e = prev_; e && e != succ_; e = n) {
      n = e->next[0].ptr();
      release(&e->lock);
    }
>> *)
Fixpoint release_loop (fuel : nat) (h : heap) (succ e : Z)
  : option (heap * list event) :=
  match fuel with
  | O => None
  | S fuel' =>
      if negb (e =? 0) && negb (e =? succ) then
        m ← next0 h e;
        let n := ptr_load m in
        let h1 := release h e in
        '(h2, t) ← release_loop fuel' h1 succ n;
        Some (h2, EvReadNext e :: EvRelease e :: t)
      else Some (h, [])
  end.

(** [~crange_locked() { if (!moved_) { ... } }] *)
Definition locked_dtor (fuel : nat) (h : heap) (x : crange_locked)
  : option (heap * list event) :=
  if negb (moved_ x) then release_loop fuel h (succ_ x) (prev_ x)
  else Some (h, []).

(** [range_iterator begin() const { return range_iterator(prev_->next[0].ptr()); }] *)
Definition locked_begin (h : heap) (x : crange_locked) : option range_iterator :=
  m ← next0 h (prev_ x); Some (MkIter (ptr_load m)).

(** [range_iterator end() const { return range_iterator(succ_); }] *)
Definition locked_end (x : crange_locked) : range_iterator := MkIter (succ_ x).

(** [links h e l]: starting at node [e], the level-0 pointers (mark
    stripped) lead through the elements of [l] one after the other. *)
Fixpoint links (h : heap) (e : Z) (l : list Z) : Prop :=
  match l with
  | [] => True
  | x :: l' => (∃ m, next0 h e = Some m ∧ ptr_load m = x) ∧ links h x l'
  end.

(** The releases of a trace, in order. *)
Definition releases (t : list event) : list Z :=
  omap (fun ev => match ev with EvRelease e => Some e | EvReadNext _ => None end) t.

(** The trace of a release loop that walks the nodes [ns]: for each
    node, the read of its pointer and then the release of its lock. *)
Definition release_trace (ns : list Z) : list event :=
  flat_map (fun n => [EvReadNext n; EvRelease n]) ns.

(** The handles left behind by [n] successive moves that start from [x],
    each one moving from the handle the previous one created: the final
    owner and the moved-from handles (oldest first). *)
Fixpoint move_chain (n : nat) (x : crange_locked)
  : crange_locked * list crange_locked :=
  match n with
  | O => (x, [])
  | S n' =>
      let '(y, x') := locked_move x in
      let '(z, olds) := move_chain n' y in
      (z, x' :: olds)
  end.

(** Destruction of several handles one after the other, in list order. *)
Fixpoint destroy_all (fuel : nat) (h : heap) (xs : list crange_locked)
  : option (heap * list event) :=
  match xs with
  | [] => Some (h, [])
  | x :: xs' =>
      '(h1, t1) ← locked_dtor fuel h x;
      '(h2, t2) ← destroy_all fuel h1 xs';
      Some (h2, t1 ++ t2)
  end.

(** *** A small list

    The head sentinel at address 16 and three nodes at 32, 48 and 64, all
    locked; the node at 48 is marked as deleted (its level-0 word is
    [64 | 1]) and still linked. *)
Definition ex_node (k sz nxt : Z) : range :=
  MkRange k sz 1 1 [MkMarkptr nxt] true.

Definition ex_heap : heap :=
  <[16 := ex_node 0 0 32]>
  (<[32 := ex_node 10 2 48]>
  (<[48 := ex_node 14 1 65]>
  (<[64 := ex_node 20 4 0]> ∅))).

Definition ex_crange : crange := MkCrange 1 16.

(** A handle for the query [14, 15) on this list: [prev] is the node at
    32, [succ] the node at 64, and the window is the node at 48. *)
Definition ex_locked : crange_locked :=
  (locked_ctor ex_crange 14 1 32 64 0%nat).1.

End Crange.

(** ** User work queues *)

Module Uwq.
Import Word.

(** Constants of param.h, mmu.h and memlayout.h, which are not among the
    sources; the functions below take them as parameters. *)
Record params := MkParams {
  NCPU : nat;
  NWORKERS : nat;
  USTACKPAGES : Z;
  PGSIZE : Z;
  UCSEG : Z;
  UDSEG : Z;
  FL_IF : Z
}.

Record trapframe := MkTf { rsp : Z; rip : Z; cs : Z; ds : Z; ss : Z; rflags : Z }.

(** The members of [struct proc] that uwq.cc reads or writes.  Pointers
    are addresses, 0 is [nullptr]. *)
Record proc := MkProc {
  p_vmap : Z;
  p_ftable : Z;
  p_uwq : Z;
  p_worker : Z;
  p_cpuid : Z;
  p_tf : trapframe;
  p_name : list Z
}.

Record uwq_worker := MkWorker { uwq_ : Z; proc_ : Z; running_ : bool }.

(** [class uwq].  [u_valid] is what [valid()] returns (uwq.hh is not among
    the sources); [len_] is [None] for [nullptr] and otherwise the [v_]
    members of the array it points to. *)
Record uwq := MkUwq {
  u_valid : bool;
  vmap_ : Z;
  ftable_ : Z;
  len_ : option (list Z);
  uentry_ : Z;
  ustack_ : Z;
  uref_ : Z;
  worker_ : list Z
}.

(** Kernel memory as far as uwq.cc is concerned: [cpus[j].proc] for every
    CPU, the objects by address, and the run queue that [addrun] fills. *)
Record kstate := MkState {
  cpus : list Z;
  procs : gmap Z proc;
  workers : gmap Z uwq_worker;
  uwqs : gmap Z uwq;
  runq : list Z
}.

(** What one call observes of its environment: the calling CPU, the time
    stamp counter, and the results of the allocators and of
    [vmap::insert]. *)
Record env := MkEnv {
  mycpuid : Z;
  rdtsc : Z;
  proc_alloc : Z * proc;
  vmnode_alloc : Z;
  vmap_insert : Z;
  worker_alloc : Z
}.

Inductive event :=
| EvReadProc (j : Z) (guards : nat)      (* p = cpus[j].proc *)
| EvHaswork (j u : Z) (guards : nat)     (* uwq->haswork()   *)
| EvTryworker (j u : Z) (guards : nat)   (* uwq->tryworker() *)
| EvWakeup (w : Z)                       (* cv_wakeup(&w->cv_) *)
| EvAddrun (p : Z)                       (* addrun(p) *)
| EvIncref (o : Z)
| EvVmapInsert (vmn va : Z)
| EvDeleteVmnode (vmn : Z)
| EvFinishproc (p : Z).

Definition set_cpuid (c : Z) (p : proc) : proc :=
  MkProc (p_vmap p) (p_ftable p) (p_uwq p) (p_worker p) c (p_tf p) (p_name p).
Definition set_worker (w : Z) (p : proc) : proc :=
  MkProc (p_vmap p) (p_ftable p) (p_uwq p) w (p_cpuid p) (p_tf p) (p_name p).
Definition set_running (b : bool) (w : uwq_worker) : uwq_worker :=
  MkWorker (uwq_ w) (proc_ w) b.
Definition set_procs (m : gmap Z proc) (s : kstate) : kstate :=
  MkState (cpus s) m (workers s) (uwqs s) (runq s).
Definition set_workers (m : gmap Z uwq_worker) (s : kstate) : kstate :=
  MkState (cpus s) (procs s) m (uwqs s) (runq s).
Definition set_uwqs (m : gmap Z uwq) (s : kstate) : kstate :=
  MkState (cpus s) (procs s) (workers s) m (runq s).
Definition addrun (p : Z) (s : kstate) : kstate :=
  MkState (cpus s) (procs s) (workers s) (uwqs s) (runq s ++ [p]).

(** The string literal ["uwq_worker"]. *)
Definition uwq_worker_name : list Z :=
  [117; 119; 113; 95; 119; 111; 114; 107; 101; 114].

(** A result of [None] below means that the kernel panics or that the C++
    behaviour is undefined (a dangling or out-of-range access).  The spin
    locks taken and given back inside one call are left out. *)

(** [uwq::haswork]:
<<
    if (len_ == nullptr) return false;
    for (int i = 0; i < NCPU; i++)
      if (len_[i].v_ > 0) return true;
    return false;
>> *)
Fixpoint haswork_loop (len : list Z) (idx : list nat) : option bool :=
  match idx with
  | [] => Some false
  | i :: rest =>
      v ← len !! i;
      if 0 <? v then Some true else haswork_loop len rest
  end.

Definition haswork (P : params) (u : uwq) : option bool :=
  match len_ u with
  | None => Some false
  | Some len => haswork_loop len (seq 0 (NCPU P))
  end.

(** [uwq::allocworker]; the result is the returned [proc*]. *)
Definition allocworker (P : params) (e : env) (s : kstate) (u : Z)
  : option (Z * kstate * list event) :=
  uq ← uwqs s !! u;
  let uentry := uentry_ uq in
  if uentry =? 0 then Some (0, s, [])
  else
    let '(p, fresh) := proc_alloc e in
    if p =? 0 then Some (0, s, [])
    else
      let p1 := MkProc (vmap_ uq) (ftable_ uq) (p_uwq fresh) (p_worker fresh)
                       (p_cpuid fresh) (p_tf fresh) uwq_worker_name in
      let s1 := set_procs (<[p := p1]> (procs s)) s in
      let t1 := [EvIncref (vmap_ uq); EvIncref (ftable_ uq)] in
      let vmn := vmnode_alloc e in
      if vmn =? 0 then Some (0, s1, t1 ++ [EvFinishproc p])
      else
        let stacktop := wrap (ustack_ uq + USTACKPAGES P * PGSIZE P) in
        if vmap_insert e <? 0
        then Some (0, s1, t1 ++ [EvVmapInsert vmn (ustack_ uq);
                                 EvDeleteVmnode vmn; EvFinishproc p])
        else
          let uq' := MkUwq (u_valid uq) (vmap_ uq) (ftable_ uq) (len_ uq)
                           (uentry_ uq)
                           (wrap (ustack_ uq + (USTACKPAGES P * PGSIZE P + PGSIZE P)))
                           (uref_ uq) (worker_ uq) in
          let dsv := Z.lor (UDSEG P) 3 in
          let tf := MkTf (wrap (stacktop - 8)) uentry (Z.lor (UCSEG P) 3)
                         dsv dsv (FL_IF P) in
          let p2 := MkProc (p_vmap p1) (p_ftable p1) (p_uwq p1) (p_worker p1)
                           (p_cpuid p1) tf (p_name p1) in
          let s2 := set_uwqs (<[u := uq']> (uwqs s1))
                             (set_procs (<[p := p2]> (procs s1)) s1) in
          Some (p, s2, t1 ++ [EvVmapInsert vmn (ustack_ uq)]).

(** The three spellings of a [return] in [uwq::tryworker], and the
    conversion of each to the declared return type [bool]; a null pointer
    constant converts to [false]. *)
Inductive retval := RetTrue | RetFalse | RetNullptr.

Definition bool_of_ret (r : retval) : bool :=
  match r with
  | RetTrue => true
  | RetFalse => false
  | RetNullptr => false
  end.

(** The loop over [worker_] in [uwq::tryworker]: it either returns from
    the function after waking a worker, or runs to its end with [slot]. *)
Inductive scan_result :=
| ScanWoke (s : kstate) (t : list event)
| ScanDone (slot : Z).

Fixpoint worker_scan (e : env) (s : kstate) (wk : list Z) (idx : list nat)
    (slot : Z) : option scan_result :=
  match idx with
  | [] => Some (ScanDone slot)
  | i :: rest =>
      w ← wk !! i;
      if w =? 0 then
        worker_scan e s wk rest (if slot =? -1 then Z.of_nat i else slot)
      else
        wo ← workers s !! w;
        if running_ wo then worker_scan e s wk rest slot
        else
          let p := proc_ wo in
          po ← procs s !! p;
          let s1 := set_procs (<[p := set_cpuid (mycpuid e) po]> (procs s)) s in
          let s2 := set_workers (<[w := set_running true wo]> (workers s1)) s1 in
          Some (ScanWoke s2 [EvWakeup w])
  end.

(** [uwq::tryworker], with the return statement that was executed. *)
Definition tryworker_ret (P : params) (e : env) (s : kstate) (u : Z)
  : option (retval * kstate * list event) :=
  uq ← uwqs s !! u;
  if negb (u_valid uq) then Some (RetFalse, s, [])
  else
    r ← worker_scan e s (worker_ uq) (seq 0 (NWORKERS P)) (-1);
    match r with
    | ScanWoke s' t => Some (RetTrue, s', t)
    | ScanDone slot =>
        if negb (slot =? -1) then
          '(p, s1, t1) ← allocworker P e s u;
          if negb (p =? 0) then
            let w := worker_alloc e in
            if w =? 0 then None
            else
              uq1 ← uwqs s1 !! u;
              po ← procs s1 !! p;
              let uq2 := MkUwq (u_valid uq1) (vmap_ uq1) (ftable_ uq1) (len_ uq1)
                               (uentry_ uq1) (ustack_ uq1) (wrap (uref_ uq1 + 1))
                               (<[Z.to_nat slot := w]> (worker_ uq1)) in
              let po' := set_cpuid (mycpuid e) (set_worker w po) in
              let s2 := MkState (cpus s1) (<[p := po']> (procs s1))
                                (<[w := MkWorker u p true]> (workers s1))
                                (<[u := uq2]> (uwqs s1))
                                (runq s1 ++ [p]) in
              Some (RetTrue, s2, t1 ++ [EvAddrun p])
          else Some (RetNullptr, s1, t1)
        else Some (RetNullptr, s, [])
    end.

(** [bool uwq::tryworker(void)] as its callers see it. *)
Definition tryworker (P : params) (e : env) (s : kstate) (u : Z)
  : option (bool * kstate * list event) :=
  '(r, s', t) ← tryworker_ret P e s u;
  Some (bool_of_ret r, s', t).

(** The loop of [uwq_trywork].  [decl] is the form of the declaration of
    [xgc]; [d] is the number of epoch guards live on the calling thread.
<<
    for (i = 0; i < NCPU; i++) {
      u64 j = (i+k) % NCPU;
      if (j == mycpuid()) continue;
      struct cpu *c = &cpus[j];
      scoped_gc_epoch xgc();
      barrier();
      struct proc *p = c->proc;
      if (p == nullptr) continue;
      uwq* uwq = p->uwq;
      if (uwq == nullptr) continue;
      if (uwq->haswork()) {
        if (uwq->tryworker()) return true;
        break;
      }
    }
    return false;
>> *)
Fixpoint trywork_loop (decl : Gc.decl_form) (P : params) (e : env)
    (idx : list nat) (s : kstate) (d : Gc.depth)
  : option (bool * kstate * list event) :=
  match idx with
  | [] => Some (false, s, [])
  | i :: rest =>
      let j := wrap (Z.of_nat i + rdtsc e) `mod` Z.of_nat (NCPU P) in
      if j =? mycpuid e then trywork_loop decl P e rest s d
      else
        p ← cpus s !! Z.to_nat j;
        let '(xgc, d1) := Gc.declare decl d in
        let d2 := Gc.end_scope xgc d1 in
        let continue (t : list event) : option (bool * kstate * list event) :=
          '(b, s', t') ← trywork_loop decl P e rest s d2;
          Some (b, s', t ++ t') in
        if p =? 0 then continue [EvReadProc j d1]
        else
          po ← procs s !! p;
          let u := p_uwq po in
          if u =? 0 then continue [EvReadProc j d1]
          else
            uq ← uwqs s !! u;
            hw ← haswork P uq;
            if hw : bool then
              '(r, s', t') ← tryworker P e s u;
              let t := [EvReadProc j d1; EvHaswork j u d1; EvTryworker j u d1] ++ t' in
              if r : bool then Some (true, s', t) else Some (false, s', t)
            else continue [EvReadProc j d1; EvHaswork j u d1]
  end.

Definition trywork_with (decl : Gc.decl_form) (P : params) (e : env)
    (s : kstate) (d : Gc.depth) : option (bool * kstate * list event) :=
  trywork_loop decl P e (seq 0 (NCPU P)) s d.

(** [bool uwq_trywork(void)]; the source declares [scoped_gc_epoch xgc();]. *)
Definition uwq_trywork := trywork_with Gc.DeclEmptyParens.

(** *** Projections of a trace *)

(** The CPUs whose [proc] pointer was read, in order. *)
Definition probed (t : list event) : list Z :=
  omap (fun ev => match ev with EvReadProc j _ => Some j | _ => None end) t.

(** The calls of [tryworker]: victim CPU and work queue. *)
Definition calls (t : list event) : list (Z * Z) :=
  omap (fun ev => match ev with EvTryworker j u _ => Some (j, u) | _ => None end) t.

(** The number of live guards recorded at each step of the read path. *)
Definition guards_seen (t : list event) : list nat :=
  omap (fun ev => match ev with
                  | EvReadProc _ g | EvHaswork _ _ g | EvTryworker _ _ g => Some g
                  | _ => None
                  end) t.

(** A worker was woken or a new one was put on the run queue. *)
Definition started (t : list event) : bool :=
  existsb (fun ev => match ev with EvWakeup _ | EvAddrun _ => true | _ => false end) t.

(** The order in which [uwq_trywork] looks at the other CPUs. *)
Definition probe_order (P : params) (e : env) : list Z :=
  filter (fun j => j ≠ mycpuid e)
         (map (fun i => wrap (Z.of_nat i + rdtsc e) `mod` Z.of_nat (NCPU P))
              (seq 0 (NCPU P))).

(** The work queue of the process that CPU [j] runs, when it has one. *)
Definition uwq_of (s : kstate) (j : Z) : option Z :=
  p ← cpus s !! Z.to_nat j;
  if p =? 0 then None
  else
    po ← procs s !! p;
    (if p_uwq po =? 0 then None else Some (p_uwq po)).

(** CPU [j] runs a process whose work queue reports work. *)
Definition busy (P : params) (s : kstate) (j : Z) : bool :=
  match uwq_of s j with
  | Some u =>
      match uwqs s !! u with
      | Some uq => match haswork P uq with Some b => b | None => false end
      | None => false
      end
  | None => false
  end.

(** Every pointer that [uwq_trywork] may follow leads to an object. *)
Record wf (P : params) (s : kstate) : Prop := MkWf {
  wf_cpus : length (cpus s) = NCPU P;
  wf_proc : ∀ p, p ∈ cpus s → p ≠ 0 → is_Some (procs s !! p);
  wf_uwq : ∀ p po, procs s !! p = Some po → p_uwq po ≠ 0 →
           is_Some (uwqs s !! p_uwq po);
  wf_len : ∀ u uq len, uwqs s !! u = Some uq → len_ uq = Some len →
           length len = NCPU P;
  wf_slots : ∀ u uq, uwqs s !! u = Some uq → length (worker_ uq) = NWORKERS P;
  wf_worker : ∀ u uq w, uwqs s !! u = Some uq → w ∈ worker_ uq → w ≠ 0 →
              ∃ wo, workers s !! w = Some wo ∧ is_Some (procs s !! proc_ wo)
}.

(** Events that are not steps of [uwq_trywork] itself. *)
Definition internal (ev : event) : Prop :=
  match ev with
  | EvReadProc _ _ | EvHaswork _ _ _ | EvTryworker _ _ _ => False
  | _ => True
  end.

(** Events that start no worker. *)
Definition quiet_event (ev : event) : Prop :=
  match ev with
  | EvWakeup _ | EvAddrun _ => False
  | _ => True
  end.

(** *** What a successful [tryworker] has done *)

(** An existing worker that was not running has been woken: it is in the
    queue's [worker_] array, it is now marked as running, and its
    condition variable was signalled. *)
Definition woke (s s' : kstate) (u : Z) (t : list event) : Prop :=
  ∃ uq w wo,
    uwqs s !! u = Some uq ∧ w ∈ worker_ uq ∧ w ≠ 0
    ∧ workers s !! w = Some wo ∧ running_ wo = false
    ∧ workers s' !! w = Some (set_running true wo)
    ∧ t = [EvWakeup w].

(** A new worker has been allocated and enqueued: its process is at the
    end of the run queue, the worker object is running and is stored in a
    slot of [worker_] that was empty. *)
Definition enqueued (s s' : kstate) (u : Z) (t : list event) : Prop :=
  ∃ uq uq' p w slot,
    uwqs s !! u = Some uq ∧ uwqs s' !! u = Some uq'
    ∧ worker_ uq !! slot = Some 0 ∧ worker_ uq' !! slot = Some w ∧ w ≠ 0
    ∧ workers s' !! w = Some (MkWorker u p true)
    ∧ p_worker <$> procs s' !! p = Some w
    ∧ runq s' = runq s ++ [p]
    ∧ last t = Some (EvAddrun p).

(** *** What [uwq_trywork] has done

    With [order] the CPUs it may look at: when the first of them that is
    [busy] is the [n]-th, CPU [j] with work queue [u], it has looked at
    the first [n+1] CPUs only, has called [tryworker] once, on [u], and
    returns what that call returned; when none is busy it has looked at
    all of them, has called nothing and returns [false]. *)
Definition one_victim (P : params) (e : env) (s : kstate) (order : list Z)
    (b : bool) (s' : kstate) (t : list event) : Prop :=
  match list_find (fun j => busy P s j = true) order with
  | Some (n, j) =>
      ∃ u t',
        uwq_of s j = Some u
        ∧ tryworker P e s u = Some (b, s', t')
        ∧ calls t = [(j, u)]
        ∧ probed t = take (S n) order
  | None => b = false ∧ s' = s ∧ calls t = [] ∧ probed t = order
  end.

(** *** A small machine

    Two CPUs.  CPU 0 is the caller and runs the process at 100, which has
    no work queue.  CPU 1 runs the process at 200 with the work queue at
    300, which has three pending items for CPU 1 and one idle worker (at
    400, process at 500) in slot 0. *)
Definition ex_params : params := MkParams 2 2 8 4096 32 40 512.

Definition ex_proc (u : Z) : proc := MkProc 700 800 u 0 0 (MkTf 0 0 0 0 0 0) [].

Definition ex_uwq (wk : list Z) : uwq :=
  MkUwq true 700 800 (Some [0; 3]) 4096 1048576 1 wk.

Definition ex_state : kstate :=
  MkState [100; 200]
          (<[100 := ex_proc 0]> (<[200 := ex_proc 300]> (<[500 := ex_proc 300]> ∅)))
          (<[400 := MkWorker 300 500 false]> ∅)
          (<[300 := ex_uwq [400; 0]]> ∅)
          [].

Definition ex_env : env := MkEnv 0 7 (600, ex_proc 0) 900 0 1000.

(** The same machine when the worker at 400 is already running, so that
    [tryworker] has to allocate. *)
Definition ex_state_running : kstate :=
  set_workers (<[400 := MkWorker 300 500 true]> ∅) ex_state.

(** An environment in which [proc::alloc] fails. *)
Definition ex_env_nomem : env := MkEnv 0 7 (0, ex_proc 0) 900 0 1000.

End Uwq.

(** ** The remaining operations of markptr *)

Module MarkptrOps.
Import Word Markptr.

(** [void operator=(T* v) { _p = (uptr) v; }] *)
Definition assign_ptr (this : markptr) (v : Z) : markptr := MkMarkptr v.

(** [void operator=(const markptr<T> &v) { _p = v._p.load(); }] *)
Definition assign (this v : markptr) : markptr := MkMarkptr (_p v).

(** [bool operator!=(const markptr<T> &v) const { return _p != v._p; }] *)
Definition neqb (a b : markptr) : bool := negb (_p a =? _p b).

(** Every value another thread stores into the cell is a machine word. *)
Definition word_writes (sched : list Atomic.step) : Prop :=
  Forall (fun s => ∀ v, Atomic.interfere s = Some v → is_word v) sched.

End MarkptrOps.

(** ** The life of a work queue and of its workers *)

Module UwqLife.
Import Word Uwq.

Inductive event :=
| LIncref (o : Z)       (* o->incref()            *)
| LDecref (o : Z)       (* o->decref()            *)
| LMapkva (len : Z)     (* mapkva(.., len, ..)     *)
| LKsfree (len : Z)     (* ksfree(slab_userwq, len) *)
| LDec (u : Z)          (* u->dec()               *)
| LCvWakeup (w : Z)     (* cv_wakeup(&w->cv_)     *)
| LGcDelayed (u : Z)    (* gc_delayed(u)          *)
| LDelete (w : Z)       (* delete this            *)
| LProcExit             (* ::exit()               *).

(** What [uwq::alloc] observes: the slab that [ksalloc] returns (address,
    0 on failure, and contents), the address [new] returns for the
    [uwq] (0 on failure), what [valid()] says of a new object, and the
    result of [mapkva]. *)
Record alloc_env := MkAllocEnv {
  ksalloc : Z * list Z;
  new_uwq : Z;
  new_valid : bool;
  mapkva : Z
}.

(** The loop of the constructor:
<<
    for (int i = 0; i < NCPU; i++)
      len_[i].v_ = 0;
>>
    [None] when the slab has fewer than [NCPU] entries. *)
Fixpoint zero_len (len : list Z) (idx : list nat) : option (list Z) :=
  match idx with
  | [] => Some len
  | i :: rest =>
      if (i <? length len)%nat then zero_len (<[i := 0]> len) rest else None
  end.

(** [uwq::uwq(vmap* vmap, filetable *ftable, padded_length *len)]:
<<
    : rcu_freed("uwq"), vmap_(vmap), ftable_(ftable), len_(len),
      uentry_(0), ustack_(UWQSTACK), uref_(0)
    { ...; memset(worker_, 0, sizeof(worker_)); }
>>
    [UWQSTACK] is a constant of a header that is not among the sources. *)
Definition uwq_ctor (P : params) (UWQSTACK : Z) (valid : bool)
    (vmap ftable : Z) (len : list Z) : option uwq :=
  len' ← zero_len len (seq 0 (NCPU P));
  Some (MkUwq valid vmap ftable (Some len') 0 UWQSTACK 0
              (replicate (NWORKERS P) 0)).

(** [uwq::alloc(vmap* vmap, filetable *ftable)]; the result is the
    returned pointer. *)
Definition alloc (P : params) (UWQSTACK : Z) (A : alloc_env) (s : kstate)
    (vmap ftable : Z) : option (Z * kstate * list event) :=
  let '(len, slab) := ksalloc A in
  if len =? 0 then Some (0, s, [])
  else
    let t1 := [LIncref ftable; LIncref vmap] in
    let u := new_uwq A in
    if u =? 0
    then Some (0, s, t1 ++ [LDecref ftable; LDecref vmap; LKsfree len])
    else
      obj ← uwq_ctor P UWQSTACK (new_valid A) vmap ftable slab;
      let s1 := set_uwqs (<[u := obj]> (uwqs s)) s in
      if negb (mapkva A =? 0)
      then Some (0, s1, t1 ++ [LMapkva len; LDecref ftable; LDecref vmap;
                               LKsfree len; LDec u])
      else Some (u, s1, t1 ++ [LMapkva len]).

(** [void uwq::setuentry(uptr uentry) { uentry_ = uentry; }] *)
Definition setuentry (s : kstate) (u uentry : Z) : option kstate :=
  uq ← uwqs s !! u;
  Some (set_uwqs (<[u := MkUwq (u_valid uq) (vmap_ uq) (ftable_ uq) (len_ uq)
                          uentry (ustack_ uq) (uref_ uq) (worker_ uq)]>
                    (uwqs s)) s).

(** The loop of [uwq::finish]:
<<
    for (int i = 0; i < NWORKERS; i++) {
      if (worker_[i] != nullptr) {
        uwq_worker* w = worker_[i];
        gcnow = false;
        acquire(&w->lock_); cv_wakeup(&w->cv_); release(&w->lock_);
      }
    }
>> *)
Fixpoint finish_loop (s : kstate) (wk : list Z) (idx : list nat)
    (gcnow : bool) : option (bool * list event) :=
  match idx with
  | [] => Some (gcnow, [])
  | i :: rest =>
      w ← wk !! i;
      if negb (w =? 0) then
        _ ← workers s !! w;
        '(g, t) ← finish_loop s wk rest false;
        Some (g, LCvWakeup w :: t)
      else finish_loop s wk rest gcnow
  end.

(** [uwq::finish]: the loop, then [if (gcnow) gc_delayed(this);]. *)
Definition finish (P : params) (s : kstate) (u : Z) : option (list event) :=
  uq ← uwqs s !! u;
  '(gcnow, t) ← finish_loop s (worker_ uq) (seq 0 (NWORKERS P)) true;
  Some (if gcnow : bool then t ++ [LGcDelayed u] else t).

(** [void uwq::onzero() const { uwq *u = (uwq* )this; u->finish(); }] *)
Definition onzero := finish.

(** [uwq_worker::exit]; it does not return to its caller.
<<
    if (--uwq_->uref_ == 0) gc_delayed(uwq_);
    release(&lock_);
    delete this;
    ::exit();
>> *)
Definition worker_exit (s : kstate) (w : Z) : option (kstate * list event) :=
  wo ← workers s !! w;
  uq ← uwqs s !! uwq_ wo;
  let n := wrap (uref_ uq - 1) in
  let uq' := MkUwq (u_valid uq) (vmap_ uq) (ftable_ uq) (len_ uq)
                   (uentry_ uq) (ustack_ uq) n (worker_ uq) in
  let s1 := set_uwqs (<[uwq_ wo := uq']> (uwqs s)) s in
  let s2 := set_workers (delete w (workers s1)) s1 in
  Some (s2, (if n =? 0 then [LGcDelayed (uwq_ wo)] else [])
            ++ [LDelete w; LProcExit]).

(** How a part of [uwq_worker::wait] ends: the thread has exited, it
    sleeps in [cv_sleep], or the function has returned. *)
Inductive wait_result :=
| Exited (s : kstate) (t : list event)
| Asleep (s : kstate)
| Returned (s : kstate) (v : Z).

(** [uwq_worker::wait] up to [cv_sleep]:
<<
    acquire(&lock_);
    if (!uwq_->valid()) this->exit();
    running_ = false;
    cv_sleep(&cv_, &lock_);
>> *)
Definition wait_sleep (s : kstate) (w : Z) : option wait_result :=
  wo ← workers s !! w;
  uq ← uwqs s !! uwq_ wo;
  if negb (u_valid uq) then
    '(s', t) ← worker_exit s w; Some (Exited s' t)
  else
    Some (Asleep (set_workers (<[w := set_running false wo]> (workers s)) s)).

(** [uwq_worker::wait] from the wake-up on; in between, other threads
    may have changed the memory.
<<
    if (!uwq_->valid()) this->exit();
    release(&lock_);
    return 0;
>> *)
Definition wait_wake (s : kstate) (w : Z) : option wait_result :=
  wo ← workers s !! w;
  uq ← uwqs s !! uwq_ wo;
  if negb (u_valid uq) then
    '(s', t) ← worker_exit s w; Some (Exited s' t)
  else Some (Returned s 0).

(** [sys_wqwait] up to the point where the thread sleeps, for the calling
    process [myproc]:
<<
    uwq_worker* w = myproc()->worker;
    if (w == nullptr) return -1;
    return w->wait();
>> *)
Definition sys_wqwait (s : kstate) (myproc : Z) : option wait_result :=
  po ← procs s !! myproc;
  if p_worker po =? 0 then Some (Returned s (-1))
  else wait_sleep s (p_worker po).

(** Several workers exit one after the other. *)
Fixpoint exit_all (s : kstate) (ws : list Z) : option (kstate * list event) :=
  match ws with
  | [] => Some (s, [])
  | w :: rest =>
      '(s1, t1) ← worker_exit s w;
      '(s2, t2) ← exit_all s1 rest;
      Some (s2, t1 ++ t2)
  end.

(** How often [gc_delayed(u)] occurs in a trace. *)
Definition gc_count (u : Z) (t : list event) : nat :=
  length (omap (fun ev => match ev with
                          | LGcDelayed v => if v =? u then Some v else None
                          | _ => None
                          end) t).

(** The occupied entries of a [worker_] array. *)
Definition occupied (wk : list Z) : list Z := filter (fun w => w ≠ 0) wk.

End UwqLife.

(** * Properties *)

(** ** The marked pointer *)

Section MarkptrFacts.
Import Word Atomic Markptr.

Lemma testbit_one i : 0 <= i → Z.testbit 1 i = (i =? 0).
Proof.
  intros Hi. change 1 with (2 ^ 0). rewrite Z.pow2_bits_eqb by lia.
  apply Z.eqb_sym.
Qed.

Lemma testbit_not1 i :
  0 <= i → Z.testbit not1 i = negb (i =? 0) && (i <? width).
Proof.
  intros Hi. unfold not1, wrap.
  rewrite Z.land_spec, Z.lnot_spec, testbit_one by lia.
  rewrite Z.testbit_ones by (unfold width; lia).
  replace (0 <=? i) with true by (symmetry; apply Z.leb_le; lia).
  reflexivity.
Qed.

Lemma testbit_word_high w i : is_word w → width <= i → Z.testbit w i = false.
Proof.
  intros [Hlo Hhi] Hi. destruct (Z.eq_dec w 0) as [->|Hne].
  - apply Z.bits_0.
  - apply Z.bits_above_log2; [lia|].
    apply Z.log2_lt_pow2; [lia|].
    eapply Z.lt_le_trans; [exact Hhi|].
    unfold modulus. apply Z.pow_le_mono_r; unfold width in *; lia.
Qed.

Lemma ptr_bit0 p : is_ptr p → Z.testbit p 0 = false.
Proof.
  intros [_ H]. apply (f_equal (fun z => Z.testbit z 0)) in H.
  rewrite Z.land_spec, testbit_one, Z.bits_0 in H by lia.
  simpl in H. rewrite andb_true_r in H. exact H.
Qed.

(** The bit-level proofs all go through [Z.bits_inj'] and a case
    distinction on the position. *)
Ltac bitwise i Hi :=
  apply Z.bits_inj'; intros i Hi;
  repeat first [ rewrite Z.land_spec | rewrite Z.lor_spec
               | rewrite testbit_not1 by lia | rewrite testbit_one by lia
               | rewrite Z.bits_0 ].

Lemma land1_bit0 w : Z.land w 1 = Z.b2z (Z.testbit w 0).
Proof.
  bitwise i Hi. destruct (Z.eqb_spec i 0) as [->|Hne].
  - rewrite andb_true_r. destruct (Z.testbit w 0); reflexivity.
  - rewrite andb_false_r. destruct (Z.testbit w 0); simpl.
    + rewrite testbit_one by lia. apply Z.eqb_neq in Hne. now rewrite Hne.
    + now rewrite Z.bits_0.
Qed.

Lemma mark_load_bit0 m : mark_load m = Z.testbit (_p m) 0.
Proof.
  unfold mark_load, to_bool. rewrite land1_bit0.
  destruct (Z.testbit (_p m) 0); reflexivity.
Qed.

(** A word is its pointer component together with its mark bit. *)
Lemma markptr_split w :
  is_word w → w = Z.lor (Z.land w not1) (Z.land w 1).
Proof.
  intros Hw. bitwise i Hi.
  destruct (Z.eqb_spec i 0) as [->|Hne]; cbn [negb andb orb].
  - now rewrite andb_false_r, andb_true_r.
  - rewrite andb_false_r, orb_false_r.
    destruct (Z.ltb_spec i width).
    + now rewrite andb_true_r.
    + rewrite andb_false_r. now apply testbit_word_high.
Qed.

(** Two words with the same pointer component and the same mark are the
    same word. *)
Lemma markptr_components_inj a b :
  is_word (_p a) → is_word (_p b) →
  ptr_load a = ptr_load b → mark_load a = mark_load b → a = b.
Proof.
  intros Ha Hb Hp Hm. destruct a as [x], b as [y]; simpl in *. f_equal.
  rewrite (markptr_split x Ha), (markptr_split y Hb).
  unfold ptr_load in Hp; simpl in Hp. rewrite Hp. f_equal.
  rewrite !mark_load_bit0 in Hm; cbn [_p] in Hm.
  now rewrite !land1_bit0, Hm.
Qed.

(** The word written by the pointer view: pointer [p], mark of [p0]. *)
Lemma ptr_word_ptr p0 p :
  is_ptr p → Z.land (Z.lor (Z.land p0 1) p) not1 = p.
Proof.
  intros Hp. pose proof (ptr_bit0 p Hp) as H0. destruct Hp as [Hw _].
  bitwise i Hi. destruct (Z.eqb_spec i 0) as [->|Hne]; cbn [negb andb orb].
  - now rewrite andb_false_r, H0.
  - rewrite andb_false_r. cbn [orb]. destruct (Z.ltb_spec i width).
    + now rewrite andb_true_r.
    + rewrite andb_false_r. symmetry. now apply testbit_word_high.
Qed.

Lemma ptr_word_mark p0 p :
  is_ptr p → Z.land (Z.lor (Z.land p0 1) p) 1 = Z.land p0 1.
Proof.
  intros Hp. pose proof (ptr_bit0 p Hp) as H0.
  bitwise i Hi. destruct (Z.eqb_spec i 0) as [->|Hne]; cbn [negb andb orb].
  - now rewrite !andb_true_r, H0, orb_false_r.
  - now rewrite !andb_false_r.
Qed.

Lemma testbit_of_bool m i : 0 <= i → Z.testbit (of_bool m) i = m && (i =? 0).
Proof.
  intros Hi. destruct m; cbn [of_bool andb].
  - now apply testbit_one.
  - apply Z.bits_0.
Qed.

(** The word written by the mark view: pointer of [p0], mark [m]. *)
Lemma mark_word_ptr p0 m :
  Z.land (Z.lor (Z.land p0 not1) (of_bool (negb (negb m)))) not1
  = Z.land p0 not1.
Proof.
  rewrite negb_involutive.
  bitwise i Hi. rewrite testbit_of_bool by lia.
  destruct (Z.eqb_spec i 0) as [->|Hne]; cbn [negb andb orb].
  - now rewrite !andb_false_r.
  - rewrite andb_false_r, orb_false_r.
    now rewrite <- andb_assoc, andb_diag.
Qed.

Lemma mark_word_mark p0 m :
  Z.land (Z.lor (Z.land p0 not1) (of_bool (negb (negb m)))) 1 = of_bool m.
Proof.
  rewrite negb_involutive.
  bitwise i Hi. rewrite !testbit_of_bool by lia.
  destruct (Z.eqb_spec i 0) as [->|Hne]; cbn [negb andb orb].
  - now rewrite andb_false_r, !andb_true_r.
  - now rewrite !andb_false_r.
Qed.

Lemma cas_quiet s cell desired :
  quiet s →
  compare_exchange_weak (spurious s) (env_write s cell) cell desired
  = (true, desired, cell).
Proof.
  intros [Hi Hs]. unfold env_write, compare_exchange_weak.
  now rewrite Hi, Hs, Z.eqb_refl.
Qed.

Lemma cas_cases spur cell expected desired :
  (compare_exchange_weak spur cell expected desired = (true, desired, expected)
   ∧ cell = expected ∧ spur = false)
  ∨ compare_exchange_weak spur cell expected desired = (false, cell, cell).
Proof.
  unfold compare_exchange_weak.
  destruct (Z.eqb_spec cell expected) as [->|Hne], spur; cbn; auto.
Qed.

(** Both assignment loops end at the first step whose compare-and-swap
    succeeds; the word they leave is computed from the word found. *)
Ltac cas_loop IH s this :=
  let H := fresh "H" in
  let Hc := fresh "Hc" in
  let Hq := fresh "Hq" in
  let Hu := fresh "Hu" in
  let Hu1 := fresh "Hu1" in
  let seen := fresh "seen" in
  let after := fresh "after" in
  let Hrun := fresh "Hrun" in
  let Hword := fresh "Hword" in
  let Hsame := fresh "Hsame" in
  intros this Hq; cbn [ptr_assign mark_assign];
  match goal with
  | |- context [compare_exchange_weak ?sp ?c ?e ?d] =>
      destruct (cas_cases sp c e d) as [(H & Hc & _)|H]; rewrite H
  end;
  [ eexists _, _; split; [reflexivity|]; split;
    [ cbn [_p]; now rewrite Hc
    | intros Hu; apply Forall_cons in Hu as [Hu _];
      unfold undisturbed, env_write in *; rewrite Hu; now destruct this ]
  | apply Exists_cons in Hq as [Hq|Hq];
    [ rewrite (cas_quiet s _ _ Hq) in H; discriminate H
    | match goal with
      | |- context [ptr_assign _ ?x _] =>
          destruct (IH x Hq) as (seen & after & Hrun & Hword & Hsame)
      | |- context [mark_assign _ ?x _] =>
          destruct (IH x Hq) as (seen & after & Hrun & Hword & Hsame)
      end;
      exists seen, after; split; [exact Hrun|]; split; [exact Hword|];
      intros Hu; apply Forall_cons in Hu as [Hu1 Hu];
      rewrite (Hsame Hu); unfold undisturbed, env_write in *; rewrite Hu1;
      now destruct this ] ].

Lemma ptr_assign_runs sched p : ∀ this,
  Exists quiet sched →
  ∃ seen after, ptr_assign sched this p = Some (seen, after)
    ∧ _p after = Z.lor (Z.land (_p seen) 1) p
    ∧ (Forall undisturbed sched → seen = this).
Proof.
  induction sched as [|s rest IH].
  - intros this H. now apply Exists_nil in H.
  - cas_loop IH s this.
Qed.

Lemma mark_assign_runs sched m : ∀ this,
  Exists quiet sched →
  ∃ seen after, mark_assign sched this m = Some (seen, after)
    ∧ _p after = Z.lor (Z.land (_p seen) not1) (of_bool (negb (negb m)))
    ∧ (Forall undisturbed sched → seen = this).
Proof.
  induction sched as [|s rest IH].
  - intros this H. now apply Exists_nil in H.
  - cas_loop IH s this.
Qed.

(** C3: [markptr::cmpxch(expected, desired)] is a compare-and-swap on the
    whole word.  When it succeeds, the stored word was [expected], so it
    agreed with [expected] in the pointer component and in the mark bit at
    once, and the stored word has become [desired] as a whole.  When it
    fails, the stored word is unchanged.  It fails whenever one of the two
    components differs, and without a spurious failure it succeeds when
    both agree. *)
Theorem cmpxch_whole_word spur this expected desired :
  is_word (_p this) → is_word (_p expected) →
  match cmpxch spur this expected desired with
  | (true, after) =>
      this = expected
      ∧ ptr_load this = ptr_load expected
      ∧ mark_load this = mark_load expected
      ∧ after = desired
  | (false, after) => after = this
  end
  ∧ (ptr_load this ≠ ptr_load expected ∨ mark_load this ≠ mark_load expected →
     (cmpxch spur this expected desired).1 = false)
  ∧ (ptr_load this = ptr_load expected → mark_load this = mark_load expected →
     cmpxch false this expected desired = (true, desired)).
Proof.
  intros Hw He. unfold cmpxch.
  repeat split.
  - destruct (cas_cases spur (_p this) (_p expected) (_p desired))
      as [(H & Hc & _)|H]; rewrite H.
    + assert (this = expected) as -> by (destruct this, expected; cbn in *; congruence).
      repeat split. now destruct desired.
    + now destruct this.
  - intros Hne.
    destruct (cas_cases spur (_p this) (_p expected) (_p desired))
      as [(H & Hc & _)|H]; rewrite H; [|reflexivity].
    assert (this = expected) as -> by (destruct this, expected; cbn in *; congruence).
    destruct Hne as [Hne|Hne]; now destruct Hne.
  - intros Hp Hm.
    rewrite (markptr_components_inj this expected Hw He Hp Hm).
    unfold compare_exchange_weak. rewrite Z.eqb_refl. cbn.
    now destruct desired.
Qed.

Lemma cmpxch_whole_word_witness :
  cmpxch false (MkMarkptr 9) (MkMarkptr 9) (MkMarkptr 16) = (true, MkMarkptr 16)
  ∧ (cmpxch false (MkMarkptr 9) (MkMarkptr 8) (MkMarkptr 16)).1 = false.
Proof.
  assert (H9 : is_word 9) by (unfold is_word, modulus, width; lia).
  assert (H8 : is_word 8) by (unfold is_word, modulus, width; lia).
  split.
  - apply (cmpxch_whole_word false (MkMarkptr 9) (MkMarkptr 9) (MkMarkptr 16) H9 H9);
      reflexivity.
  - apply (cmpxch_whole_word false (MkMarkptr 9) (MkMarkptr 8) (MkMarkptr 16) H9 H8).
    right. vm_compute. discriminate.
Defined.

(** C4: storing an aligned pointer [p] through the pointer view ends as
    soon as one iteration is left undisturbed; the word it leaves has
    pointer component [p] and the mark bit of the word it replaced, which
    is the word the store started from when no other thread wrote in
    between; [load_ptr] of the result is [p]. *)
Theorem ptr_assign_keeps_mark sched this p :
  is_ptr p → Exists quiet sched →
  ∃ seen after,
    ptr_assign sched this p = Some (seen, after)
    ∧ ptr_load after = p
    ∧ mark_load after = mark_load seen
    ∧ (Forall undisturbed sched → seen = this).
Proof.
  intros Hp Hq.
  destruct (ptr_assign_runs sched p this Hq) as (seen & after & Hrun & Hword & Hsame).
  exists seen, after. repeat split; [exact Hrun| | |exact Hsame].
  - unfold ptr_load. rewrite Hword. now apply ptr_word_ptr.
  - unfold mark_load. rewrite Hword. now rewrite ptr_word_mark.
Qed.

Lemma ptr_assign_keeps_mark_witness :
  ∃ seen after,
    ptr_assign [Step None true; Step None false] (MkMarkptr 9) 32
    = Some (seen, after)
    ∧ ptr_load after = 32
    ∧ mark_load after = mark_load seen
    ∧ (Forall undisturbed [Step None true; Step None false] → seen = MkMarkptr 9).
Proof.
  apply (ptr_assign_keeps_mark [Step None true; Step None false] (MkMarkptr 9) 32).
  - split; [unfold is_word, modulus, width; lia | reflexivity].
  - apply Exists_cons_tl, Exists_cons_hd. split; reflexivity.
Defined.

(** The pointer view relies on the alignment: an odd value would be
    stored as it is, setting the mark and losing its own low bit on the
    way back. *)
Example ptr_assign_unaligned :
  ptr_assign [Step None false] (MkMarkptr 8) 33
  = Some (MkMarkptr 8, MkMarkptr 33)
  ∧ mark_load (MkMarkptr 33) = true
  ∧ ptr_load (MkMarkptr 33) = 32.
Proof. repeat split. Qed.

(** C5: storing a boolean [m] through the mark view ends as soon as one
    iteration is left undisturbed; the word it leaves has mark bit [m]
    (the bit is 1 for [true], whatever non-zero value was converted to
    it) and the pointer component of the word it replaced, which is the
    word the store started from when no other thread wrote in between;
    [load_mark] of the result is [m]. *)
Theorem mark_assign_keeps_ptr sched this m :
  Exists quiet sched →
  ∃ seen after,
    mark_assign sched this m = Some (seen, after)
    ∧ mark_load after = m
    ∧ Z.land (_p after) 1 = (if m then 1 else 0)
    ∧ ptr_load after = ptr_load seen
    ∧ (Forall undisturbed sched → seen = this).
Proof.
  intros Hq.
  destruct (mark_assign_runs sched m this Hq) as (seen & after & Hrun & Hword & Hsame).
  exists seen, after. repeat split; [exact Hrun| | | |exact Hsame].
  - unfold mark_load. rewrite Hword, mark_word_mark. now destruct m.
  - rewrite Hword. apply mark_word_mark.
  - unfold ptr_load. rewrite Hword. apply mark_word_ptr.
Qed.

Lemma mark_assign_keeps_ptr_witness :
  ∃ seen after,
    mark_assign [Step (Some 40) false; Step None false] (MkMarkptr 32) (to_bool 7)
    = Some (seen, after)
    ∧ mark_load after = to_bool 7
    ∧ Z.land (_p after) 1 = (if to_bool 7 then 1 else 0)
    ∧ ptr_load after = ptr_load seen
    ∧ (Forall undisturbed [Step (Some 40) false; Step None false]
       → seen = MkMarkptr 32).
Proof.
  apply (mark_assign_keeps_ptr [Step (Some 40) false; Step None false]
           (MkMarkptr 32) (to_bool 7)).
  apply Exists_cons_tl, Exists_cons_hd. split; reflexivity.
Defined.

End MarkptrFacts.

(** ** The level-0 chain: iteration and the locked window *)

Section CrangeFacts.
Import Word Markptr Crange.
Implicit Types (h : heap) (l : list Z) (e succ stop : Z).

Lemma next0_release h e x : next0 (release h e) x = next0 h x.
Proof.
  unfold next0, release. destruct (decide (e = x)) as [->|Hne].
  - rewrite lookup_alter_eq. now destruct (h !! x).
  - now rewrite lookup_alter_ne.
Qed.

Lemma links_release h e x l : links (release h e) x l ↔ links h x l.
Proof.
  revert x. induction l as [|y l IH]; intros x; cbn; [tauto|].
  rewrite next0_release, IH. tauto.
Qed.

Lemma links_suffix h e l1 x l2 : links h e (l1 ++ x :: l2) → links h x l2.
Proof.
  revert e. induction l1 as [|y l1 IH]; intros e; cbn.
  - tauto.
  - intros [_ H]. exact (IH _ H).
Qed.

(** The pointers are a function of the heap: two walks from the same node
    agree as far as the shorter one goes. *)
Lemma links_prefix h e l1 : ∀ l2,
  links h e l1 → links h e l2 → (length l1 ≤ length l2)%nat →
  l1 `prefix_of` l2.
Proof.
  revert e. induction l1 as [|x l1 IH]; intros e l2 H1 H2 Hlen.
  - apply prefix_nil.
  - destruct l2 as [|y l2]; [cbn in Hlen; lia|].
    destruct H1 as [(m1 & Hm1 & <-) H1], H2 as [(m2 & Hm2 & <-) H2].
    assert (m1 = m2) as -> by congruence.
    apply prefix_cons, (IH _ _ H1 H2). cbn in Hlen. lia.
Qed.

(** A walk that ends at [stop] without passing it never visits a node
    twice. *)
Lemma links_NoDup h l : ∀ e stop,
  links h e (l ++ [stop]) → stop ∉ l → NoDup (e :: l).
Proof.
  induction l as [|a l IH]; intros e stop Hl Hstop.
  - apply NoDup_singleton.
  - apply NoDup_cons. split.
    + intros Hin. apply list_elem_of_split in Hin as (l1 & l2 & Heq).
      assert (Hfull : links h e ((l1 ++ [e]) ++ (l2 ++ [stop]))).
      { change (links h e ((a :: l) ++ [stop])) in Hl. rewrite Heq in Hl.
        now rewrite <- !app_assoc in *. }
      assert (Hshort : links h e (l2 ++ [stop])).
      { apply (links_suffix h e l1 e). now rewrite <- app_assoc in Hfull. }
      pose proof (links_prefix h e _ _ Hshort Hfull) as [k Hk].
      { rewrite !length_app. cbn. lia. }
      assert (Hlook : ((a :: l) ++ [stop]) !! length l2 = Some stop).
      { rewrite Heq. replace ((l1 ++ e :: l2) ++ [stop])
          with ((l1 ++ [e]) ++ l2 ++ [stop])
          by (rewrite <- !app_assoc; reflexivity).
        rewrite Hk, <- app_assoc. now apply list_lookup_middle. }
      rewrite lookup_app_l in Hlook.
      * apply Hstop. eapply list_elem_of_lookup_2, Hlook.
      * rewrite Heq, length_app. cbn. lia.
    + destruct Hl as [_ Hl]. apply (IH a stop Hl).
      intros Hin. apply Hstop. now right.
Qed.

(** *** Iteration *)

Lemma iterate_stop fuel h stop :
  iterate (S fuel) h (MkIter stop) (MkIter stop) = Some [].
Proof. cbn. unfold iter_neqb. cbn. now rewrite Z.eqb_refl. Qed.

Lemma iterate_links h l : ∀ x stop fuel,
  links h x (l ++ [stop]) → stop ∉ x :: l → (length l + 2 ≤ fuel)%nat →
  iterate fuel h (MkIter x) (MkIter stop) = Some (x :: l).
Proof.
  induction l as [|a l IH]; intros x stop fuel Hl Hstop Hfuel;
    (destruct fuel as [|fuel]; [cbn in Hfuel; lia|]);
    cbn [iterate]; unfold iter_neqb; cbn [_e];
    (destruct (Z.eqb_spec x stop) as [->|_];
       [exfalso; apply Hstop; left|]); cbn [negb];
    destruct Hl as [(m & Hm & Hx) Hl]; unfold incr; cbn [_e];
    rewrite Hm; cbn [mbind option_bind]; rewrite Hx.
  - destruct fuel as [|fuel]; [cbn in Hfuel; lia|].
    now rewrite iterate_stop.
  - rewrite (IH a stop fuel Hl).
    + reflexivity.
    + intros Hin. apply Hstop. now right.
    + cbn in Hfuel. lia.
Qed.

(** Walking from the successor of [e] up to [stop]. *)
Lemma iterate_from_successor h e l stop fuel :
  links h e (l ++ [stop]) → stop ∉ l → (length l + 1 ≤ fuel)%nat →
  ∃ m, next0 h e = Some m
       ∧ ptr_load m = hd stop l
       ∧ iterate fuel h (MkIter (ptr_load m)) (MkIter stop) = Some l.
Proof.
  intros Hl Hstop Hfuel. destruct l as [|a l].
  - destruct Hl as [(m & Hm & Hx) _]. exists m. repeat split; [done..|].
    rewrite Hx. destruct fuel; [cbn in Hfuel; lia|]. apply iterate_stop.
  - destruct Hl as [(m & Hm & Hx) Hl]. exists m. repeat split; [done..|].
    rewrite Hx. apply iterate_links; [done..|cbn in Hfuel; lia].
Qed.

(** *** The destructor of the locked window *)

Lemma releases_release_trace ns : releases (release_trace ns) = ns.
Proof.
  unfold releases, release_trace.
  induction ns as [|n ns IH]; cbn; [done|]. now f_equal.
Qed.

Lemma foldl_release_lookup ns : ∀ h x,
  foldl release h ns !! x
  = if decide (x ∈ ns) then unlock <$> h !! x else h !! x.
Proof.
  induction ns as [|n ns IH]; intros h x; cbn [foldl].
  - case_decide as Hin; [|done]. now apply elem_of_nil in Hin.
  - rewrite IH. unfold release at 1 2.
    destruct (decide (n = x)) as [->|Hne].
    + rewrite lookup_alter_eq.
      rewrite (decide_True (P := x ∈ x :: ns)) by now left.
      case_decide; [|done]. now destruct (h !! x).
    + rewrite lookup_alter_ne by done.
      case_decide as Hin.
      * rewrite decide_True; [done|now right].
      * rewrite decide_False; [done|].
        intros Hin'. apply elem_of_cons in Hin' as [->|]; done.
Qed.

Lemma next0_foldl_release ns : ∀ h x, next0 (foldl release h ns) x = next0 h x.
Proof.
  induction ns as [|n ns IH]; intros h x; cbn [foldl]; [done|].
  now rewrite IH, next0_release.
Qed.

Lemma links_defined h l : ∀ e stop n,
  links h e (l ++ [stop]) → n ∈ e :: l → is_Some (h !! n).
Proof.
  induction l as [|a l IH]; intros e stop n [(m & Hm & _) Hl] Hin.
  - apply list_elem_of_singleton in Hin as ->.
    unfold next0 in Hm. destruct (h !! e); [eauto|discriminate].
  - apply elem_of_cons in Hin as [->|Hin].
    + unfold next0 in Hm. destruct (h !! e); [eauto|discriminate].
    + eapply IH; eauto.
Qed.

Lemma release_loop_stop fuel h succ stop :
  stop = 0 ∨ stop = succ →
  release_loop (S fuel) h succ stop = Some (h, []).
Proof.
  intros Hstop. cbn [release_loop].
  destruct Hstop as [->| ->]; [done|].
  now rewrite Z.eqb_refl, andb_false_r.
Qed.

Lemma release_loop_links succ l : ∀ e stop h fuel,
  links h e (l ++ [stop]) → stop = 0 ∨ stop = succ →
  Forall (fun n => n ≠ 0 ∧ n ≠ succ) (e :: l) →
  (length l + 2 ≤ fuel)%nat →
  release_loop fuel h succ e
  = Some (foldl release h (e :: l), release_trace (e :: l)).
Proof.
  induction l as [|a l IH]; intros e stop h fuel Hl Hstop Hall Hfuel;
    (destruct fuel as [|fuel]; [cbn in Hfuel; lia|]);
    cbn [release_loop];
    pose proof (Forall_inv Hall) as [He0 Hes];
    apply Z.eqb_neq in He0, Hes; rewrite He0, Hes; cbn [negb andb];
    destruct Hl as [(m & Hm & Hx) Hl];
    rewrite Hm; cbn [mbind option_bind]; rewrite Hx.
  - destruct fuel as [|fuel]; [cbn in Hfuel; lia|].
    now rewrite release_loop_stop.
  - rewrite (IH a stop (release h e) fuel).
    + reflexivity.
    + now apply links_release.
    + exact Hstop.
    + now apply Forall_inv_tail in Hall.
    + cbn in Hfuel. lia.
Qed.

(** The destructor of a handle that owns its window walks the chain. *)
Lemma locked_dtor_walk h x l stop fuel :
  moved_ x = false →
  prev_ x ≠ 0 → prev_ x ≠ succ_ x →
  links h (prev_ x) (l ++ [stop]) →
  stop = 0 ∨ stop = succ_ x →
  Forall (fun n => n ≠ 0 ∧ n ≠ succ_ x) l →
  (length l + 2 ≤ fuel)%nat →
  locked_dtor fuel h x
  = Some (foldl release h (prev_ x :: l), release_trace (prev_ x :: l)).
Proof.
  intros Hmoved Hp0 Hps Hl Hstop Hall Hfuel.
  unfold locked_dtor. rewrite Hmoved. cbn [negb].
  apply (release_loop_links _ l _ stop); auto.
Qed.

(** C2: destroying a handle that was not moved from walks the level-0
    chain from [prev]: with [l] the nodes between [prev] and the end of
    the walk ([succ] or null), the destructor reads [next[0]] of a node
    and then gives up that node's lock, for [prev] first and then for
    each node of [l] in chain order, and stops there.  Afterwards the
    locks of exactly these nodes are free, every other object is as it
    was, and no pointer has changed. *)
Theorem locked_dtor_releases_chain h x l stop fuel :
  moved_ x = false →
  prev_ x ≠ 0 → prev_ x ≠ succ_ x →
  links h (prev_ x) (l ++ [stop]) →
  stop = 0 ∨ stop = succ_ x →
  Forall (fun n => n ≠ 0 ∧ n ≠ succ_ x) l →
  (length l + 2 ≤ fuel)%nat →
  ∃ h',
    locked_dtor fuel h x = Some (h', release_trace (prev_ x :: l))
    ∧ releases (release_trace (prev_ x :: l)) = prev_ x :: l
    ∧ (∀ n, n ∈ prev_ x :: l → lock <$> h' !! n = Some false)
    ∧ (∀ n, n ∉ prev_ x :: l → h' !! n = h !! n)
    ∧ (∀ n, next0 h' n = next0 h n).
Proof.
  intros Hmoved Hp0 Hps Hl Hstop Hall Hfuel.
  exists (foldl release h (prev_ x :: l)). repeat split.
  - now apply (locked_dtor_walk h x l stop).
  - apply releases_release_trace.
  - intros n Hin. rewrite foldl_release_lookup, decide_True by done.
    destruct (links_defined h l _ _ n Hl Hin) as [r ->]. reflexivity.
  - intros n Hin. now rewrite foldl_release_lookup, decide_False.
  - intros n. apply next0_foldl_release.
Qed.

Lemma locked_dtor_releases_chain_witness :
  ∃ h',
    locked_dtor 3 ex_heap ex_locked = Some (h', release_trace [32; 48])
    ∧ releases (release_trace [32; 48]) = [32; 48]
    ∧ (∀ n, n ∈ [32; 48] → lock <$> h' !! n = Some false)
    ∧ (∀ n, n ∉ [32; 48] → h' !! n = ex_heap !! n)
    ∧ (∀ n, next0 h' n = next0 ex_heap n).
Proof.
  apply (locked_dtor_releases_chain ex_heap ex_locked [48] 64 3).
  - reflexivity.
  - discriminate.
  - discriminate.
  - cbn. split; [exists (MkMarkptr 48)|split; [exists (MkMarkptr 65)|exact I]];
      split; reflexivity.
  - right. reflexivity.
  - apply Forall_cons. split; [split; discriminate|apply Forall_nil_2].
  - cbn. lia.
Defined.

(** C6: incrementing an iterator replaces the current node by that
    node's [next[0].ptr()]; [begin] is the level-0 successor of the head
    sentinel and [end] is null.  When the level-0 pointers, marks
    stripped, lead from the head through the nodes [l] to null, the
    traversal from [begin] to [end] visits exactly [l], in order; nodes
    whose level-0 mark is set are visited like the others. *)
Theorem crange_iteration_visits_all h cr l fuel :
  links h (crange_head cr) (l ++ [0]) → 0 ∉ l → (length l + 1 ≤ fuel)%nat →
  (∀ e, incr h (MkIter e) = (fun m => MkIter (ptr_load m)) <$> next0 h e)
  ∧ crange_end cr = MkIter 0
  ∧ ∃ first visited,
      crange_begin h cr = Some first
      ∧ deref first = hd 0 l
      ∧ iterate fuel h first (crange_end cr) = Some visited
      ∧ visited = l
      ∧ (∀ n, n ∈ l → deleted h n = Some true → n ∈ visited).
Proof.
  intros Hl H0 Hfuel. split; [|split; [reflexivity|]].
  - intros e. unfold incr. cbn [_e]. now destruct (next0 h e).
  - destruct (iterate_from_successor h _ l 0 fuel Hl H0 Hfuel)
      as (m & Hm & Hhd & Hit).
    exists (MkIter (ptr_load m)), l. unfold crange_begin, crange_end.
    rewrite Hm. repeat split; auto.
Qed.

Lemma crange_iteration_visits_all_witness :
  iterate 4 ex_heap (MkIter 32) (crange_end ex_crange) = Some [32; 48; 64]
  ∧ deleted ex_heap 48 = Some true.
Proof.
  split; [|reflexivity].
  destruct (crange_iteration_visits_all ex_heap ex_crange [32; 48; 64] 4)
    as (_ & _ & first & visited & Hb & _ & Hit & Hv & _).
  - cbn. repeat split;
      [exists (MkMarkptr 32)|exists (MkMarkptr 48)
      |exists (MkMarkptr 65)|exists (MkMarkptr 0)]; split; reflexivity.
  - intros Hin. repeat (apply elem_of_cons in Hin as [Hin|Hin]; [discriminate|]).
    now apply elem_of_nil in Hin.
  - cbn. lia.
  - injection Hb as <-. rewrite <- Hv. exact Hit.
Defined.

(** C7: for a locked window whose level-0 pointers lead from [prev]
    through the window nodes [win] to [succ] ([prev]'s successor is the
    first window node, or [succ] when the window is empty; the last
    window node's successor is [succ]), [begin] is [prev]'s successor,
    [end] is [succ], and the traversal from [begin] to [end] visits
    exactly the nodes of [win], in order. *)
Theorem locked_iteration_visits_window h x win fuel :
  links h (prev_ x) (win ++ [succ_ x]) → succ_ x ∉ win →
  (length win + 1 ≤ fuel)%nat →
  locked_end x = MkIter (succ_ x)
  ∧ ∃ first,
      locked_begin h x = Some first
      ∧ Some first = (fun m => MkIter (ptr_load m)) <$> next0 h (prev_ x)
      ∧ deref first = hd (succ_ x) win
      ∧ iterate fuel h first (locked_end x) = Some win.
Proof.
  intros Hl Hs Hfuel. split; [reflexivity|].
  destruct (iterate_from_successor h _ win (succ_ x) fuel Hl Hs Hfuel)
    as (m & Hm & Hhd & Hit).
  exists (MkIter (ptr_load m)). unfold locked_begin, locked_end.
  rewrite Hm. repeat split; auto.
Qed.

Lemma locked_iteration_visits_window_witness :
  locked_end ex_locked = MkIter 64
  ∧ ∃ first,
      locked_begin ex_heap ex_locked = Some first
      ∧ Some first = (fun m => MkIter (ptr_load m)) <$> next0 ex_heap 32
      ∧ deref first = 48
      ∧ iterate 2 ex_heap first (locked_end ex_locked) = Some [48].
Proof.
  apply (locked_iteration_visits_window ex_heap ex_locked [48] 2).
  - cbn. repeat split; [exists (MkMarkptr 48)|exists (MkMarkptr 65)];
      split; reflexivity.
  - intros Hin. apply elem_of_cons in Hin as [Hin|Hin]; [discriminate|].
    now apply elem_of_nil in Hin.
  - cbn. lia.
Defined.

(** *** Moving the handle *)

Lemma locked_move_spec x :
  moved_ (locked_move x).1 = false
  ∧ moved_ (locked_move x).2 = true
  ∧ prev_ (locked_move x).1 = prev_ x
  ∧ succ_ (locked_move x).1 = succ_ x.
Proof. unfold locked_move. cbn. auto. Qed.

Lemma locked_dtor_moved fuel h x :
  moved_ x = true → locked_dtor fuel h x = Some (h, []).
Proof. intros H. unfold locked_dtor. now rewrite H. Qed.

Lemma move_chain_spec k : ∀ x,
  moved_ x = false →
  moved_ (move_chain k x).1 = false
  ∧ prev_ (move_chain k x).1 = prev_ x
  ∧ succ_ (move_chain k x).1 = succ_ x
  ∧ Forall (fun y => moved_ y = true) (move_chain k x).2
  ∧ length (move_chain k x).2 = k.
Proof.
  induction k as [|k IH]; intros x Hx; cbn [move_chain].
  - cbn. auto using Forall_nil_2.
  - destruct (locked_move_spec x) as (Hnew & Hold & Hp & Hs).
    destruct (locked_move x) as [y x'] eqn:Hmv. cbn [fst snd] in *.
    destruct (IH y Hnew) as (H1 & H2 & H3 & H4 & H5).
    destruct (move_chain k y) as [z olds]. cbn [fst snd] in *.
    repeat split; try congruence.
    + apply Forall_cons. auto.
    + cbn. now f_equal.
Qed.

Lemma destroy_all_moved fuel h xs :
  Forall (fun y => moved_ y = true) xs → destroy_all fuel h xs = Some (h, []).
Proof.
  induction 1 as [|x xs Hx _ IH]; cbn [destroy_all]; [done|].
  rewrite (locked_dtor_moved _ _ _ Hx). cbn. now rewrite IH.
Qed.

(** Destroying moved-from handles before and after the owner adds
    nothing to what the owner's destructor does. *)
Lemma destroy_all_owner fuel h pre owner post r :
  Forall (fun y => moved_ y = true) (pre ++ post) →
  locked_dtor fuel h owner = Some r →
  destroy_all fuel h (pre ++ owner :: post) = Some r.
Proof.
  intros Hall Hown. apply Forall_app in Hall as [Hpre Hpost].
  induction Hpre as [|x pre Hx _ IH]; cbn [destroy_all app].
  - rewrite Hown. destruct r as [h' t]. cbn.
    rewrite (destroy_all_moved _ _ _ Hpost). cbn. now rewrite app_nil_r.
  - rewrite (locked_dtor_moved _ _ _ Hx). cbn. rewrite IH.
    now destruct r.
Qed.

Lemma count_occ_NoDup (ns : list Z) n :
  NoDup ns →
  count_occ Z.eq_dec ns n = if decide (n ∈ ns) then 1%nat else 0%nat.
Proof.
  intros Hnd. case_decide as Hin.
  - apply NoDup_ListNoDup in Hnd. apply list_elem_of_In in Hin.
    now apply NoDup_count_occ'.
  - apply count_occ_not_In. now rewrite <- list_elem_of_In.
Qed.

(** C9, as the code has it: a handle made by the constructor owns its
    window.  The move constructor sets the [moved_] flag of its source
    and clears that of the new handle, whatever the flag of the source
    was.  When every move is made from the current owner, that is from a
    handle that has not been moved from before, every moved-from handle
    has its flag set and its destructor releases nothing, whereas the
    last handle is not moved from and its destructor runs the release
    loop.  Then, whatever the order in which the handles are destroyed,
    the lock of [prev] and of every node after it up to, but not
    including, [succ] is released exactly once, and no other lock is
    released: the loop stops in front of [succ], whose lock no destructor
    gives up. *)
Theorem locked_lock_released_once h cr base sz p s d k l stop fuel :
  p ≠ 0 → p ≠ s →
  links h p (l ++ [stop]) → stop = 0 ∨ stop = s →
  Forall (fun n => n ≠ 0 ∧ n ≠ s) l →
  (length l + 2 ≤ fuel)%nat →
  let x0 := (locked_ctor cr base sz p s d).1 in
  let owner := (move_chain k x0).1 in
  let olds := (move_chain k x0).2 in
  length olds = k
  ∧ Forall (fun y => moved_ y = true
                     ∧ ∀ f h0, locked_dtor f h0 y = Some (h0, [])) olds
  ∧ moved_ owner = false
  ∧ ∃ h' t,
      locked_dtor fuel h owner = Some (h', t)
      ∧ (∀ pre post, pre ++ post ≡ₚ olds →
           destroy_all fuel h (pre ++ owner :: post) = Some (h', t))
      ∧ releases t = p :: l
      ∧ (∀ n, count_occ Z.eq_dec (releases t) n
              = if decide (n ∈ p :: l) then 1%nat else 0%nat)
      ∧ count_occ Z.eq_dec (releases t) s = 0%nat
      ∧ h' !! s = h !! s.
Proof.
  intros Hp0 Hps Hl Hstop Hall Hfuel x0 owner olds.
  assert (Hx0 : moved_ x0 = false ∧ prev_ x0 = p ∧ succ_ x0 = s)
    by (unfold x0, locked_ctor; cbn; auto).
  destruct Hx0 as (Hm0 & Hp & Hs).
  destruct (move_chain_spec k x0 Hm0) as (Hown & Hprev & Hsucc & Holds & Hlen).
  fold owner in Hown, Hprev, Hsucc. fold olds in Holds, Hlen.
  rewrite Hp in Hprev. rewrite Hs in Hsucc.
  split; [exact Hlen|]. split; [|split; [exact Hown|]].
  - eapply Forall_impl; [exact Holds|]. intros y Hy. split; [exact Hy|].
    intros f h0. now apply locked_dtor_moved.
  - assert (Hrun : locked_dtor fuel h owner
                   = Some (foldl release h (p :: l), release_trace (p :: l))).
    { rewrite <- Hprev. apply (locked_dtor_walk h owner l stop);
        try rewrite Hprev; try rewrite Hsucc; auto. }
    assert (Hnd : NoDup (p :: l)).
    { destruct Hstop as [->| ->].
      - apply (links_NoDup h l p 0 Hl). intros Hin.
        rewrite Forall_forall in Hall. destruct (Hall 0 Hin) as [H _].
        now apply H.
      - apply (links_NoDup h l p s Hl). intros Hin.
        rewrite Forall_forall in Hall. destruct (Hall s Hin) as [_ H].
        now apply H. }
    assert (Hsout : s ∉ p :: l).
    { intros Hin. apply elem_of_cons in Hin as [Heq|Hin]; [now apply Hps|].
      rewrite Forall_forall in Hall. destruct (Hall s Hin) as [_ H].
      now apply H. }
    exists (foldl release h (p :: l)), (release_trace (p :: l)).
    split; [exact Hrun|]. split; [|split; [|split; [|split]]].
    + intros pre post Hperm. apply destroy_all_owner; [|exact Hrun].
      now rewrite Hperm.
    + apply releases_release_trace.
    + intros n. rewrite releases_release_trace. now apply count_occ_NoDup.
    + rewrite releases_release_trace, (count_occ_NoDup _ _ Hnd).
      now rewrite decide_False.
    + now rewrite foldl_release_lookup, decide_False.
Qed.

Lemma locked_lock_released_once_witness :
  let owner := (move_chain 2 ex_locked).1 in
  let olds := (move_chain 2 ex_locked).2 in
  length olds = 2%nat
  ∧ Forall (fun y => moved_ y = true
                     ∧ ∀ f h0, locked_dtor f h0 y = Some (h0, [])) olds
  ∧ moved_ owner = false
  ∧ ∃ h' t,
      locked_dtor 3 ex_heap owner = Some (h', t)
      ∧ (∀ pre post, pre ++ post ≡ₚ olds →
           destroy_all 3 ex_heap (pre ++ owner :: post) = Some (h', t))
      ∧ releases t = [32; 48]
      ∧ (∀ n, count_occ Z.eq_dec (releases t) n
              = if decide (n ∈ [32; 48]) then 1%nat else 0%nat)
      ∧ count_occ Z.eq_dec (releases t) 64 = 0%nat
      ∧ h' !! 64 = ex_heap !! 64.
Proof.
  apply (locked_lock_released_once ex_heap ex_crange 14 1 32 64 0%nat 2 [48] 64 3).
  - discriminate.
  - discriminate.
  - cbn. repeat split; [exists (MkMarkptr 48)|exists (MkMarkptr 65)];
      split; reflexivity.
  - right. reflexivity.
  - apply Forall_cons. split; [split; discriminate|apply Forall_nil_2].
  - cbn. lia.
Defined.

(** C9 as it is worded does not hold of every use of the move
    constructor.  On the small list, with the handle [x] for the window
    between the nodes 32 and 64:
<<
    crange_locked y(std::move(x));
    crange_locked z(std::move(x));
>>
    The second move finds [x.moved_] set and still gives [z] a clear
    flag, so [y] and [z] both count as owners.  At the end of the scope
    [z], [y] and [x] are destroyed in this order: the release loop runs
    twice and the locks of the nodes 32 and 48 are released twice each,
    not once.  And with a single owner already, the lock of [succ], the
    node 64, which is held like the others, is released by no
    destructor: it is still held after the handle is gone. *)
Lemma locked_lock_released_twice :
  let x := ex_locked in
  let y := (locked_move x).1 in
  let x1 := (locked_move x).2 in
  let z := (locked_move x1).1 in
  let x2 := (locked_move x1).2 in
  (moved_ x1 = true ∧ moved_ x2 = true ∧ moved_ y = false ∧ moved_ z = false)
  ∧ (releases ∘ snd <$> destroy_all 3 ex_heap [z; y; x2]
     = Some [32; 48; 32; 48]
     ∧ count_occ Z.eq_dec [32; 48; 32; 48] 32 = 2%nat
     ∧ count_occ Z.eq_dec [32; 48; 32; 48] 48 = 2%nat
     ∧ count_occ Z.eq_dec [32; 48; 32; 48] 32 ≠ 1%nat)
  ∧ (lock <$> ex_heap !! 64 = Some true
     ∧ releases ∘ snd <$> locked_dtor 3 ex_heap x = Some [32; 48]
     ∧ count_occ Z.eq_dec [32; 48] 64 = 0%nat
     ∧ (fun r => lock <$> r.1 !! 64) <$> locked_dtor 3 ex_heap x
       = Some (Some true)).
Proof.
  cbv zeta. split; [|split].
  - repeat split; reflexivity.
  - repeat split; try reflexivity. discriminate.
  - repeat split; reflexivity.
Qed.

End CrangeFacts.

(** ** The work queue *)

Section UwqFacts.
Import Word Uwq.

Lemma started_false t : Forall quiet_event t → started t = false.
Proof.
  unfold started. induction 1 as [|ev t Hev _ IH]; [done|].
  cbn. rewrite IH. now destruct ev.
Qed.

Lemma started_app t1 t2 : started (t1 ++ t2) = started t1 || started t2.
Proof. apply existsb_app. Qed.

Lemma internal_projections t :
  Forall internal t → probed t = [] ∧ calls t = [] ∧ guards_seen t = [].
Proof.
  induction 1 as [|ev t Hev _ (IH1 & IH2 & IH3)]; [done|].
  unfold probed, calls, guards_seen in *.
  destruct ev; cbn in *; try done.
Qed.

Lemma allocworker_spec P e s u p s1 t1 :
  allocworker P e s u = Some (p, s1, t1) →
  Forall quiet_event t1 ∧ Forall internal t1
  ∧ runq s1 = runq s ∧ workers s1 = workers s ∧ cpus s1 = cpus s
  ∧ (∀ uq, uwqs s !! u = Some uq →
       ∃ uq1, uwqs s1 !! u = Some uq1 ∧ worker_ uq1 = worker_ uq)
  ∧ (p ≠ 0 → is_Some (procs s1 !! p)).
Proof.
  unfold allocworker. intros H.
  destruct (uwqs s !! u) as [uq|] eqn:Hu; [|discriminate]. cbn in H.
  destruct (uentry_ uq =? 0).
  { injection H as <- <- <-. repeat split; auto; eauto.
    - intros uq0 [= <-]. eauto.
    - intros Hne. now destruct Hne. }
  destruct (proc_alloc e) as [p0 fresh].
  destruct (p0 =? 0).
  { injection H as <- <- <-. repeat split; auto; eauto.
    - intros uq0 [= <-]. eauto.
    - intros Hne. now destruct Hne. }
  destruct (vmnode_alloc e =? 0).
  { injection H as <- <- <-. repeat split; auto.
    - repeat constructor.
    - repeat constructor.
    - intros uq0 [= <-]. cbn. eauto.
    - intros Hne. now destruct Hne. }
  destruct (vmap_insert e <? 0).
  { injection H as <- <- <-. repeat split; auto.
    - repeat constructor.
    - repeat constructor.
    - intros uq0 [= <-]. cbn. eauto.
    - intros Hne. now destruct Hne. }
  injection H as <- <- <-. repeat split; auto.
  - repeat constructor.
  - repeat constructor.
  - intros uq0 [= <-]. cbn. rewrite lookup_insert_eq. eauto.
  - intros _. cbn. rewrite lookup_insert_eq. eauto.
Qed.

Lemma worker_scan_woke e s wk idx : ∀ slot s' t,
  worker_scan e s wk idx slot = Some (ScanWoke s' t) →
  ∃ w wo, w ∈ wk ∧ w ≠ 0
    ∧ workers s !! w = Some wo ∧ running_ wo = false
    ∧ workers s' !! w = Some (set_running true wo)
    ∧ t = [EvWakeup w].
Proof.
  induction idx as [|i idx IH]; intros slot s' t H; cbn in H; [discriminate|].
  destruct (wk !! i) as [w|] eqn:Hw; [|discriminate]. cbn in H.
  destruct (Z.eqb_spec w 0) as [->|Hne]; [eauto|].
  destruct (workers s !! w) as [wo|] eqn:Hwo; [|discriminate]. cbn in H.
  destruct (running_ wo) eqn:Hrun; [eauto|].
  destruct (procs s !! proc_ wo) as [po|]; [|discriminate]. cbn in H.
  injection H as <- <-. exists w, wo. repeat split; auto.
  - eapply list_elem_of_lookup_2, Hw.
  - cbn. now rewrite lookup_insert_eq.
Qed.

(** The slot that the scan ends with is an empty entry of the array. *)
Lemma worker_scan_slot e s wk idx : ∀ slot slot',
  worker_scan e s wk idx slot = Some (ScanDone slot') →
  slot = -1 ∨ wk !! Z.to_nat slot = Some 0 →
  slot' = -1 ∨ wk !! Z.to_nat slot' = Some 0.
Proof.
  induction idx as [|i idx IH]; intros slot slot' H Hslot; cbn in H.
  - now injection H as <-.
  - destruct (wk !! i) as [w|] eqn:Hw; [|discriminate]. cbn in H.
    destruct (Z.eqb_spec w 0) as [->|Hne].
    + apply (IH _ _ H). destruct (Z.eqb_spec slot (-1)) as [->|Hs].
      * right. now rewrite Nat2Z.id.
      * destruct Hslot; [contradiction|auto].
    + destruct (workers s !! w) as [wo|]; [|discriminate]. cbn in H.
      destruct (running_ wo); [eauto|].
      destruct (procs s !! proc_ wo); discriminate.
Qed.

Lemma last_started t ev :
  last t = Some ev → quiet_event ev ∨ started t = true.
Proof.
  intros Hlast. destruct (last_Some t ev) as [[t0 ->] _]; [done|].
  rewrite started_app. destruct ev; cbn; auto using orb_true_r.
Qed.

Lemma outcome_started s s' u t :
  woke s s' u t ∨ enqueued s s' u t → started t = true.
Proof.
  intros [(uq & w & wo & _ & _ & _ & _ & _ & _ & ->)
         |(uq & uq' & p & w & slot & _ & _ & _ & _ & _ & _ & _ & _ & Hlast)].
  - reflexivity.
  - now destruct (last_started _ _ Hlast).
Qed.

(** The paths through [uwq::tryworker]. *)
Lemma tryworker_ret_cases P e s u r s' t :
  tryworker_ret P e s u = Some (r, s', t) →
  (r = RetTrue ∧ (woke s s' u t ∨ enqueued s s' u t))
  ∨ (r = RetFalse ∧ s' = s ∧ t = []
     ∧ u_valid <$> uwqs s !! u = Some false)
  ∨ (r = RetNullptr ∧ started t = false
     ∧ runq s' = runq s ∧ workers s' = workers s).
Proof.
  unfold tryworker_ret. intros H.
  destruct (uwqs s !! u) as [uq|] eqn:Hu; [|discriminate]. cbn in H.
  destruct (u_valid uq) eqn:Hvalid; cbn in H.
  2:{ injection H as <- <- <-. right. left. cbn. now rewrite Hvalid. }
  destruct (worker_scan e s (worker_ uq) (seq 0 (NWORKERS P)) (-1))
    as [[s0 t0|slot]|] eqn:Hscan; [| |discriminate]; cbn in H.
  { injection H as <- <- <-. left. split; [done|]. left.
    destruct (worker_scan_woke _ _ _ _ _ _ _ Hscan)
      as (w & wo & Hin & Hw0 & Hwo & Hrun & Hwo' & ->).
    exists uq, w, wo. auto 10. }
  destruct (Z.eqb_spec slot (-1)) as [->|Hslot]; cbn in H.
  { injection H as <- <- <-. right. right. auto. }
  destruct (allocworker P e s u) as [[[p s1] t1]|] eqn:Halloc; [|discriminate].
  cbn in H.
  destruct (allocworker_spec _ _ _ _ _ _ _ Halloc)
    as (Hquiet & _ & Hrunq & Hworkers & _ & Huq1 & Hproc).
  destruct (Z.eqb_spec p 0) as [->|Hp]; cbn in H.
  { injection H as <- <- <-. right. right.
    repeat split; auto using started_false. }
  destruct (Z.eqb_spec (worker_alloc e) 0) as [_|Hw]; [discriminate|].
  destruct (Huq1 uq Hu) as (uq1 & Huq1' & Hwk). rewrite Huq1' in H.
  destruct (Hproc Hp) as [po Hpo]. rewrite Hpo in H. cbn in H.
  injection H as <- <- <-. left. split; [done|]. right.
  pose proof (worker_scan_slot _ _ _ _ _ _ Hscan (or_introl eq_refl))
    as [Hs|Hs]; [contradiction|].
  eexists uq, _, p, (worker_alloc e), (Z.to_nat slot).
  repeat split.
  - exact Hu.
  - cbn. apply lookup_insert_eq.
  - exact Hs.
  - cbn. rewrite Hwk. apply list_lookup_insert_eq.
    eapply lookup_lt_Some, Hs.
  - exact Hw.
  - cbn. apply lookup_insert_eq.
  - cbn. now rewrite lookup_insert_eq.
  - cbn. now rewrite Hrunq.
  - apply last_snoc.
Qed.

(** C8: [uwq::tryworker] returns [true] exactly when it has woken an
    existing idle worker or has allocated and enqueued a new one; on
    every other path its result is [false].  The [return nullptr] on the
    last path converts to [false], and on that path no worker has been
    woken or enqueued. *)
Theorem tryworker_boolean P e s u r s' t :
  tryworker_ret P e s u = Some (r, s', t) →
  tryworker P e s u = Some (bool_of_ret r, s', t)
  ∧ (bool_of_ret r = true ↔ woke s s' u t ∨ enqueued s s' u t)
  ∧ (bool_of_ret r = true ↔ started t = true)
  ∧ (r = RetNullptr →
     bool_of_ret r = false ∧ started t = false
     ∧ runq s' = runq s ∧ workers s' = workers s).
Proof.
  intros H. split; [unfold tryworker; now rewrite H|].
  destruct (tryworker_ret_cases _ _ _ _ _ _ _ H)
    as [(-> & Hout)|[(-> & -> & -> & _)|(-> & Hst & Hq & Hw)]].
  - pose proof (outcome_started _ _ _ _ Hout). repeat split; auto; discriminate.
  - repeat split; try discriminate.
    intros Hout. now apply outcome_started in Hout.
  - repeat split; auto; try discriminate; try congruence.
    intros Hout. apply outcome_started in Hout. congruence.
Qed.

Lemma tryworker_boolean_witness :
  tryworker ex_params ex_env_nomem ex_state_running 300
  = Some (false, ex_state_running, [])
  ∧ tryworker_ret ex_params ex_env_nomem ex_state_running 300
    = Some (RetNullptr, ex_state_running, []).
Proof.
  split; [|reflexivity].
  apply (tryworker_boolean ex_params ex_env_nomem ex_state_running 300
           RetNullptr ex_state_running []).
  reflexivity.
Defined.

(** The three outcomes on the small machine: a wake-up, an allocation,
    and the failure path. *)
Example tryworker_wakes :
  ∃ s', tryworker_ret ex_params ex_env ex_state 300
        = Some (RetTrue, s', [EvWakeup 400])
        ∧ workers s' !! 400 = Some (MkWorker 300 500 true)
        ∧ p_cpuid <$> procs s' !! 500 = Some 0.
Proof. eexists. repeat split. Qed.

Example tryworker_allocates :
  ∃ s', tryworker_ret ex_params ex_env ex_state_running 300
        = Some (RetTrue, s',
                [EvIncref 700; EvIncref 800; EvVmapInsert 900 1048576;
                 EvAddrun 600])
        ∧ runq s' = [600]
        ∧ worker_ <$> uwqs s' !! 300 = Some [400; 1000]
        ∧ workers s' !! 1000 = Some (MkWorker 300 600 true).
Proof. eexists. repeat split. Qed.

(** *** [uwq_trywork] *)

Lemma tryworker_internal P e s u b s' t :
  tryworker P e s u = Some (b, s', t) → Forall internal t.
Proof.
  unfold tryworker, tryworker_ret. intros H.
  destruct (uwqs s !! u) as [uq|] eqn:Hu; [|discriminate]. cbn in H.
  destruct (u_valid uq); cbn in H; [|injection H as <- <- <-; constructor].
  destruct (worker_scan e s (worker_ uq) (seq 0 (NWORKERS P)) (-1))
    as [[s0 t0|slot]|] eqn:Hscan; [| |discriminate]; cbn in H.
  { injection H as <- <- <-.
    destruct (worker_scan_woke _ _ _ _ _ _ _ Hscan)
      as (w & wo & _ & _ & _ & _ & _ & ->).
    repeat constructor. }
  destruct (slot =? -1); cbn in H; [injection H as <- <- <-; constructor|].
  destruct (allocworker P e s u) as [[[p s1] t1]|] eqn:Halloc; [|discriminate].
  cbn in H.
  destruct (allocworker_spec _ _ _ _ _ _ _ Halloc) as (_ & Hint & _).
  destruct (p =? 0); cbn in H; [now injection H as <- <- <-|].
  destruct (worker_alloc e =? 0); [discriminate|].
  destruct (uwqs s1 !! u); [|discriminate]. cbn in H.
  destruct (procs s1 !! p); [|discriminate]. cbn in H.
  injection H as <- <- <-. apply Forall_app. split; [done|].
  repeat constructor.
Qed.

Lemma one_victim_skip P e s order j b s' t t0 :
  busy P s j = false →
  one_victim P e s order b s' t0 →
  probed t = j :: probed t0 → calls t = calls t0 →
  one_victim P e s (j :: order) b s' t.
Proof.
  unfold one_victim. intros Hbusy H0 Hprobed Hcalls. cbn [list_find].
  rewrite decide_False by congruence.
  destruct (list_find _ order) as [[n j']|]; cbn.
  - destruct H0 as (u & t' & Hu & Hrun & Hc & Hp).
    exists u, t'. repeat split; auto; congruence.
  - destruct H0 as (-> & -> & Hc & Hp). repeat split; congruence.
Qed.

Lemma one_victim_hit P e s order j u b s' t t' :
  busy P s j = true → uwq_of s j = Some u →
  tryworker P e s u = Some (b, s', t') →
  probed t = [j] → calls t = [(j, u)] →
  one_victim P e s (j :: order) b s' t.
Proof.
  unfold one_victim. intros Hbusy Hu Hrun Hprobed Hcalls. cbn [list_find].
  rewrite decide_True by done. exists u, t'. repeat split; auto.
Qed.

Lemma guard_scope decl d :
  Gc.end_scope (Gc.declare decl d).1 (Gc.declare decl d).2 = d.
Proof. now destruct decl. Qed.

Lemma continue_inv (run : option (bool * kstate * list event)) tm b s' t :
  ('(b0, s0, t0) ← run; Some (b0, s0, tm ++ t0)) = Some (b, s', t) →
  ∃ t0, run = Some (b, s', t0) ∧ t = tm ++ t0.
Proof.
  destruct run as [[[b0 s0] t0]|]; cbn; [|discriminate].
  intros [= <- <- <-]. eauto.
Qed.

(** The loop looks at the CPUs in order, stops at the first busy one, and
    records the same number of live guards at every step. *)
Lemma trywork_loop_spec decl P e idx : ∀ s d b s' t,
  trywork_loop decl P e idx s d = Some (b, s', t) →
  one_victim P e s
    (filter (fun j => j ≠ mycpuid e)
       (map (fun i => wrap (Z.of_nat i + rdtsc e) `mod` Z.of_nat (NCPU P)) idx))
    b s' t
  ∧ Forall (eq (Gc.declare decl d).2) (guards_seen t).
Proof.
  induction idx as [|i idx IH]; intros s d b s' t H; cbn [trywork_loop] in H.
  - injection H as <- <- <-. split; [|constructor].
    unfold one_victim. cbn. auto.
  - cbn [map].
    generalize dependent (wrap (Z.of_nat i + rdtsc e) `mod` Z.of_nat (NCPU P)).
    intros j H.
    destruct (Z.eqb_spec j (mycpuid e)) as [Hme|Hme].
    { rewrite filter_cons_False by (intros Hne; now apply Hne). eauto. }
    rewrite filter_cons_True by done.
    destruct (cpus s !! Z.to_nat j) as [p|] eqn:Hcpu; [|discriminate].
    cbn [mbind option_bind] in H.
    pose proof (guard_scope decl d) as Hscope.
    specialize (IH s d).
    destruct (Gc.declare decl d) as [xgc d1]. cbn [fst snd] in *.
    rewrite Hscope in H.
    destruct (Z.eqb_spec p 0) as [Hp|Hp].
    { apply continue_inv in H as (t0 & Hrest & ->).
      destruct (IH _ _ _ Hrest) as [Hone Hg]. split.
      - eapply one_victim_skip; [|exact Hone|reflexivity..].
        unfold busy, uwq_of. rewrite Hcpu. cbn.
        apply Z.eqb_eq in Hp. now rewrite Hp.
      - now apply (Forall_cons_2 _ d1). }
    destruct (procs s !! p) as [po|] eqn:Hpo; [|discriminate].
    cbn [mbind option_bind] in H.
    destruct (Z.eqb_spec (p_uwq po) 0) as [Hu|Hu].
    { apply continue_inv in H as (t0 & Hrest & ->).
      destruct (IH _ _ _ Hrest) as [Hone Hg]. split.
      - eapply one_victim_skip; [|exact Hone|reflexivity..].
        unfold busy, uwq_of. rewrite Hcpu. cbn.
        apply Z.eqb_neq in Hp. rewrite Hp, Hpo. cbn.
        apply Z.eqb_eq in Hu. now rewrite Hu.
      - now apply (Forall_cons_2 _ d1). }
    destruct (uwqs s !! p_uwq po) as [uq|] eqn:Huq; [|discriminate].
    cbn [mbind option_bind] in H.
    destruct (haswork P uq) as [hw|] eqn:Hhw; [|discriminate].
    cbn [mbind option_bind] in H.
    assert (Huwq : uwq_of s j = Some (p_uwq po)).
    { unfold uwq_of. rewrite Hcpu. cbn.
      apply Z.eqb_neq in Hp, Hu. now rewrite Hp, Hpo; cbn; rewrite Hu. }
    assert (Hbusy : busy P s j = hw).
    { unfold busy. now rewrite Huwq, Huq, Hhw. }
    destruct hw.
    + destruct (tryworker P e s (p_uwq po)) as [[[r s0] t0]|] eqn:Hrun;
        [|discriminate].
      cbn [mbind option_bind] in H.
      assert (b = r ∧ s' = s0
              ∧ t = [EvReadProc j d1; EvHaswork j (p_uwq po) d1;
                     EvTryworker j (p_uwq po) d1] ++ t0)
        as (-> & -> & ->) by (destruct r; injection H as <- <- <-; auto).
      pose proof (internal_projections _ (tryworker_internal _ _ _ _ _ _ _ Hrun))
        as (Hpr & Hca & Hgu).
      split.
      * eapply one_victim_hit; [exact Hbusy|exact Huwq|exact Hrun|..].
        -- unfold probed in *. cbn. now rewrite Hpr.
        -- unfold calls in *. cbn. now rewrite Hca.
      * unfold guards_seen in *. cbn. rewrite Hgu.
        repeat (apply Forall_cons_2; [done|]). apply Forall_nil_2.
    + apply continue_inv in H as (t0 & Hrest & ->).
      destruct (IH _ _ _ Hrest) as [Hone Hg]. split.
      * eapply one_victim_skip; [exact Hbusy|exact Hone|reflexivity..].
      * apply (Forall_cons_2 _ d1); [done|].
        now apply (Forall_cons_2 _ d1).
Qed.

(** *** Well-formed memory: every call returns *)

Lemma haswork_loop_total len idx :
  (∀ i, i ∈ idx → (i < length len)%nat) → is_Some (haswork_loop len idx).
Proof.
  induction idx as [|i idx IH]; intros Hidx; cbn; [eauto|].
  destruct (lookup_lt_is_Some_2 len i) as [v ->]; [apply Hidx; now left|].
  cbn. destruct (0 <? v); [eauto|]. apply IH. intros k Hk. apply Hidx. now right.
Qed.

Lemma haswork_total P s u uq :
  wf P s → uwqs s !! u = Some uq → is_Some (haswork P uq).
Proof.
  intros Hwf Hu. unfold haswork. destruct (len_ uq) as [len|] eqn:Hlen; [|eauto].
  apply haswork_loop_total. intros i Hi. apply elem_of_seq in Hi.
  rewrite (wf_len P s Hwf u uq len Hu Hlen). lia.
Qed.

Lemma worker_scan_total e s wk idx : ∀ slot,
  (∀ i, i ∈ idx → (i < length wk)%nat) →
  (∀ w, w ∈ wk → w ≠ 0 →
     ∃ wo, workers s !! w = Some wo ∧ is_Some (procs s !! proc_ wo)) →
  is_Some (worker_scan e s wk idx slot).
Proof.
  induction idx as [|i idx IH]; intros slot Hidx Hwk; cbn; [eauto|].
  assert (Hrest : ∀ k, k ∈ idx → (k < length wk)%nat)
    by (intros k Hk; apply Hidx; now right).
  destruct (lookup_lt_is_Some_2 wk i) as [w Hw]; [apply Hidx; now left|].
  rewrite Hw. cbn. destruct (Z.eqb_spec w 0) as [_|Hne]; [now apply IH|].
  destruct (Hwk w) as (wo & Hwo & [po Hpo]);
    [eapply list_elem_of_lookup_2, Hw|done|].
  rewrite Hwo. cbn. destruct (running_ wo); [now apply IH|].
  rewrite Hpo. cbn. eauto.
Qed.

Lemma allocworker_total P e s u :
  is_Some (uwqs s !! u) → is_Some (allocworker P e s u).
Proof.
  intros [uq Hu]. unfold allocworker. rewrite Hu. cbn.
  destruct (uentry_ uq =? 0); [eauto|].
  destruct (proc_alloc e) as [p fresh].
  destruct (p =? 0); [eauto|].
  destruct (vmnode_alloc e =? 0); [eauto|].
  destruct (vmap_insert e <? 0); eauto.
Qed.

Lemma tryworker_total P e s u :
  wf P s → is_Some (uwqs s !! u) → worker_alloc e ≠ 0 →
  is_Some (tryworker P e s u).
Proof.
  intros Hwf [uq Hu] Hw. unfold tryworker, tryworker_ret. rewrite Hu. cbn.
  destruct (u_valid uq); cbn; [|eauto].
  destruct (worker_scan_total e s (worker_ uq) (seq 0 (NWORKERS P)) (-1))
    as [[s0 t0|slot] ->]; cbn; [| |eauto|].
  { intros i Hi. apply elem_of_seq in Hi.
    rewrite (wf_slots P s Hwf u uq Hu). lia. }
  { intros w Hin Hne. exact (wf_worker P s Hwf u uq w Hu Hin Hne). }
  destruct (slot =? -1); cbn; [eauto|].
  destruct (allocworker_total P e s u) as [[[p s1] t1] Halloc]; [eauto|].
  rewrite Halloc. cbn.
  destruct (allocworker_spec _ _ _ _ _ _ _ Halloc)
    as (_ & _ & _ & _ & _ & Huq1 & Hproc).
  destruct (Z.eqb_spec p 0) as [_|Hp]; cbn; [eauto|].
  apply Z.eqb_neq in Hw. rewrite Hw.
  destruct (Huq1 uq Hu) as (uq1 & -> & _). destruct (Hproc Hp) as [po ->].
  cbn. eauto.
Qed.

Lemma trywork_loop_total decl P e idx : ∀ s d,
  wf P s → worker_alloc e ≠ 0 → idx = [] ∨ (0 < NCPU P)%nat →
  is_Some (trywork_loop decl P e idx s d).
Proof.
  induction idx as [|i idx IH]; intros s d Hwf Hw Hn; cbn [trywork_loop];
    [eauto|].
  destruct Hn as [Hn|Hn]; [discriminate|].
  assert (Hj : 0 <= wrap (Z.of_nat i + rdtsc e) `mod` Z.of_nat (NCPU P)
               < Z.of_nat (NCPU P)) by (apply Z.mod_pos_bound; lia).
  generalize dependent (wrap (Z.of_nat i + rdtsc e) `mod` Z.of_nat (NCPU P)).
  intros j Hj.
  destruct (j =? mycpuid e); [now apply IH; auto|].
  destruct (lookup_lt_is_Some_2 (cpus s) (Z.to_nat j)) as [p Hp].
  { rewrite (wf_cpus P s Hwf). lia. }
  rewrite Hp. cbn [mbind option_bind].
  rewrite (surjective_pairing (Gc.declare decl d)), guard_scope.
  destruct (IH s d Hwf Hw (or_intror Hn)) as [[[b0 s0] t0] Hrest].
  rewrite Hrest. cbn [mbind option_bind].
  destruct (Z.eqb_spec p 0) as [_|Hp0]; [eauto|].
  destruct (wf_proc P s Hwf p) as [po Hpo];
    [eapply list_elem_of_lookup_2, Hp|done|].
  rewrite Hpo. cbn [mbind option_bind].
  destruct (Z.eqb_spec (p_uwq po) 0) as [_|Hu0]; [eauto|].
  destruct (wf_uwq P s Hwf p po Hpo Hu0) as [uq Huq].
  rewrite Huq. cbn [mbind option_bind].
  destruct (haswork_total P s _ uq Hwf Huq) as [hw ->]. cbn [mbind option_bind].
  destruct hw; [|eauto].
  destruct (tryworker_total P e s (p_uwq po) Hwf) as [[[r s1] t1] ->];
    [eauto|done|].
  cbn. destruct r; eauto.
Qed.

Lemma probe_order_others P e j : j ∈ probe_order P e → j ≠ mycpuid e.
Proof. unfold probe_order. intros Hin. now apply list_elem_of_filter in Hin as [? _]. Qed.

(** C10: [uwq_trywork] never looks at the calling CPU and never makes it
    the victim.  It calls [tryworker] at most once: on the work queue of
    the first other CPU, in probe order, whose current process has a
    work queue that reports work.  Its result is the result of that call,
    so it is [false] when the call returns [false], and no CPU after the
    victim is looked at; when no CPU qualifies it looks at all of them,
    calls nothing and returns [false].  On well-formed memory the call
    returns. *)
Theorem uwq_trywork_single_victim P e s d :
  (∀ b s' t, uwq_trywork P e s d = Some (b, s', t) →
     (mycpuid e ∉ probed t)
     ∧ (∀ j u, (j, u) ∈ calls t → j ≠ mycpuid e)
     ∧ (length (calls t) ≤ 1)%nat
     ∧ one_victim P e s (probe_order P e) b s' t)
  ∧ (wf P s → worker_alloc e ≠ 0 → is_Some (uwq_trywork P e s d)).
Proof.
  split.
  - intros b s' t H.
    destruct (trywork_loop_spec _ _ _ _ _ _ _ _ _ H) as [Hone _].
    fold (probe_order P e) in Hone.
    assert (Hshape : probed t `prefix_of` probe_order P e
                     ∧ (calls t = []
                        ∨ ∃ j u, calls t = [(j, u)] ∧ j ∈ probe_order P e)).
    { unfold one_victim in Hone.
      destruct (list_find _ (probe_order P e)) as [[n j]|] eqn:Hfind.
      - destruct Hone as (u & t' & _ & _ & Hc & Hp). split.
        + rewrite Hp. apply prefix_take.
        + right. exists j, u. split; [done|].
          apply list_find_Some in Hfind as (Hj & _).
          eapply list_elem_of_lookup_2, Hj.
      - destruct Hone as (_ & _ & Hc & Hp). split; [now rewrite Hp|now left]. }
    destruct Hshape as [[k Hk] Hcalls]. repeat split; [| | |exact Hone].
    + intros Hin. eapply (probe_order_others P e); [|reflexivity].
      rewrite Hk. apply elem_of_app. now left.
    + intros j u Hin. destruct Hcalls as [Hc|(j' & u' & Hc & Hj')];
        rewrite Hc in Hin.
      * now apply elem_of_nil in Hin.
      * apply list_elem_of_singleton in Hin. injection Hin as -> ->.
        now apply probe_order_others in Hj'.
    + destruct Hcalls as [->|(j' & u' & -> & _)]; cbn; lia.
  - intros Hwf Hw. apply trywork_loop_total; [done..|].
    destruct (NCPU P); [now left|right; lia].
Qed.

(** On the small machine: CPU 0 calls with time stamp 7, looks at CPU 1
    only, and wakes the idle worker of its work queue. *)
Example uwq_trywork_wakes :
  ∃ s', uwq_trywork ex_params ex_env ex_state 0%nat
        = Some (true, s', [EvReadProc 1 0; EvHaswork 1 300 0;
                           EvTryworker 1 300 0; EvWakeup 400])
        ∧ probe_order ex_params ex_env = [1].
Proof. eexists. split; reflexivity. Qed.

(** The number of live guards that [uwq_trywork] records is the number on
    entry: its declaration of [xgc] adds none.  Had [xgc] been declared
    as an object, every step would have seen one more. *)
Lemma trywork_guards decl P e s d b s' t :
  trywork_with decl P e s d = Some (b, s', t) →
  Forall (eq (if Gc.declares_object decl then S d else d)) (guards_seen t).
Proof.
  intros H. destruct (trywork_loop_spec _ _ _ _ _ _ _ _ _ H) as [_ Hg].
  now destruct decl.
Qed.

(** C1 (the code departs from it): in [uwq_trywork] no epoch guard object
    is live between the read of the victim's [proc] pointer and the
    calls of [haswork] and [tryworker].  [scoped_gc_epoch xgc();]
    declares a function, so a thread that enters with no guard makes all
    three steps with no guard; with the declaration [scoped_gc_epoch
    xgc;] it would have made them with one. *)
Theorem uwq_trywork_no_guard_live :
  (∃ b s' t,
     uwq_trywork ex_params ex_env ex_state 0%nat = Some (b, s', t)
     ∧ probed t = [1] ∧ calls t = [(1, 300)]
     ∧ guards_seen t = [0; 0; 0]%nat)
  ∧ (∃ b s' t,
       trywork_with Gc.DeclPlain ex_params ex_env ex_state 0%nat
       = Some (b, s', t)
       ∧ guards_seen t = [1; 1; 1]%nat)
  ∧ (∀ P e s d b s' t,
       uwq_trywork P e s d = Some (b, s', t) →
       Forall (eq d) (guards_seen t)).
Proof.
  split; [|split].
  - eexists _, _, _. repeat split.
  - eexists _, _, _. repeat split.
  - intros P e s d b s' t H. exact (trywork_guards _ _ _ _ _ _ _ _ H).
Qed.

End UwqFacts.

(** ** More on the marked pointer *)

Section MarkptrMore.
Import Word Atomic Markptr MarkptrOps.

Lemma is_word_land_ones w : is_word w ↔ Z.land w (Z.ones width) = w.
Proof.
  unfold is_word, modulus. rewrite Z.land_ones by (unfold width; lia).
  split.
  - intros H. now apply Z.mod_small.
  - intros H. rewrite <- H. apply Z.mod_pos_bound. unfold width. lia.
Qed.

Lemma is_word_lor a b : is_word a → is_word b → is_word (Z.lor a b).
Proof.
  rewrite !is_word_land_ones. intros Ha Hb.
  now rewrite Z.land_lor_distr_l, Ha, Hb.
Qed.

Lemma is_word_land_l a b : is_word a → is_word (Z.land a b).
Proof.
  rewrite !is_word_land_ones. intros Ha.
  now rewrite (Z.land_comm a b), <- Z.land_assoc, Ha.
Qed.

Lemma is_word_of_bool b : is_word (of_bool b).
Proof. unfold is_word, modulus, width. destruct b; cbn; lia. Qed.

Lemma ptr_load_aligned p : is_ptr p → Z.land p not1 = p.
Proof.
  intros Hp. rewrite <- (ptr_word_ptr 0 p Hp) at 2.
  now rewrite Z.land_0_l, Z.lor_0_l.
Qed.

Lemma of_bool_mark_load m : of_bool (mark_load m) = Z.land (_p m) 1.
Proof.
  rewrite mark_load_bit0, land1_bit0. now destruct (Z.testbit (_p m) 0).
Qed.

Lemma mark_load_of_word w m :
  mark_load (MkMarkptr (Z.lor (Z.land w not1) (of_bool (negb (negb m))))) = m.
Proof.
  unfold mark_load. cbn [_p]. rewrite mark_word_mark. now destruct m.
Qed.

Lemma mark_word_mark' p0 m :
  Z.land (Z.lor (Z.land p0 not1) (of_bool m)) 1 = of_bool m.
Proof. rewrite <- (negb_involutive m) at 1. apply mark_word_mark. Qed.

Lemma mark_word_ptr' p0 m :
  Z.land (Z.lor (Z.land p0 not1) (of_bool m)) not1 = Z.land p0 not1.
Proof. rewrite <- (negb_involutive m). apply mark_word_ptr. Qed.

(** An undisturbed store replaces the word it started from. *)
Lemma ptr_assign_alone sched this p :
  Exists quiet sched → Forall undisturbed sched →
  ptr_assign sched this p
  = Some (this, MkMarkptr (Z.lor (Z.land (_p this) 1) p)).
Proof.
  intros Hq Hu.
  destruct (ptr_assign_runs sched p this Hq) as (seen & after & Hrun & Hw & Hs).
  rewrite Hrun, (Hs Hu) in *. destruct after. cbn in Hw. now rewrite Hw.
Qed.

Lemma mark_assign_alone sched this m :
  Exists quiet sched → Forall undisturbed sched →
  mark_assign sched this m
  = Some (this, MkMarkptr (Z.lor (Z.land (_p this) not1)
                                 (of_bool (negb (negb m))))).
Proof.
  intros Hq Hu.
  destruct (mark_assign_runs sched m this Hq) as (seen & after & Hrun & Hw & Hs).
  rewrite Hrun, (Hs Hu) in *. destruct after. cbn in Hw. now rewrite Hw.
Qed.

(** Whatever the schedule, the word found by the successful
    compare-and-swap is the word stored before it or a word written by
    another thread, and the word left is computed from the word found. *)
Lemma ptr_assign_inv (Q : Z → Prop) sched p : ∀ this seen after,
  Q (_p this) → Forall (fun s => ∀ v, interfere s = Some v → Q v) sched →
  ptr_assign sched this p = Some (seen, after) →
  Q (_p seen) ∧ _p after = Z.lor (Z.land (_p seen) 1) p.
Proof.
  induction sched as [|s rest IH]; intros this seen after HQ Hall H;
    cbn [ptr_assign] in H; [discriminate|].
  apply Forall_cons in Hall as [Hs Hall].
  assert (HQ' : Q (env_write s (_p this))).
  { unfold env_write. destruct (interfere s) as [v|]; auto. }
  match type of H with
  | context [compare_exchange_weak ?sp ?c ?e ?d] =>
      destruct (cas_cases sp c e d) as [(Hc & Heq & _)|Hc]; rewrite Hc in H
  end.
  - injection H as <- <-. cbn [_p]. split; [exact HQ'|now rewrite Heq].
  - eapply IH; [|exact Hall|exact H]. exact HQ'.
Qed.

Lemma mark_assign_inv (Q : Z → Prop) sched m : ∀ this seen after,
  Q (_p this) → Forall (fun s => ∀ v, interfere s = Some v → Q v) sched →
  mark_assign sched this m = Some (seen, after) →
  Q (_p seen)
  ∧ _p after = Z.lor (Z.land (_p seen) not1) (of_bool (negb (negb m))).
Proof.
  induction sched as [|s rest IH]; intros this seen after HQ Hall H;
    cbn [mark_assign] in H; [discriminate|].
  apply Forall_cons in Hall as [Hs Hall].
  assert (HQ' : Q (env_write s (_p this))).
  { unfold env_write. destruct (interfere s) as [v|]; auto. }
  match type of H with
  | context [compare_exchange_weak ?sp ?c ?e ?d] =>
      destruct (cas_cases sp c e d) as [(Hc & Heq & _)|Hc]; rewrite Hc in H
  end.
  - injection H as <- <-. cbn [_p]. split; [exact HQ'|now rewrite Heq].
  - eapply IH; [|exact Hall|exact H]. exact HQ'.
Qed.

(** X1: [operator==] on two marked pointers holds exactly when they
    agree in the pointer component and in the mark; [operator!=] is its
    negation. *)
Theorem markptr_eqb_components a b :
  is_word (_p a) → is_word (_p b) →
  (eqb a b = true ↔ ptr_load a = ptr_load b ∧ mark_load a = mark_load b)
  ∧ neqb a b = negb (eqb a b).
Proof.
  intros Ha Hb. split; [|reflexivity]. unfold eqb. split.
  - intros H. apply Z.eqb_eq in H. unfold ptr_load, mark_load.
    now rewrite H.
  - intros [Hp Hm]. apply Z.eqb_eq.
    now rewrite (markptr_components_inj a b Ha Hb Hp Hm).
Qed.

Lemma markptr_eqb_components_witness :
  (eqb (MkMarkptr 33) (MkMarkptr 32) = true
   ↔ ptr_load (MkMarkptr 33) = ptr_load (MkMarkptr 32)
     ∧ mark_load (MkMarkptr 33) = mark_load (MkMarkptr 32))
  ∧ neqb (MkMarkptr 33) (MkMarkptr 32) = negb (eqb (MkMarkptr 33) (MkMarkptr 32)).
Proof.
  apply (markptr_eqb_components (MkMarkptr 33) (MkMarkptr 32));
    unfold is_word, modulus, width; cbn; lia.
Defined.

(** X2: assigning a pointer to a marked pointer as a whole, like
    constructing one from a pointer, overwrites the word: for an aligned
    pointer the result has that pointer and a clear mark, whatever the
    mark was before; assigning another marked pointer copies both
    components. *)
Theorem assign_ptr_clears_mark this p v :
  is_ptr p →
  assign_ptr this p = of_ptr p
  ∧ ptr_load (assign_ptr this p) = p
  ∧ mark_load (assign_ptr this p) = false
  ∧ ptr_load (assign this v) = ptr_load v
  ∧ mark_load (assign this v) = mark_load v.
Proof.
  intros Hp. repeat split.
  - unfold ptr_load, assign_ptr. cbn [_p]. now apply ptr_load_aligned.
  - unfold mark_load, assign_ptr. cbn [_p]. destruct Hp as [_ ->]. reflexivity.
Qed.

Lemma assign_ptr_clears_mark_witness :
  assign_ptr (MkMarkptr 17) 48 = of_ptr 48
  ∧ ptr_load (assign_ptr (MkMarkptr 17) 48) = 48
  ∧ mark_load (assign_ptr (MkMarkptr 17) 48) = false
  ∧ ptr_load (assign (MkMarkptr 17) (MkMarkptr 33)) = ptr_load (MkMarkptr 33)
  ∧ mark_load (assign (MkMarkptr 17) (MkMarkptr 33)) = mark_load (MkMarkptr 33).
Proof.
  apply (assign_ptr_clears_mark (MkMarkptr 17) 48 (MkMarkptr 33)).
  split; [unfold is_word, modulus, width; lia|reflexivity].
Defined.

(** X3: the two views are independent.  Without interference, storing
    pointer [p] and then mark [m] leaves the same word as storing the mark
    first and the pointer second: the word with pointer [p] and mark
    [m]. *)
Theorem views_commute s1 s2 s3 s4 this p m :
  is_ptr p →
  Exists quiet s1 → Forall undisturbed s1 →
  Exists quiet s2 → Forall undisturbed s2 →
  Exists quiet s3 → Forall undisturbed s3 →
  Exists quiet s4 → Forall undisturbed s4 →
  ∃ a b w,
    ptr_assign s1 this p = Some (this, a) ∧ mark_assign s2 a m = Some (a, w)
    ∧ mark_assign s3 this m = Some (this, b) ∧ ptr_assign s4 b p = Some (b, w)
    ∧ ptr_load w = p ∧ mark_load w = m.
Proof.
  intros Hp Hq1 Hu1 Hq2 Hu2 Hq3 Hu3 Hq4 Hu4.
  exists (MkMarkptr (Z.lor (Z.land (_p this) 1) p)),
         (MkMarkptr (Z.lor (Z.land (_p this) not1) (of_bool m))),
         (MkMarkptr (Z.lor p (of_bool m))).
  rewrite (ptr_assign_alone s1 this p Hq1 Hu1).
  rewrite (mark_assign_alone s3 this m Hq3 Hu3).
  rewrite (mark_assign_alone s2 _ m Hq2 Hu2).
  rewrite (ptr_assign_alone s4 _ p Hq4 Hu4).
  cbn [_p]. rewrite (ptr_word_ptr _ p Hp), mark_word_mark', negb_involutive.
  repeat split.
  - now rewrite (Z.lor_comm (of_bool m) p).
  - unfold ptr_load. cbn [_p].
    rewrite <- (ptr_load_aligned p Hp) at 1. rewrite mark_word_ptr'.
    now apply ptr_load_aligned.
  - unfold mark_load. cbn [_p].
    rewrite <- (ptr_load_aligned p Hp), mark_word_mark'. now destruct m.
Qed.

Lemma views_commute_witness :
  ∃ a b w,
    ptr_assign [Step None false] (MkMarkptr 17) 48 = Some (MkMarkptr 17, a)
    ∧ mark_assign [Step None false] a false = Some (a, w)
    ∧ mark_assign [Step None false] (MkMarkptr 17) false = Some (MkMarkptr 17, b)
    ∧ ptr_assign [Step None false] b 48 = Some (b, w)
    ∧ ptr_load w = 48 ∧ mark_load w = false.
Proof.
  assert (Hq : Exists quiet [Step None false])
    by (apply Exists_cons_hd; split; reflexivity).
  assert (Hu : Forall undisturbed [Step None false])
    by (apply Forall_cons; split; [reflexivity|apply Forall_nil_2]).
  apply (views_commute _ _ _ _ (MkMarkptr 17) 48 false); try assumption.
  split; [unfold is_word, modulus, width; lia|reflexivity].
Defined.

(** X4: without interference, storing a mark and then storing the mark
    the word had before gives back the word one started from, and
    storing the same mark twice is the same as storing it once. *)
Theorem mark_assign_round_trip s1 s2 this m :
  is_word (_p this) →
  Exists quiet s1 → Forall undisturbed s1 →
  Exists quiet s2 → Forall undisturbed s2 →
  ∃ a,
    mark_assign s1 this m = Some (this, a)
    ∧ mark_assign s2 a (mark_load this) = Some (a, this)
    ∧ mark_assign s2 a m = Some (a, a).
Proof.
  intros Hw Hq1 Hu1 Hq2 Hu2.
  exists (MkMarkptr (Z.lor (Z.land (_p this) not1) (of_bool m))).
  rewrite (mark_assign_alone s1 this m Hq1 Hu1).
  rewrite !(mark_assign_alone s2 _ _ Hq2 Hu2). cbn [_p].
  rewrite !negb_involutive, mark_word_ptr'. repeat split.
  do 2 f_equal. rewrite of_bool_mark_load.
  destruct this as [w]. cbn [_p] in *. f_equal.
  symmetry. now apply markptr_split.
Qed.

Lemma mark_assign_round_trip_witness :
  ∃ a,
    mark_assign [Step None false] (MkMarkptr 48) true = Some (MkMarkptr 48, a)
    ∧ mark_assign [Step None true; Step None false] a (mark_load (MkMarkptr 48))
      = Some (a, MkMarkptr 48)
    ∧ mark_assign [Step None true; Step None false] a true = Some (a, a).
Proof.
  apply (mark_assign_round_trip [Step None false]
           [Step None true; Step None false] (MkMarkptr 48) true).
  - unfold is_word, modulus, width. cbn. lia.
  - apply Exists_cons_hd. split; reflexivity.
  - apply Forall_cons. split; [reflexivity|apply Forall_nil_2].
  - apply Exists_cons_tl, Exists_cons_hd. split; reflexivity.
  - repeat (apply Forall_cons; split; [reflexivity|]). apply Forall_nil_2.
Defined.

(** X5: a mark store that changes the mark defeats every
    compare-and-swap that still expects the word it replaced: the
    [cmpxch] fails and leaves the marked word, whose pointer component
    is the one of the replaced word, in place. *)
Theorem mark_store_defeats_cmpxch sched this m seen after spur desired :
  mark_assign sched this m = Some (seen, after) →
  mark_load seen ≠ m →
  cmpxch spur after seen desired = (false, after)
  ∧ ptr_load after = ptr_load seen
  ∧ mark_load after = m.
Proof.
  intros Hrun Hm.
  destruct (mark_assign_inv (fun _ => True) sched m this seen after I) as [_ Hw];
    [now apply Forall_forall|exact Hrun|].
  assert (Hmark : mark_load after = m).
  { destruct after as [w]. cbn [_p] in Hw. rewrite Hw. apply mark_load_of_word. }
  repeat split; [| |exact Hmark].
  - unfold cmpxch, compare_exchange_weak.
    destruct (Z.eqb_spec (_p after) (_p seen)) as [Heq|_]; cbn.
    + exfalso. apply Hm. rewrite <- Hmark. unfold mark_load. now rewrite Heq.
    + now destruct after.
  - unfold ptr_load. rewrite Hw. apply mark_word_ptr.
Qed.

Lemma mark_store_defeats_cmpxch_witness :
  cmpxch false (MkMarkptr 49) (MkMarkptr 48) (MkMarkptr 64)
  = (false, MkMarkptr 49)
  ∧ ptr_load (MkMarkptr 49) = ptr_load (MkMarkptr 48)
  ∧ mark_load (MkMarkptr 49) = true.
Proof.
  apply (mark_store_defeats_cmpxch [Step None false] (MkMarkptr 48) true
           (MkMarkptr 48) (MkMarkptr 49) false (MkMarkptr 64)).
  - reflexivity.
  - discriminate.
Defined.

(** X6: the stores keep the cell a 64-bit word.  When the cell holds a
    word, other threads write words and the pointer stored is a pointer,
    the word a pointer store or a mark store leaves is a word again, and
    so is the word it replaced. *)
Theorem stores_keep_words sched this p m seen after :
  is_word (_p this) → is_ptr p → word_writes sched →
  (ptr_assign sched this p = Some (seen, after) →
   is_word (_p seen) ∧ is_word (_p after))
  ∧ (mark_assign sched this m = Some (seen, after) →
     is_word (_p seen) ∧ is_word (_p after)).
Proof.
  intros Hw [Hp _] Hall. split; intros Hrun.
  - destruct (ptr_assign_inv is_word sched p this seen after Hw Hall Hrun)
      as [Hs Ha].
    split; [exact Hs|]. rewrite Ha.
    apply is_word_lor; [now apply is_word_land_l|exact Hp].
  - destruct (mark_assign_inv is_word sched m this seen after Hw Hall Hrun)
      as [Hs Ha].
    split; [exact Hs|]. rewrite Ha.
    apply is_word_lor; [now apply is_word_land_l|apply is_word_of_bool].
Qed.

Lemma stores_keep_words_witness :
  (is_word 81 ∧ is_word 49) ∧ (is_word 81 ∧ is_word 81).
Proof.
  assert (H17 : is_word 17) by (unfold is_word, modulus, width; lia).
  assert (H48 : is_ptr 48)
    by (split; [unfold is_word, modulus, width; lia|reflexivity]).
  assert (Hw : word_writes [Step (Some 81) false; Step None false]).
  { apply Forall_cons. split.
    - intros v [= <-]. unfold is_word, modulus, width. lia.
    - apply Forall_cons. split; [discriminate|apply Forall_nil_2]. }
  split.
  - apply (proj1 (stores_keep_words [Step (Some 81) false; Step None false]
             (MkMarkptr 17) 48 true (MkMarkptr 81) (MkMarkptr 49) H17 H48 Hw)).
    reflexivity.
  - apply (proj2 (stores_keep_words [Step (Some 81) false; Step None false]
             (MkMarkptr 17) 48 true (MkMarkptr 81) (MkMarkptr 81) H17 H48 Hw)).
    reflexivity.
Defined.

End MarkptrMore.

(** ** More on iteration and on the locked window *)

Section CrangeMore.
Import Word Markptr Crange.
Implicit Types (h : heap) (l : list Z) (e succ stop : Z).

Lemma links_ext h h' :
  (∀ n, next0 h' n = next0 h n) → ∀ l e, links h' e l ↔ links h e l.
Proof.
  intros Hext l. induction l as [|x l IH]; intros e; cbn; [tauto|].
  rewrite Hext, IH. tauto.
Qed.

Lemma iterate_ext h h' :
  (∀ n, next0 h' n = next0 h n) →
  ∀ fuel it last, iterate fuel h' it last = iterate fuel h it last.
Proof.
  intros Hext fuel. induction fuel as [|fuel IH]; intros it last; cbn; [done|].
  destruct (iter_neqb it last); [|done].
  unfold incr. rewrite Hext. destruct (next0 h (_e it)) as [m|]; cbn; [|done].
  now rewrite IH.
Qed.

(** What a traversal that returns has walked. *)
Lemma iterate_inv h fuel : ∀ x stop vis,
  iterate fuel h (MkIter x) (MkIter stop) = Some vis →
  (stop ∉ vis)
  ∧ match vis with
    | [] => x = stop
    | y :: l => y = x ∧ links h x (l ++ [stop])
    end.
Proof.
  induction fuel as [|fuel IH]; intros x stop vis H; cbn in H; [discriminate|].
  unfold iter_neqb in H. cbn [_e] in H.
  destruct (Z.eqb_spec x stop) as [->|Hne]; cbn in H.
  { injection H as <-. split; [apply not_elem_of_nil|done]. }
  unfold incr in H. cbn [_e] in H.
  destruct (next0 h x) as [m|] eqn:Hm; [|discriminate]. cbn in H.
  destruct (iterate fuel h (MkIter (ptr_load m)) (MkIter stop)) as [rest|] eqn:Hr;
    [|discriminate].
  cbn in H. injection H as <-. unfold deref. cbn [_e].
  destruct (IH _ _ _ Hr) as [Hstop Hshape]. split.
  - intros Hin. apply elem_of_cons in Hin as [->|Hin]; [done|now apply Hstop].
  - split; [done|]. destruct rest as [|y l].
    + cbn. split; [|done]. exists m. split; [done|]. exact Hshape.
    + destruct Hshape as [-> Hl]. cbn. split; [|exact Hl]. eauto.
Qed.

(** A traversal from the successor of [e]. *)
Lemma iterate_successor_inv h fuel e m stop vis :
  next0 h e = Some m →
  iterate fuel h (MkIter (ptr_load m)) (MkIter stop) = Some vis →
  (stop ∉ vis) ∧ links h e (vis ++ [stop]).
Proof.
  intros Hm Hit. destruct (iterate_inv _ _ _ _ _ Hit) as [Hstop Hshape].
  split; [exact Hstop|]. destruct vis as [|y l].
  - cbn. split; [|done]. exists m. split; [done|exact Hshape].
  - destruct Hshape as [-> Hl]. cbn. split; [eauto|exact Hl].
Qed.

Lemma links_objects h l : ∀ e x,
  links h e (l ++ [x]) → Forall (fun n => is_Some (h !! n)) (e :: l).
Proof.
  intros e x Hl. apply Forall_forall. intros n Hin.
  eapply links_defined; eauto.
Qed.

(** X7: a traversal of the collection that returns has visited nothing
    but objects that the level-0 pointers, marks stripped, link one after
    the other from the head sentinel to null; null itself is never
    handed out. *)
Theorem crange_iteration_sound h cr first fuel vis :
  crange_begin h cr = Some first →
  iterate fuel h first (crange_end cr) = Some vis →
  links h (crange_head cr) (vis ++ [0])
  ∧ (0 ∉ vis)
  ∧ Forall (fun n => is_Some (h !! n)) vis.
Proof.
  unfold crange_begin, crange_end. intros Hb Hit.
  destruct (next0 h (crange_head cr)) as [m|] eqn:Hm; [|discriminate].
  cbn in Hb. injection Hb as <-.
  destruct (iterate_successor_inv _ _ _ _ _ _ Hm Hit) as [H0 Hl].
  repeat split; [exact Hl|exact H0|].
  now apply links_objects, Forall_inv_tail in Hl.
Qed.

Lemma crange_iteration_sound_witness :
  links ex_heap 16 ([32; 48; 64] ++ [0])
  ∧ (0 ∉ [32; 48; 64])
  ∧ Forall (fun n => is_Some (ex_heap !! n)) [32; 48; 64].
Proof.
  apply (crange_iteration_sound ex_heap ex_crange (MkIter 32) 4 [32; 48; 64]);
    reflexivity.
Defined.

Lemma links_null h l1 y l2 e :
  h !! 0 = None → ¬ links h e (l1 ++ 0 :: y :: l2).
Proof.
  intros H0 Hl. apply links_suffix in Hl as [(m & Hm & _) _].
  unfold next0 in Hm. now rewrite H0 in Hm.
Qed.

(** Two walks from the same node, one up to [stop] and one up to null:
    the first is an initial part of the second. *)
Lemma links_within h e win stop rest :
  h !! 0 = None →
  links h e (win ++ [stop]) → links h e (rest ++ [0]) →
  ∃ post, rest = win ++ post.
Proof.
  intros H0 Hwin Hrest.
  destruct (decide (length win ≤ length rest)%nat) as [Hle|Hgt].
  - destruct (links_prefix h e _ _ Hwin Hrest) as [k Hk].
    { rewrite !length_app. cbn. lia. }
    destruct (decide (k = [])) as [->|Hne].
    + rewrite app_nil_r in Hk. apply app_inj_tail in Hk as [-> _].
      exists []. now rewrite app_nil_r.
    + destruct (exists_last Hne) as (k' & z & ->).
      rewrite <- app_assoc, !app_assoc in Hk.
      apply app_inj_tail in Hk as [-> _].
      exists ([stop] ++ k'). now rewrite !app_assoc.
  - exfalso.
    destruct (links_prefix h e _ _ Hrest Hwin) as [k Hk].
    { rewrite !length_app. cbn. lia. }
    assert (k ≠ []) as Hne.
    { intros ->. rewrite app_nil_r in Hk. apply (f_equal length) in Hk.
      rewrite !length_app in Hk. cbn in Hk. lia. }
    destruct (exists_last Hne) as (k' & z & ->).
    rewrite <- app_assoc, !app_assoc in Hk.
    apply app_inj_tail in Hk as [Hk _].
    destruct k' as [|y k'].
    + rewrite app_nil_r in Hk. rewrite Hk in Hwin.
      rewrite <- !app_assoc in Hwin. cbn in Hwin.
      exact (links_null h rest stop [] e H0 Hwin).
    + rewrite Hk in Hwin. rewrite <- !app_assoc in Hwin. cbn in Hwin.
      exact (links_null h rest y (k' ++ [stop]) e H0 Hwin).
Qed.

(** X8: the nodes that the traversal of a locked window hands out are a
    contiguous run of the nodes that the traversal of the whole
    collection hands out, provided the window's [prev] is the head
    sentinel or one of those nodes. *)
Theorem window_within_collection h cr x b f1 full b' f2 win :
  h !! 0 = None →
  crange_begin h cr = Some b →
  iterate f1 h b (crange_end cr) = Some full →
  prev_ x ∈ crange_head cr :: full →
  locked_begin h x = Some b' →
  iterate f2 h b' (locked_end x) = Some win →
  ∃ pre post, full = pre ++ win ++ post.
Proof.
  unfold crange_begin, crange_end, locked_begin, locked_end.
  intros H0 Hb Hfull Hprev Hb' Hwin.
  destruct (next0 h (crange_head cr)) as [m|] eqn:Hm; [|discriminate].
  cbn in Hb. injection Hb as <-.
  destruct (next0 h (prev_ x)) as [m'|] eqn:Hm'; [|discriminate].
  cbn in Hb'. injection Hb' as <-.
  destruct (iterate_successor_inv _ _ _ _ _ _ Hm Hfull) as [_ Hlf].
  destruct (iterate_successor_inv _ _ _ _ _ _ Hm' Hwin) as [_ Hlw].
  assert (Hsplit : ∃ pre rest, full = pre ++ rest ∧ links h (prev_ x) (rest ++ [0])).
  { apply elem_of_cons in Hprev as [->|Hin].
    - exists [], full. now split.
    - apply list_elem_of_split in Hin as (l1 & l2 & ->).
      exists (l1 ++ [prev_ x]), l2. split; [now rewrite <- app_assoc|].
      rewrite <- app_assoc in Hlf. cbn in Hlf.
      exact (links_suffix _ _ _ _ _ Hlf). }
  destruct Hsplit as (pre & rest & -> & Hrest).
  destruct (links_within h _ win _ rest H0 Hlw Hrest) as [post ->].
  now exists pre, post.
Qed.

Lemma window_within_collection_witness :
  ∃ pre post, [32; 48; 64] = pre ++ [48] ++ post.
Proof.
  apply (window_within_collection ex_heap ex_crange ex_locked
           (MkIter 32) 4 [32; 48; 64] (MkIter 48) 2 [48]); try reflexivity.
  apply elem_of_cons. right. apply elem_of_cons. now left.
Defined.

(** What a release loop that returns has done. *)
Lemma release_loop_inv succ fuel : ∀ h e h' t,
  release_loop fuel h succ e = Some (h', t) →
  ∃ ns, h' = foldl release h ns ∧ t = release_trace ns
        ∧ (succ ∉ ns) ∧ (0 ∉ ns).
Proof.
  induction fuel as [|fuel IH]; intros h e h' t H; cbn in H; [discriminate|].
  destruct (Z.eqb_spec e 0) as [->|He0]; cbn in H.
  { injection H as <- <-. exists []. repeat split; apply not_elem_of_nil. }
  destruct (Z.eqb_spec e succ) as [->|Hes]; cbn in H.
  { injection H as <- <-. exists []. repeat split; apply not_elem_of_nil. }
  destruct (next0 h e) as [m|]; [|discriminate]. cbn in H.
  destruct (release_loop fuel (release h e) succ (ptr_load m))
    as [[h2 t2]|] eqn:Hr; [|discriminate].
  cbn in H. injection H as <- <-.
  destruct (IH _ _ _ _ Hr) as (ns & -> & -> & Hs & H0).
  exists (e :: ns). repeat split.
  - intros Hin. apply elem_of_cons in Hin as [->|Hin]; [done|now apply Hs].
  - intros Hin. apply elem_of_cons in Hin as [Heq|Hin]; [now apply He0|now apply H0].
Qed.

Lemma locked_dtor_inv fuel h x h' t :
  locked_dtor fuel h x = Some (h', t) →
  ∃ ns, h' = foldl release h ns ∧ t = release_trace ns
        ∧ (succ_ x ∉ ns) ∧ (0 ∉ ns).
Proof.
  unfold locked_dtor. destruct (moved_ x); cbn.
  - intros [= <- <-]. exists []. repeat split; apply not_elem_of_nil.
  - apply release_loop_inv.
Qed.

(** X9: whatever handle is destroyed, the destructor only ever gives up
    locks.  It leaves the node [succ] as it is, it changes no key, size
    or pointer of any node, it takes no lock, it neither adds nor removes
    an object, and a traversal finds afterwards what it found before. *)
Theorem locked_dtor_frame fuel h x h' t :
  locked_dtor fuel h x = Some (h', t) →
  h' !! succ_ x = h !! succ_ x
  ∧ (∀ n, next0 h' n = next0 h n)
  ∧ (∀ n, h' !! n = h !! n ∨ h' !! n = unlock <$> h !! n)
  ∧ (∀ f it last, iterate f h' it last = iterate f h it last).
Proof.
  intros H. destruct (locked_dtor_inv _ _ _ _ _ H) as (ns & -> & _ & Hs & _).
  repeat split.
  - now rewrite foldl_release_lookup, decide_False.
  - apply next0_foldl_release.
  - intros n. rewrite foldl_release_lookup. case_decide; auto.
  - apply iterate_ext, next0_foldl_release.
Qed.

Lemma locked_dtor_frame_witness :
  ∃ h',
    locked_dtor 3 ex_heap ex_locked = Some (h', release_trace [32; 48])
    ∧ h' !! 64 = ex_heap !! 64
    ∧ (∀ f it last, iterate f h' it last = iterate f ex_heap it last).
Proof.
  eexists. split; [reflexivity|].
  split; eapply (locked_dtor_frame 3 ex_heap ex_locked); reflexivity.
Defined.

(** X10: the move constructor does not look at the [moved_] flag of its
    source.  Two handles moved from the same handle both count as
    owners: destroying them runs the release loop twice, so that the
    lock of every node of the chain is released twice. *)
Theorem move_twice_releases_twice h x l stop fuel :
  prev_ x ≠ 0 → prev_ x ≠ succ_ x →
  links h (prev_ x) (l ++ [stop]) → stop = 0 ∨ stop = succ_ x →
  Forall (fun n => n ≠ 0 ∧ n ≠ succ_ x) l →
  (length l + 2 ≤ fuel)%nat →
  let y := (locked_move x).1 in
  let x1 := (locked_move x).2 in
  let z := (locked_move x1).1 in
  let x2 := (locked_move x1).2 in
  moved_ x1 = true ∧ moved_ y = false ∧ moved_ z = false ∧ moved_ x2 = true
  ∧ ∃ h',
      destroy_all fuel h [x2; z; y]
      = Some (h', release_trace (prev_ x :: l) ++ release_trace (prev_ x :: l))
      ∧ ∀ n, n ∈ prev_ x :: l →
             count_occ Z.eq_dec
               (releases (release_trace (prev_ x :: l)
                          ++ release_trace (prev_ x :: l))) n = 2%nat.
Proof.
  intros Hp0 Hps Hl Hstop Hall Hfuel y x1 z x2.
  repeat split.
  set (ns := prev_ x :: l).
  assert (Hz : locked_dtor fuel h z = Some (foldl release h ns, release_trace ns)).
  { apply (locked_dtor_walk h z l stop); auto. }
  assert (Hy : locked_dtor fuel (foldl release h ns) y
               = Some (foldl release (foldl release h ns) ns, release_trace ns)).
  { apply (locked_dtor_walk _ y l stop); auto.
    apply (links_ext h); [apply next0_foldl_release|exact Hl]. }
  eexists. split.
  - cbn [destroy_all]. rewrite (locked_dtor_moved fuel h x2 eq_refl).
    cbn [mbind option_bind]. rewrite Hz. cbn [mbind option_bind].
    rewrite Hy. cbn. now rewrite app_nil_r.
  - intros n Hin. unfold releases. rewrite omap_app.
    fold (releases (release_trace ns)). rewrite releases_release_trace.
    rewrite count_occ_app.
    assert (Hnd : NoDup ns).
    { destruct Hstop as [->| ->].
      - apply (links_NoDup h l _ 0 Hl). intros Hin0.
        rewrite Forall_forall in Hall. destruct (Hall 0 Hin0) as [H _].
        now apply H.
      - apply (links_NoDup h l _ (succ_ x) Hl). intros Hin0.
        rewrite Forall_forall in Hall. destruct (Hall _ Hin0) as [_ H].
        now apply H. }
    now rewrite (count_occ_NoDup ns n Hnd), decide_True.
Qed.

Lemma move_twice_releases_twice_witness :
  ∃ h',
    destroy_all 3 ex_heap
      [(locked_move (locked_move ex_locked).2).2;
       (locked_move (locked_move ex_locked).2).1;
       (locked_move ex_locked).1]
    = Some (h', release_trace [32; 48] ++ release_trace [32; 48]).
Proof.
  destruct (move_twice_releases_twice ex_heap ex_locked [48] 64 3)
    as (_ & _ & _ & _ & h' & Hrun & _).
  - discriminate.
  - discriminate.
  - cbn. repeat split; [exists (MkMarkptr 48)|exists (MkMarkptr 65)];
      split; reflexivity.
  - right. reflexivity.
  - apply Forall_cons. split; [split; discriminate|apply Forall_nil_2].
  - cbn. lia.
  - exists h'. exact Hrun.
Defined.

End CrangeMore.

(** ** More on the work queue *)

Section UwqMore.
Import Word Uwq.

Lemma haswork_loop_spec len idx :
  (∀ i, i ∈ idx → (i < length len)%nat) →
  ∃ b, haswork_loop len idx = Some b
       ∧ (b = true ↔ ∃ i v, i ∈ idx ∧ len !! i = Some v ∧ 0 < v).
Proof.
  induction idx as [|i idx IH]; intros Hidx; cbn.
  - exists false. split; [done|]. split; [discriminate|].
    intros (i & v & Hin & _). now apply elem_of_nil in Hin.
  - destruct (lookup_lt_is_Some_2 len i) as [v Hv]; [apply Hidx; now left|].
    rewrite Hv. cbn. destruct (Z.ltb_spec 0 v) as [Hpos|Hnp].
    + exists true. split; [done|]. split; [|done]. intros _.
      exists i, v. split; [now left|done].
    + destruct IH as (b & Hb & Hiff); [intros k Hk; apply Hidx; now right|].
      exists b. split; [done|]. rewrite Hiff. split.
      * intros (k & w & Hin & Hk & Hw). exists k, w. split; [now right|done].
      * intros (k & w & Hin & Hk & Hw).
        apply elem_of_cons in Hin as [->|Hin]; [|eauto].
        rewrite Hv in Hk. injection Hk as ->. lia.
Qed.

(** X11: [haswork] is [false] for a queue without a length array;
    otherwise it is [true] exactly when one of the first [NCPU] counters
    is positive, and later entries of the array are not looked at. *)
Theorem haswork_spec P uq :
  (len_ uq = None → haswork P uq = Some false)
  ∧ (∀ len, len_ uq = Some len → (NCPU P ≤ length len)%nat →
       ∃ b, haswork P uq = Some b
            ∧ (b = true ↔ ∃ i v, (i < NCPU P)%nat ∧ len !! i = Some v ∧ 0 < v)).
Proof.
  unfold haswork. split.
  - now intros ->.
  - intros len -> Hlen.
    destruct (haswork_loop_spec len (seq 0 (NCPU P))) as (b & Hb & Hiff).
    { intros i Hi. apply elem_of_seq in Hi. lia. }
    exists b. split; [done|]. rewrite Hiff.
    split; intros (i & v & Hi & Hv); exists i, v; split; try tauto.
    + apply elem_of_seq in Hi. lia.
    + apply elem_of_seq. lia.
Qed.

(** The scan of the worker array up to the first worker that is not
    running. *)
Lemma worker_scan_first e s wk pre : ∀ slot i post w wo po,
  (∀ j, j ∈ pre → ∃ w', wk !! j = Some w' ∧
     (w' = 0 ∨ ∃ wo', workers s !! w' = Some wo' ∧ running_ wo' = true)) →
  wk !! i = Some w → w ≠ 0 →
  workers s !! w = Some wo → running_ wo = false →
  procs s !! proc_ wo = Some po →
  worker_scan e s wk (pre ++ i :: post) slot
  = Some (ScanWoke
            (set_workers (<[w := set_running true wo]> (workers s))
               (set_procs (<[proc_ wo := set_cpuid (mycpuid e) po]> (procs s)) s))
            [EvWakeup w]).
Proof.
  induction pre as [|j pre IH]; intros slot i post w wo po Hpre Hi Hw Hwo Hrun Hpo.
  - cbn. rewrite Hi. cbn. apply Z.eqb_neq in Hw. rewrite Hw, Hwo. cbn.
    rewrite Hrun, Hpo. reflexivity.
  - cbn. destruct (Hpre j) as (w' & Hj & Hcase); [now left|].
    rewrite Hj. cbn.
    assert (Hrest : ∀ k, k ∈ pre → ∃ w', wk !! k = Some w' ∧
       (w' = 0 ∨ ∃ wo', workers s !! w' = Some wo' ∧ running_ wo' = true))
      by (intros k Hk; apply Hpre; now right).
    destruct Hcase as [->|(wo' & Hwo' & Hr')].
    + cbn. now apply IH.
    + destruct (Z.eqb_spec w' 0) as [->|_]; [now apply IH|].
      rewrite Hwo'. cbn. rewrite Hr'. now apply IH.
Qed.

Lemma seq_split_at n i :
  (i < n)%nat → seq 0 n = seq 0 i ++ i :: seq (S i) (n - S i).
Proof.
  intros Hi. replace n with (i + (S (n - S i)))%nat at 1 by lia.
  now rewrite seq_app.
Qed.

(** X12: [tryworker] on a valid queue wakes the first worker, in slot
    order, that is not running, and then does nothing else: it marks that
    worker as running, puts the calling CPU into its process, and
    allocates nothing, even when an empty slot comes before that
    worker. *)
Theorem tryworker_wakes_first_idle P e s u uq i w wo po :
  uwqs s !! u = Some uq → u_valid uq = true →
  (i < NWORKERS P)%nat →
  worker_ uq !! i = Some w → w ≠ 0 →
  workers s !! w = Some wo → running_ wo = false →
  procs s !! proc_ wo = Some po →
  (∀ j, (j < i)%nat → ∃ w', worker_ uq !! j = Some w' ∧
     (w' = 0 ∨ ∃ wo', workers s !! w' = Some wo' ∧ running_ wo' = true)) →
  ∃ s',
    tryworker_ret P e s u = Some (RetTrue, s', [EvWakeup w])
    ∧ workers s' = <[w := set_running true wo]> (workers s)
    ∧ procs s' = <[proc_ wo := set_cpuid (mycpuid e) po]> (procs s)
    ∧ uwqs s' = uwqs s ∧ runq s' = runq s ∧ cpus s' = cpus s.
Proof.
  intros Hu Hvalid Hi Hw Hw0 Hwo Hrun Hpo Hpre.
  eexists. unfold tryworker_ret. rewrite Hu. cbn. rewrite Hvalid. cbn.
  rewrite (seq_split_at _ _ Hi).
  rewrite (worker_scan_first e s (worker_ uq) (seq 0 i) (-1) i _ w wo po);
    auto.
  - cbn. repeat split.
  - intros j Hj. apply elem_of_seq in Hj. apply Hpre. lia.
Qed.

Lemma tryworker_wakes_first_idle_witness :
  let s0 := set_uwqs (<[300 := ex_uwq [0; 400]]> ∅) ex_state in
  ∃ s',
    tryworker_ret ex_params ex_env s0 300 = Some (RetTrue, s', [EvWakeup 400])
    ∧ workers s' = <[400 := set_running true (MkWorker 300 500 false)]> (workers s0)
    ∧ procs s' = <[500 := set_cpuid 0 (ex_proc 300)]> (procs s0)
    ∧ uwqs s' = uwqs s0 ∧ runq s' = runq s0 ∧ cpus s' = cpus s0.
Proof.
  intros s0.
  apply (tryworker_wakes_first_idle ex_params ex_env
           (set_uwqs (<[300 := ex_uwq [0; 400]]> ∅) ex_state) 300
           (ex_uwq [0; 400]) 1%nat 400 (MkWorker 300 500 false) (ex_proc 300));
    try reflexivity.
  - cbn. lia.
  - discriminate.
  - intros j Hj. assert (j = 0%nat) as -> by lia.
    exists 0. split; [reflexivity|now left].
Defined.

(** The paths through [uwq::allocworker]. *)
Lemma allocworker_cases P e s u p s1 t1 :
  allocworker P e s u = Some (p, s1, t1) →
  ∃ uq, uwqs s !! u = Some uq ∧
    let pa := (proc_alloc e).1 in
    let p1 := MkProc (vmap_ uq) (ftable_ uq) (p_uwq (proc_alloc e).2)
                (p_worker (proc_alloc e).2) (p_cpuid (proc_alloc e).2)
                (p_tf (proc_alloc e).2) uwq_worker_name in
    let top := wrap (ustack_ uq + USTACKPAGES P * PGSIZE P) in
    (p = 0 ∧ s1 = s ∧ t1 = [] ∧ (uentry_ uq = 0 ∨ pa = 0))
    ∨ (p = 0 ∧ uentry_ uq ≠ 0 ∧ pa ≠ 0
       ∧ s1 = set_procs (<[pa := p1]> (procs s)) s
       ∧ ((vmnode_alloc e = 0
           ∧ t1 = [EvIncref (vmap_ uq); EvIncref (ftable_ uq); EvFinishproc pa])
          ∨ (vmnode_alloc e ≠ 0 ∧ vmap_insert e < 0
             ∧ t1 = [EvIncref (vmap_ uq); EvIncref (ftable_ uq);
                     EvVmapInsert (vmnode_alloc e) (ustack_ uq);
                     EvDeleteVmnode (vmnode_alloc e); EvFinishproc pa])))
    ∨ (p = pa ∧ p ≠ 0 ∧ uentry_ uq ≠ 0 ∧ vmnode_alloc e ≠ 0
       ∧ 0 <= vmap_insert e
       ∧ s1 = set_uwqs
                (<[u := MkUwq (u_valid uq) (vmap_ uq) (ftable_ uq) (len_ uq)
                         (uentry_ uq)
                         (wrap (ustack_ uq
                                + (USTACKPAGES P * PGSIZE P + PGSIZE P)))
                         (uref_ uq) (worker_ uq)]> (uwqs s))
                (set_procs
                   (<[pa := MkProc (vmap_ uq) (ftable_ uq) (p_uwq p1)
                              (p_worker p1) (p_cpuid p1)
                              (MkTf (wrap (top - 8)) (uentry_ uq)
                                 (Z.lor (UCSEG P) 3) (Z.lor (UDSEG P) 3)
                                 (Z.lor (UDSEG P) 3) (FL_IF P))
                              uwq_worker_name]>
                      (<[pa := p1]> (procs s)))
                   (set_procs (<[pa := p1]> (procs s)) s))
       ∧ t1 = [EvIncref (vmap_ uq); EvIncref (ftable_ uq);
               EvVmapInsert (vmnode_alloc e) (ustack_ uq)]).
Proof.
  unfold allocworker. intros H.
  destruct (uwqs s !! u) as [uq|] eqn:Hu; [|discriminate]. cbn in H.
  exists uq. split; [done|]. cbn zeta.
  destruct (Z.eqb_spec (uentry_ uq) 0) as [He|He].
  { injection H as <- <- <-. left. auto. }
  destruct (proc_alloc e) as [pa fresh]. cbn [fst snd].
  destruct (Z.eqb_spec pa 0) as [Hpa|Hpa].
  { injection H as <- <- <-. left. auto. }
  destruct (Z.eqb_spec (vmnode_alloc e) 0) as [Hv|Hv].
  { injection H as <- <- <-. right. left. repeat split; auto. }
  destruct (Z.ltb_spec (vmap_insert e) 0) as [Hi|Hi].
  { injection H as <- <- <-. right. left. repeat split; auto. }
  injection H as <- <- <-. right. right. repeat split; auto.
Qed.

Lemma wrap_small z : 0 <= z < modulus → wrap z = z.
Proof. intros Hz. now apply is_word_land_ones. Qed.

Lemma allocworker_success P e s u uq :
  uwqs s !! u = Some uq →
  uentry_ uq ≠ 0 → (proc_alloc e).1 ≠ 0 → vmnode_alloc e ≠ 0 →
  0 <= vmap_insert e →
  ∃ s1 t1, allocworker P e s u = Some ((proc_alloc e).1, s1, t1)
    ∧ t1 = [EvIncref (vmap_ uq); EvIncref (ftable_ uq);
            EvVmapInsert (vmnode_alloc e) (ustack_ uq)]
    ∧ uwqs s1 = <[u := MkUwq (u_valid uq) (vmap_ uq) (ftable_ uq) (len_ uq)
                         (uentry_ uq)
                         (wrap (ustack_ uq
                                + (USTACKPAGES P * PGSIZE P + PGSIZE P)))
                         (uref_ uq) (worker_ uq)]> (uwqs s)
    ∧ workers s1 = workers s ∧ runq s1 = runq s ∧ cpus s1 = cpus s
    ∧ (∃ po, procs s1 !! (proc_alloc e).1 = Some po
             ∧ p_uwq po = p_uwq (proc_alloc e).2
             ∧ rsp (p_tf po)
               = wrap (wrap (ustack_ uq + USTACKPAGES P * PGSIZE P) - 8)
             ∧ rip (p_tf po) = uentry_ uq)
    ∧ (∀ q, q ≠ (proc_alloc e).1 → procs s1 !! q = procs s !! q).
Proof.
  intros Hu He Hpa Hv Hi.
  destruct (allocworker_total P e s u) as [[[p s1] t1] Hrun]; [eauto|].
  destruct (allocworker_cases _ _ _ _ _ _ _ Hrun) as (uq' & Hu' & Hcases).
  assert (uq' = uq) as -> by congruence. cbn zeta in Hcases.
  destruct Hcases as [(_ & _ & _ & [H|H])
                     |[(_ & _ & _ & _ & [(H & _)|(_ & H & _)])
                      |(-> & _ & _ & _ & _ & -> & ->)]];
    try contradiction; try lia.
  eexists _, _. split; [exact Hrun|]. repeat split.
  - eexists. cbn. rewrite lookup_insert_eq. repeat split.
  - intros q Hq. cbn. now rewrite !lookup_insert_ne by done.
Qed.

Lemma worker_scan_skip e s wk pre : ∀ rest slot,
  (∀ j, j ∈ pre → ∃ w' wo', wk !! j = Some w' ∧ w' ≠ 0
                            ∧ workers s !! w' = Some wo' ∧ running_ wo' = true) →
  worker_scan e s wk (pre ++ rest) slot = worker_scan e s wk rest slot.
Proof.
  induction pre as [|j pre IH]; intros rest slot Hpre; [done|].
  cbn. destruct (Hpre j) as (w' & wo' & Hj & Hne & Hwo & Hr); [now left|].
  rewrite Hj. cbn. apply Z.eqb_neq in Hne. rewrite Hne, Hwo. cbn. rewrite Hr.
  apply IH. intros k Hk. apply Hpre. now right.
Qed.

Lemma worker_scan_busy e s wk idx : ∀ slot,
  slot ≠ -1 →
  (∀ j, j ∈ idx → ∃ w', wk !! j = Some w' ∧
     (w' = 0 ∨ ∃ wo', workers s !! w' = Some wo' ∧ running_ wo' = true)) →
  worker_scan e s wk idx slot = Some (ScanDone slot).
Proof.
  induction idx as [|j idx IH]; intros slot Hslot Hidx; [done|].
  cbn. destruct (Hidx j) as (w' & -> & Hcase); [now left|]. cbn.
  assert (Hrest : ∀ k, k ∈ idx → ∃ w', wk !! k = Some w' ∧
     (w' = 0 ∨ ∃ wo', workers s !! w' = Some wo' ∧ running_ wo' = true))
    by (intros k Hk; apply Hidx; now right).
  apply Z.eqb_neq in Hslot as Hs.
  destruct Hcase as [->|(wo' & Hwo' & Hr)].
  - cbn. rewrite Hs. now apply IH.
  - destruct (Z.eqb_spec w' 0) as [_|_]; [rewrite Hs; now apply IH|].
    rewrite Hwo'. cbn. rewrite Hr. now apply IH.
Qed.

(** The scan of the worker array when no worker can be woken: it ends
    with the first empty slot. *)
Lemma worker_scan_first_free e s wk n i :
  (i < n)%nat →
  wk !! i = Some 0 →
  (∀ j, (j < i)%nat → ∃ w' wo', wk !! j = Some w' ∧ w' ≠ 0
        ∧ workers s !! w' = Some wo' ∧ running_ wo' = true) →
  (∀ j, (i < j < n)%nat → ∃ w', wk !! j = Some w' ∧
     (w' = 0 ∨ ∃ wo', workers s !! w' = Some wo' ∧ running_ wo' = true)) →
  worker_scan e s wk (seq 0 n) (-1) = Some (ScanDone (Z.of_nat i)).
Proof.
  intros Hi Hslot Hpre Hpost.
  rewrite (seq_split_at _ _ Hi), worker_scan_skip.
  2:{ intros j Hj. apply elem_of_seq in Hj. apply Hpre. lia. }
  cbn [worker_scan]. rewrite Hslot. cbn.
  apply worker_scan_busy; [lia|].
  intros j Hj. apply elem_of_seq in Hj. apply Hpost. lia.
Qed.

(** [tryworker] after a scan that found no worker to wake but an empty
    slot, when all allocations succeed. *)
Lemma tryworker_after_scan P e s u uq slot :
  uwqs s !! u = Some uq → u_valid uq = true →
  worker_scan e s (worker_ uq) (seq 0 (NWORKERS P)) (-1) = Some (ScanDone slot) →
  slot ≠ -1 →
  uentry_ uq ≠ 0 → (proc_alloc e).1 ≠ 0 → vmnode_alloc e ≠ 0 →
  0 <= vmap_insert e → worker_alloc e ≠ 0 →
  ∃ s' t1 uq' po',
    tryworker_ret P e s u
    = Some (RetTrue, s', t1 ++ [EvAddrun (proc_alloc e).1])
    ∧ uwqs s' !! u = Some uq'
    ∧ worker_ uq' = <[Z.to_nat slot := worker_alloc e]> (worker_ uq)
    ∧ uref_ uq' = wrap (uref_ uq + 1)
    ∧ workers s' = <[worker_alloc e := MkWorker u (proc_alloc e).1 true]> (workers s)
    ∧ procs s' !! (proc_alloc e).1 = Some po'
    ∧ p_worker po' = worker_alloc e ∧ p_cpuid po' = mycpuid e
    ∧ runq s' = runq s ++ [(proc_alloc e).1].
Proof.
  intros Hu Hvalid Hscan Hslot He Hpa Hv Hins Hw.
  destruct (allocworker_success P e s u uq Hu He Hpa Hv Hins)
    as (s1 & t1 & Halloc & Ht1 & Huq1 & Hwk1 & Hrq1 & _ & (po & Hpo & _) & _).
  unfold tryworker_ret. rewrite Hu. cbn. rewrite Hvalid. cbn.
  rewrite Hscan. cbn.
  apply Z.eqb_neq in Hslot as Hs. rewrite Hs. cbn.
  rewrite Halloc. cbn.
  apply Z.eqb_neq in Hpa as Hpa', Hw as Hw'. rewrite Hpa', Hw'. cbn.
  rewrite Huq1, lookup_insert_eq. cbn. rewrite Hpo. cbn.
  eexists _, t1, _, _. split; [reflexivity|]. cbn.
  rewrite !lookup_insert_eq, Hwk1, Hrq1. repeat split.
Qed.

(** X13: when every worker of a valid queue is running, [tryworker]
    allocates a worker and stores it in the first empty slot of the
    array: the new worker object belongs to the queue and to the new
    process and is running, the process carries the worker and the
    calling CPU and is appended to the run queue, and the queue's worker
    count has gone up by one. *)
Theorem tryworker_fills_first_slot P e s u uq i :
  uwqs s !! u = Some uq → u_valid uq = true →
  (i < NWORKERS P)%nat →
  worker_ uq !! i = Some 0 →
  (∀ j, (j < i)%nat → ∃ w' wo', worker_ uq !! j = Some w' ∧ w' ≠ 0
        ∧ workers s !! w' = Some wo' ∧ running_ wo' = true) →
  (∀ j, (i < j < NWORKERS P)%nat → ∃ w', worker_ uq !! j = Some w' ∧
     (w' = 0 ∨ ∃ wo', workers s !! w' = Some wo' ∧ running_ wo' = true)) →
  uentry_ uq ≠ 0 → (proc_alloc e).1 ≠ 0 → vmnode_alloc e ≠ 0 →
  0 <= vmap_insert e → worker_alloc e ≠ 0 →
  ∃ s' t,
    tryworker_ret P e s u = Some (RetTrue, s', t)
    ∧ last t = Some (EvAddrun (proc_alloc e).1)
    ∧ worker_ <$> uwqs s' !! u = Some (<[i := worker_alloc e]> (worker_ uq))
    ∧ uref_ <$> uwqs s' !! u = Some (wrap (uref_ uq + 1))
    ∧ workers s' = <[worker_alloc e := MkWorker u (proc_alloc e).1 true]> (workers s)
    ∧ p_worker <$> procs s' !! (proc_alloc e).1 = Some (worker_alloc e)
    ∧ p_cpuid <$> procs s' !! (proc_alloc e).1 = Some (mycpuid e)
    ∧ runq s' = runq s ++ [(proc_alloc e).1].
Proof.
  intros Hu Hvalid Hi Hslot Hpre Hpost He Hpa Hv Hins Hw.
  pose proof (worker_scan_first_free e s (worker_ uq) (NWORKERS P) i
                Hi Hslot Hpre Hpost) as Hscan.
  destruct (tryworker_after_scan P e s u uq (Z.of_nat i))
    as (s' & t1 & uq' & po' & Hrun & Huq' & Hwk & Href & Hws & Hpo & Hpw & Hpc & Hrq);
    auto; [lia|].
  exists s', (t1 ++ [EvAddrun (proc_alloc e).1]).
  rewrite Huq', Hpo. cbn. rewrite Hwk, Href, Hpw, Hpc, Nat2Z.id.
  repeat split; auto. apply last_snoc.
Qed.

Lemma tryworker_fills_first_slot_witness :
  ∃ s' t,
    tryworker_ret ex_params ex_env ex_state_running 300 = Some (RetTrue, s', t)
    ∧ last t = Some (EvAddrun (proc_alloc ex_env).1)
    ∧ worker_ <$> uwqs s' !! 300
      = Some (<[1%nat := worker_alloc ex_env]> (worker_ (ex_uwq [400; 0])))
    ∧ uref_ <$> uwqs s' !! 300 = Some (wrap (uref_ (ex_uwq [400; 0]) + 1))
    ∧ workers s'
      = <[worker_alloc ex_env := MkWorker 300 (proc_alloc ex_env).1 true]>
          (workers ex_state_running)
    ∧ p_worker <$> procs s' !! (proc_alloc ex_env).1 = Some (worker_alloc ex_env)
    ∧ p_cpuid <$> procs s' !! (proc_alloc ex_env).1 = Some (mycpuid ex_env)
    ∧ runq s' = runq ex_state_running ++ [(proc_alloc ex_env).1].
Proof.
  apply (tryworker_fills_first_slot ex_params ex_env ex_state_running 300
           (ex_uwq [400; 0]) 1%nat); try reflexivity; try discriminate.
  - cbn. lia.
  - intros j Hj. assert (j = 0%nat) as -> by lia.
    exists 400, (MkWorker 300 500 true). repeat split. discriminate.
  - intros j Hj. cbn in Hj. lia.
Defined.

(** The paths on which [tryworker] starts no worker: the memory is as
    before, or it differs in the process that was allocated and then
    given up. *)
Lemma tryworker_ret_failure P e s u r s' t :
  tryworker_ret P e s u = Some (r, s', t) →
  bool_of_ret r = false →
  (s' = s ∧ t = [])
  ∨ (∃ p1, s' = set_procs (<[(proc_alloc e).1 := p1]> (procs s)) s ∧ t ≠ []).
Proof.
  unfold tryworker_ret. intros H Hr.
  destruct (uwqs s !! u) as [uq|] eqn:Hu; [|discriminate]. cbn in H.
  destruct (u_valid uq); cbn in H; [|injection H as <- <- <-; auto].
  destruct (worker_scan e s (worker_ uq) (seq 0 (NWORKERS P)) (-1))
    as [[s0 t0|slot]|]; [| |discriminate]; cbn in H.
  { injection H as <- <- <-. discriminate. }
  destruct (slot =? -1); cbn in H; [injection H as <- <- <-; auto|].
  destruct (allocworker P e s u) as [[[p s1] t1]|] eqn:Halloc; [|discriminate].
  cbn in H.
  destruct (Z.eqb_spec p 0) as [->|Hp]; cbn in H.
  - injection H as <- <- <-.
    destruct (allocworker_cases _ _ _ _ _ _ _ Halloc) as (uq' & _ & Hcases).
    cbn zeta in Hcases.
    destruct Hcases as [(_ & -> & -> & _)
                       |[(_ & _ & Hpa & -> & Ht)|(_ & Hne & _)]];
      [auto| |contradiction].
    right. eexists. split; [reflexivity|].
    destruct Ht as [(_ & ->)|(_ & _ & ->)]; discriminate.
  - destruct (worker_alloc e =? 0); [discriminate|].
    destruct (uwqs s1 !! u); [|discriminate]. cbn in H.
    destruct (procs s1 !! p); [|discriminate]. cbn in H.
    injection H as <- <- <-. discriminate.
Qed.

(** X14: a call of [tryworker] that does not return [true] leaves the
    queue objects, the workers, the run queue and the CPUs as they were;
    the only object that may differ is the process that [proc::alloc]
    handed out during the call. *)
Theorem tryworker_failure_frame P e s u r s' t :
  tryworker_ret P e s u = Some (r, s', t) →
  bool_of_ret r = false →
  uwqs s' = uwqs s ∧ workers s' = workers s ∧ runq s' = runq s
  ∧ cpus s' = cpus s
  ∧ (∀ q, q ≠ (proc_alloc e).1 → procs s' !! q = procs s !! q)
  ∧ (t = [] → s' = s).
Proof.
  intros H Hr.
  destruct (tryworker_ret_failure _ _ _ _ _ _ _ H Hr)
    as [(-> & ->)|(p1 & -> & Ht)].
  - repeat split.
  - repeat split.
    + intros q Hq. cbn. now rewrite lookup_insert_ne.
    + intros Hnil. contradiction.
Qed.

Lemma tryworker_failure_frame_witness :
  tryworker_ret ex_params (MkEnv 0 7 (600, ex_proc 0) 0 0 1000)
    ex_state_running 300
  = Some (RetNullptr,
          set_procs (<[600 := MkProc 700 800 0 0 0 (MkTf 0 0 0 0 0 0)
                                uwq_worker_name]> (procs ex_state_running))
            ex_state_running,
          [EvIncref 700; EvIncref 800; EvFinishproc 600])
  ∧ procs ex_state_running !! 500 = Some (ex_proc 300).
Proof.
  split; [reflexivity|].
  pose proof (tryworker_failure_frame ex_params
                (MkEnv 0 7 (600, ex_proc 0) 0 0 1000) ex_state_running 300
                RetNullptr _ _ eq_refl eq_refl) as (_ & _ & _ & _ & Hp & _).
  rewrite <- (Hp 500); [reflexivity|discriminate].
Defined.

(** X15: [allocworker] returns a process exactly when the queue has an
    entry point and [proc::alloc], the allocation of the stack and its
    insertion into the address space all succeed.  When it returns null
    the queue is as before, so that no stack address is used up; a
    process that had been allocated is passed to [finishproc] as the last
    step, and a stack that could not be inserted is deleted first. *)
Theorem allocworker_failure_cleanup P e s u p s1 t1 :
  allocworker P e s u = Some (p, s1, t1) →
  ∃ uq, uwqs s !! u = Some uq
    ∧ (p ≠ 0 ↔ uentry_ uq ≠ 0 ∧ (proc_alloc e).1 ≠ 0
               ∧ vmnode_alloc e ≠ 0 ∧ 0 <= vmap_insert e)
    ∧ (p ≠ 0 → p = (proc_alloc e).1)
    ∧ (p = 0 →
       uwqs s1 = uwqs s
       ∧ (uentry_ uq ≠ 0 → (proc_alloc e).1 ≠ 0 →
          last t1 = Some (EvFinishproc (proc_alloc e).1))
       ∧ (∀ vmn a, EvVmapInsert vmn a ∈ t1 → EvDeleteVmnode vmn ∈ t1)).
Proof.
  intros H. destruct (allocworker_cases _ _ _ _ _ _ _ H) as (uq & Hu & Hcases).
  exists uq. split; [exact Hu|]. cbn zeta in Hcases.
  destruct Hcases as [(-> & -> & -> & Hor)
                     |[(-> & He & Hpa & -> & Ht)
                      |(-> & Hp & He & Hv & Hi & -> & ->)]].
  - repeat split; try congruence.
    + intros [He [Hpa _]]. destruct Hor; contradiction.
    + intros He Hpa. destruct Hor; contradiction.
    + intros vmn a Hin. now apply elem_of_nil in Hin.
  - repeat split; try congruence.
    + intros (_ & _ & Hv & Hi).
      destruct Ht as [(Hv' & _)|(_ & Hi' & _)]; [contradiction|lia].
    + intros _ _. destruct Ht as [(_ & ->)|(_ & _ & ->)]; reflexivity.
    + intros vmn a Hin. destruct Ht as [(_ & ->)|(_ & _ & ->)].
      * repeat (apply elem_of_cons in Hin as [Hin|Hin]; [discriminate|]).
        now apply elem_of_nil in Hin.
      * do 2 (apply elem_of_cons in Hin as [Hin|Hin]; [discriminate|]).
        apply elem_of_cons in Hin as [Hin|Hin].
        -- injection Hin as -> ->. do 3 apply list_elem_of_further.
           apply list_elem_of_here.
        -- repeat (apply elem_of_cons in Hin as [Hin|Hin]; [discriminate|]).
           now apply elem_of_nil in Hin.
  - repeat split; auto; try contradiction.
Qed.

Lemma allocworker_failure_cleanup_witness :
  ∃ uq, uwqs ex_state !! 300 = Some uq
    ∧ (0 ≠ 0 ↔ uentry_ uq ≠ 0 ∧ (proc_alloc (MkEnv 0 7 (600, ex_proc 0) 900 (-1) 1000)).1 ≠ 0
               ∧ vmnode_alloc (MkEnv 0 7 (600, ex_proc 0) 900 (-1) 1000) ≠ 0
               ∧ 0 <= vmap_insert (MkEnv 0 7 (600, ex_proc 0) 900 (-1) 1000))
    ∧ (0 ≠ 0 → 0 = (proc_alloc (MkEnv 0 7 (600, ex_proc 0) 900 (-1) 1000)).1)
    ∧ (0 = 0 →
       uwqs (set_procs (<[600 := MkProc 700 800 0 0 0 (MkTf 0 0 0 0 0 0)
                                   uwq_worker_name]> (procs ex_state)) ex_state)
       = uwqs ex_state
       ∧ (uentry_ uq ≠ 0 → (proc_alloc (MkEnv 0 7 (600, ex_proc 0) 900 (-1) 1000)).1 ≠ 0 →
          last [EvIncref 700; EvIncref 800; EvVmapInsert 900 1048576;
                EvDeleteVmnode 900; EvFinishproc 600]
          = Some (EvFinishproc (proc_alloc (MkEnv 0 7 (600, ex_proc 0) 900 (-1) 1000)).1))
       ∧ (∀ vmn a,
            EvVmapInsert vmn a ∈ [EvIncref 700; EvIncref 800;
                                  EvVmapInsert 900 1048576;
                                  EvDeleteVmnode 900; EvFinishproc 600] →
            EvDeleteVmnode vmn ∈ [EvIncref 700; EvIncref 800;
                                  EvVmapInsert 900 1048576;
                                  EvDeleteVmnode 900; EvFinishproc 600])).
Proof.
  apply (allocworker_failure_cleanup ex_params
           (MkEnv 0 7 (600, ex_proc 0) 900 (-1) 1000) ex_state 300).
  reflexivity.
Defined.

(** X16: two workers allocated one after the other for the same queue
    get stacks that do not overlap.  As long as the addresses do not wrap
    around, the first stack is inserted at the queue's [ustack_], the
    second one a stack and a page further up, so that a page stays free
    between them, and each worker's initial stack pointer lies eight
    bytes below the top of its own stack. *)
Theorem allocworker_stacks_apart P e1 e2 s u uq :
  uwqs s !! u = Some uq →
  uentry_ uq ≠ 0 →
  (proc_alloc e1).1 ≠ 0 → vmnode_alloc e1 ≠ 0 → 0 <= vmap_insert e1 →
  (proc_alloc e2).1 ≠ 0 → vmnode_alloc e2 ≠ 0 → 0 <= vmap_insert e2 →
  (proc_alloc e1).1 ≠ (proc_alloc e2).1 →
  0 < PGSIZE P → 8 <= USTACKPAGES P * PGSIZE P →
  0 <= ustack_ uq →
  ustack_ uq + 2 * (USTACKPAGES P * PGSIZE P + PGSIZE P) < modulus →
  let sz := USTACKPAGES P * PGSIZE P in
  let b1 := ustack_ uq in
  let b2 := ustack_ uq + sz + PGSIZE P in
  ∃ s1 t1 s2 t2,
    allocworker P e1 s u = Some ((proc_alloc e1).1, s1, t1)
    ∧ allocworker P e2 s1 u = Some ((proc_alloc e2).1, s2, t2)
    ∧ EvVmapInsert (vmnode_alloc e1) b1 ∈ t1
    ∧ EvVmapInsert (vmnode_alloc e2) b2 ∈ t2
    ∧ b1 + sz < b2
    ∧ (rsp ∘ p_tf) <$> procs s2 !! (proc_alloc e1).1 = Some (b1 + sz - 8)
    ∧ (rsp ∘ p_tf) <$> procs s2 !! (proc_alloc e2).1 = Some (b2 + sz - 8)
    ∧ ustack_ <$> uwqs s2 !! u = Some (b2 + sz + PGSIZE P).
Proof.
  intros Hu He Hp1 Hv1 Hi1 Hp2 Hv2 Hi2 Hne Hpg Hsz Hst Hmax sz b1 b2.
  destruct (allocworker_success P e1 s u uq Hu He Hp1 Hv1 Hi1)
    as (s1 & t1 & Hrun1 & Ht1 & Huq1 & _ & _ & _ & (po1 & Hpo1 & _ & Hrsp1 & _) & _).
  assert (Hu1 : uwqs s1 !! u = Some
            (MkUwq (u_valid uq) (vmap_ uq) (ftable_ uq) (len_ uq) (uentry_ uq)
               (wrap (ustack_ uq + (USTACKPAGES P * PGSIZE P + PGSIZE P)))
               (uref_ uq) (worker_ uq)))
    by (rewrite Huq1; apply lookup_insert_eq).
  destruct (allocworker_success P e2 s1 u _ Hu1 He Hp2 Hv2 Hi2)
    as (s2 & t2 & Hrun2 & Ht2 & Huq2 & _ & _ & _ & (po2 & Hpo2 & _ & Hrsp2 & _) & Hfr).
  cbn [ustack_] in *.
  fold sz in Hrsp1, Hrsp2, Huq2, Ht2, Hmax, Hsz.
  rewrite (wrap_small (ustack_ uq + (sz + PGSIZE P))) in * by lia.
  rewrite (wrap_small (ustack_ uq + sz)) in Hrsp1 by lia.
  rewrite (wrap_small (ustack_ uq + sz - 8)) in Hrsp1 by lia.
  rewrite (wrap_small (ustack_ uq + (sz + PGSIZE P) + sz)) in Hrsp2 by lia.
  rewrite (wrap_small (ustack_ uq + (sz + PGSIZE P) + sz - 8)) in Hrsp2 by lia.
  rewrite (wrap_small (ustack_ uq + (sz + PGSIZE P) + (sz + PGSIZE P))) in Huq2
    by lia.
  exists s1, t1, s2, t2. repeat split; [exact Hrun1|exact Hrun2| | | | | |].
  - rewrite Ht1. do 2 apply list_elem_of_further. apply list_elem_of_here.
  - rewrite Ht2. do 2 apply list_elem_of_further.
    replace b2 with (ustack_ uq + (sz + PGSIZE P)) by (unfold b2; lia).
    apply list_elem_of_here.
  - unfold b1, b2. lia.
  - rewrite (Hfr _ Hne), Hpo1. cbn. now rewrite Hrsp1.
  - rewrite Hpo2. cbn. rewrite Hrsp2. f_equal. unfold b2. lia.
  - rewrite Huq2, lookup_insert_eq. cbn. f_equal. unfold b2. lia.
Qed.

Lemma allocworker_stacks_apart_witness :
  ∃ s1 t1 s2 t2,
    allocworker ex_params ex_env ex_state 300
    = Some ((proc_alloc ex_env).1, s1, t1)
    ∧ allocworker ex_params (MkEnv 0 7 (640, ex_proc 0) 940 0 1040) s1 300
      = Some (640, s2, t2)
    ∧ EvVmapInsert 900 1048576 ∈ t1
    ∧ EvVmapInsert 940 (1048576 + 8 * 4096 + 4096) ∈ t2
    ∧ 1048576 + 8 * 4096 < 1048576 + 8 * 4096 + 4096
    ∧ (rsp ∘ p_tf) <$> procs s2 !! 600 = Some (1048576 + 8 * 4096 - 8)
    ∧ (rsp ∘ p_tf) <$> procs s2 !! 640
      = Some (1048576 + 8 * 4096 + 4096 + 8 * 4096 - 8)
    ∧ ustack_ <$> uwqs s2 !! 300
      = Some (1048576 + 8 * 4096 + 4096 + 8 * 4096 + 4096).
Proof.
  apply (allocworker_stacks_apart ex_params ex_env
           (MkEnv 0 7 (640, ex_proc 0) 940 0 1040) ex_state 300
           (ex_uwq [400; 0])); try reflexivity; try discriminate.
Defined.

(** *** Well-formed memory stays well-formed *)

Lemma wf_insert_proc P s p po :
  wf P s → (p_uwq po ≠ 0 → is_Some (uwqs s !! p_uwq po)) →
  wf P (set_procs (<[p := po]> (procs s)) s).
Proof.
  intros [H1 H2 H3 H4 H5 H6] Hpo. split; cbn; auto.
  - intros q Hq Hq0. destruct (decide (p = q)) as [->|Hne].
    + rewrite lookup_insert_eq. eauto.
    + rewrite lookup_insert_ne by done. auto.
  - intros q qo Hq. destruct (decide (p = q)) as [->|Hne].
    + rewrite lookup_insert_eq in Hq. injection Hq as <-. exact Hpo.
    + rewrite lookup_insert_ne in Hq by done. eauto.
  - intros u uq w Hu Hin Hw0. destruct (H6 u uq w Hu Hin Hw0) as (wo & Hwo & Hp).
    exists wo. split; [done|]. destruct (decide (p = proc_ wo)) as [->|Hne].
    + rewrite lookup_insert_eq. eauto.
    + now rewrite lookup_insert_ne.
Qed.

Lemma wf_insert_worker P s w wo :
  wf P s → is_Some (procs s !! proc_ wo) →
  wf P (set_workers (<[w := wo]> (workers s)) s).
Proof.
  intros [H1 H2 H3 H4 H5 H6] Hwo. split; cbn; auto.
  intros u uq w' Hu Hin Hw0. destruct (decide (w = w')) as [->|Hne].
  - rewrite lookup_insert_eq. eauto.
  - rewrite lookup_insert_ne by done. eauto.
Qed.

Lemma wf_insert_uwq P s u uq uq' :
  wf P s → uwqs s !! u = Some uq →
  len_ uq' = len_ uq →
  length (worker_ uq') = NWORKERS P →
  (∀ w, w ∈ worker_ uq' → w ≠ 0 →
     ∃ wo, workers s !! w = Some wo ∧ is_Some (procs s !! proc_ wo)) →
  wf P (set_uwqs (<[u := uq']> (uwqs s)) s).
Proof.
  intros [H1 H2 H3 H4 H5 H6] Hu Hlen Hslots Hwk. split; cbn; auto.
  - intros p po Hp Hne. destruct (decide (u = p_uwq po)) as [->|Hneq].
    + rewrite lookup_insert_eq. eauto.
    + rewrite lookup_insert_ne by done. eauto.
  - intros v vq len Hv Hl. destruct (decide (u = v)) as [->|Hneq].
    + rewrite lookup_insert_eq in Hv. injection Hv as <-.
      rewrite Hlen in Hl. eauto.
    + rewrite lookup_insert_ne in Hv by done. eauto.
  - intros v vq Hv. destruct (decide (u = v)) as [->|Hneq].
    + rewrite lookup_insert_eq in Hv. now injection Hv as <-.
    + rewrite lookup_insert_ne in Hv by done. eauto.
  - intros v vq w Hv Hin Hw0. destruct (decide (u = v)) as [->|Hneq].
    + rewrite lookup_insert_eq in Hv. injection Hv as <-. auto.
    + rewrite lookup_insert_ne in Hv by done. eauto.
Qed.

Lemma wf_addrun P s p : wf P s → wf P (addrun p s).
Proof. intros [H1 H2 H3 H4 H5 H6]. split; cbn; auto. Qed.

(** The state after a scan that woke a worker. *)
Lemma worker_scan_woke_state e s wk idx : ∀ slot s' t,
  worker_scan e s wk idx slot = Some (ScanWoke s' t) →
  ∃ w wo po, workers s !! w = Some wo ∧ procs s !! proc_ wo = Some po
    ∧ s' = set_workers (<[w := set_running true wo]> (workers s))
             (set_procs (<[proc_ wo := set_cpuid (mycpuid e) po]> (procs s)) s).
Proof.
  induction idx as [|i idx IH]; intros slot s' t H; cbn in H; [discriminate|].
  destruct (wk !! i) as [w|]; [|discriminate]. cbn in H.
  destruct (w =? 0); [eauto|].
  destruct (workers s !! w) as [wo|] eqn:Hwo; [|discriminate]. cbn in H.
  destruct (running_ wo); [eauto|].
  destruct (procs s !! proc_ wo) as [po|] eqn:Hpo; [|discriminate]. cbn in H.
  injection H as <- <-. exists w, wo, po. auto.
Qed.

Lemma list_elem_of_insert_inv (l : list Z) i x y :
  y ∈ <[i := x]> l → y = x ∨ y ∈ l.
Proof.
  intros Hin. apply list_elem_of_lookup in Hin as [j Hj].
  destruct (decide (i = j)) as [->|Hne].
  - destruct (decide (j < length l)%nat) as [Hlt|Hge].
    + rewrite list_lookup_insert_eq in Hj by done. left. congruence.
    + rewrite list_insert_ge in Hj by lia. right.
      eapply list_elem_of_lookup_2, Hj.
  - rewrite list_lookup_insert_ne in Hj by done. right.
    eapply list_elem_of_lookup_2, Hj.
Qed.

Lemma allocworker_wf P e s u p s1 t1 :
  wf P s → p_uwq (proc_alloc e).2 = 0 →
  allocworker P e s u = Some (p, s1, t1) → wf P s1.
Proof.
  intros Hwf Hfresh H.
  destruct (allocworker_cases _ _ _ _ _ _ _ H) as (uq & Hu & Hcases).
  cbn zeta in Hcases.
  destruct Hcases as [(_ & -> & _)
                     |[(_ & _ & _ & -> & _)|(_ & _ & _ & _ & _ & -> & _)]].
  - exact Hwf.
  - apply wf_insert_proc; [exact Hwf|]. cbn. intros Hne. now rewrite Hfresh in Hne.
  - match goal with
    | |- wf P (set_uwqs (<[u := ?uq']> _) (set_procs (<[?pa := ?p2]> _) ?sa)) =>
        assert (Hwfa : wf P sa)
          by (apply wf_insert_proc; [exact Hwf|];
              cbn; intros Hne; now rewrite Hfresh in Hne);
        assert (Hwfb : wf P (set_procs (<[pa := p2]> (procs sa)) sa))
          by (apply wf_insert_proc; [exact Hwfa|];
              cbn; intros Hne; now rewrite Hfresh in Hne);
        apply (wf_insert_uwq P (set_procs (<[pa := p2]> (procs sa)) sa) u uq uq')
    end; cbn.
    + exact Hwfb.
    + exact Hu.
    + reflexivity.
    + exact (wf_slots P s Hwf u uq Hu).
    + intros w Hin Hw0.
      destruct (wf_worker P s Hwf u uq w Hu Hin Hw0) as (wo & Hwo & Hp).
      exists wo. split; [done|].
      destruct (decide ((proc_alloc e).1 = proc_ wo)) as [Heq|Hne].
      * rewrite Heq, lookup_insert_eq. eauto.
      * now rewrite !lookup_insert_ne by done.
Qed.

Lemma tryworker_wf P e s u b s' t :
  wf P s → p_uwq (proc_alloc e).2 = 0 →
  tryworker P e s u = Some (b, s', t) → wf P s'.
Proof.
  unfold tryworker, tryworker_ret. intros Hwf Hfresh H.
  destruct (uwqs s !! u) as [uq|] eqn:Hu; [|discriminate]. cbn in H.
  destruct (u_valid uq); cbn in H; [|now injection H as <- <- <-].
  destruct (worker_scan e s (worker_ uq) (seq 0 (NWORKERS P)) (-1))
    as [[s0 t0|slot]|] eqn:Hscan; [| |discriminate]; cbn in H.
  { injection H as <- <- <-.
    destruct (worker_scan_woke_state _ _ _ _ _ _ _ Hscan)
      as (w & wo & po & Hwo & Hpo & ->).
    apply (wf_insert_worker P
             (set_procs (<[proc_ wo := set_cpuid (mycpuid e) po]> (procs s)) s));
      cbn.
    - apply wf_insert_proc; [exact Hwf|]. cbn.
      exact (wf_uwq P s Hwf _ _ Hpo).
    - rewrite lookup_insert_eq. eauto. }
  pose proof (worker_scan_slot _ _ _ _ _ _ Hscan (or_introl eq_refl)) as Hslot.
  destruct (Z.eqb_spec slot (-1)) as [_|Hs]; cbn in H;
    [now injection H as <- <- <-|].
  destruct Hslot as [?|Hslot]; [contradiction|].
  destruct (allocworker P e s u) as [[[p s1] t1]|] eqn:Halloc; [|discriminate].
  cbn in H. pose proof (allocworker_wf _ _ _ _ _ _ _ Hwf Hfresh Halloc) as Hwf1.
  destruct (allocworker_spec _ _ _ _ _ _ _ Halloc)
    as (_ & _ & _ & Hworkers & _ & Huq1 & _).
  destruct (allocworker_cases _ _ _ _ _ _ _ Halloc) as (uq0 & Hu0 & Hcases).
  destruct (p =? 0); cbn in H; [now injection H as <- <- <-|].
  destruct (worker_alloc e =? 0); [discriminate|].
  destruct (uwqs s1 !! u) as [uq1|] eqn:Hu1; [|discriminate]. cbn in H.
  destruct (procs s1 !! p) as [po|] eqn:Hpo; [|discriminate]. cbn in H.
  injection H as <- <- <-.
  destruct (Huq1 uq Hu) as (uq1' & Hu1' & Hwk).
  assert (uq1' = uq1) as -> by congruence.
  set (w := worker_alloc e).
  set (po' := set_cpuid (mycpuid e) (set_worker w po)).
  set (s2 := set_workers (<[w := MkWorker u p true]> (workers s1))
               (set_procs (<[p := po']> (procs s1)) s1)).
  assert (Hwf2 : wf P s2).
  { apply (wf_insert_worker P (set_procs (<[p := po']> (procs s1)) s1));
      cbn; [|rewrite lookup_insert_eq; eauto].
    apply wf_insert_proc; [exact Hwf1|]. cbn.
    exact (wf_uwq P s1 Hwf1 _ _ Hpo). }
  match goal with
  | |- wf P (MkState _ _ _ (<[u := ?uq2]> _) _) =>
      change (wf P (addrun p (set_uwqs (<[u := uq2]> (uwqs s2)) s2)))
  end.
  apply wf_addrun, (wf_insert_uwq P s2 u uq1); cbn; auto.
  - rewrite length_insert. exact (wf_slots P s1 Hwf1 u uq1 Hu1).
  - intros w' Hin Hw0. apply list_elem_of_insert_inv in Hin as [->|Hin].
    + exists (MkWorker u p true). cbn. rewrite !lookup_insert_eq. eauto.
    + destruct (wf_worker P s1 Hwf1 u uq1 w' Hu1 Hin Hw0) as (wo & Hwo & Hp).
      destruct (decide (w = w')) as [<-|Hne].
      * exists (MkWorker u p true). cbn. rewrite !lookup_insert_eq. eauto.
      * exists wo. rewrite lookup_insert_ne by done. split; [done|].
        destruct (decide (p = proc_ wo)) as [->|Hnp].
        -- rewrite lookup_insert_eq. eauto.
        -- now rewrite lookup_insert_ne.
Qed.

(** A run of the loop is a sequence of looks at other CPUs, followed by
    at most one call of [tryworker] on the initial memory. *)
Lemma trywork_loop_split decl P e idx : ∀ s d b s' t,
  trywork_loop decl P e idx s d = Some (b, s', t) →
  ∃ steps t', t = steps ++ t' ∧ Forall quiet_event steps
    ∧ ((b = false ∧ s' = s ∧ t' = [])
       ∨ ∃ u, tryworker P e s u = Some (b, s', t')).
Proof.
  induction idx as [|i idx IH]; intros s d b s' t H; cbn [trywork_loop] in H.
  - injection H as <- <- <-. exists [], [].
    split; [done|]. split; [constructor|]. left. auto.
  - generalize dependent (wrap (Z.of_nat i + rdtsc e) `mod` Z.of_nat (NCPU P)).
    intros j H.
    destruct (j =? mycpuid e); [eauto|].
    destruct (cpus s !! Z.to_nat j) as [p|]; [|discriminate].
    cbn [mbind option_bind] in H.
    pose proof (guard_scope decl d) as Hscope.
    destruct (Gc.declare decl d) as [xgc d1]. cbn [fst snd] in *.
    rewrite Hscope in H.
    assert (Hcont : ∀ tm, Forall quiet_event tm →
      ('(b0, s0, t0) ← trywork_loop decl P e idx s d;
       Some (b0, s0, tm ++ t0)) = Some (b, s', t) →
      ∃ steps t', t = steps ++ t' ∧ Forall quiet_event steps
        ∧ ((b = false ∧ s' = s ∧ t' = [])
           ∨ ∃ u, tryworker P e s u = Some (b, s', t'))).
    { intros tm Htm Hrun. apply continue_inv in Hrun as (t0 & Hrest & ->).
      destruct (IH _ _ _ _ _ Hrest) as (steps & t' & -> & Hq & Hcase).
      exists (tm ++ steps), t'. rewrite app_assoc. split; [done|].
      split; [|exact Hcase]. apply Forall_app. auto. }
    destruct (p =? 0); [apply Hcont in H; [exact H|repeat constructor]|].
    destruct (procs s !! p) as [po|]; [|discriminate].
    cbn [mbind option_bind] in H.
    destruct (p_uwq po =? 0); [apply Hcont in H; [exact H|repeat constructor]|].
    destruct (uwqs s !! p_uwq po) as [uq|]; [|discriminate].
    cbn [mbind option_bind] in H.
    destruct (haswork P uq) as [[|]|]; [| |discriminate];
      cbn [mbind option_bind] in H.
    + destruct (tryworker P e s (p_uwq po)) as [[[r s0] t0]|] eqn:Hrun;
        [|discriminate].
      cbn [mbind option_bind] in H.
      assert (b = r ∧ s' = s0
              ∧ t = [EvReadProc j d1; EvHaswork j (p_uwq po) d1;
                     EvTryworker j (p_uwq po) d1] ++ t0)
        as (-> & -> & ->) by (destruct r; injection H as <- <- <-; auto).
      eexists _, t0. split; [reflexivity|]. split; [repeat constructor|].
      right. eauto.
    + apply Hcont in H; [exact H|repeat constructor].
Qed.

(** X17: [uwq_trywork] keeps the memory well-formed.  When every pointer
    it may follow leads to an object before the call, and [proc::alloc]
    hands out processes without a work queue, the same holds after the
    call; so the next call, from any CPU and at any time, returns as
    well. *)
Theorem uwq_trywork_keeps_wf P e s d b s' t :
  wf P s → p_uwq (proc_alloc e).2 = 0 →
  uwq_trywork P e s d = Some (b, s', t) →
  wf P s'
  ∧ (∀ e' d', worker_alloc e' ≠ 0 → is_Some (uwq_trywork P e' s' d')).
Proof.
  intros Hwf Hfresh H.
  assert (Hwf' : wf P s').
  { destruct (trywork_loop_split _ _ _ _ _ _ _ _ _ H)
      as (steps & t' & _ & _ & [(_ & -> & _)|(u & Hrun)]); [exact Hwf|].
    exact (tryworker_wf _ _ _ _ _ _ _ Hwf Hfresh Hrun). }
  split; [exact Hwf'|]. intros e' d' Hw.
  apply trywork_loop_total; [done..|].
  destruct (NCPU P); [now left|right; lia].
Qed.

Lemma ex_state_running_wf : wf ex_params ex_state_running.
Proof.
  split.
  - reflexivity.
  - intros p Hp Hp0. cbn in Hp.
    repeat (apply elem_of_cons in Hp as [->|Hp]; [cbn; eauto|]).
    now apply elem_of_nil in Hp.
  - intros p po Hp Hne. cbn in Hp.
    destruct (decide (p = 100)) as [->|H1]; [injection Hp as <-; now destruct Hne|].
    rewrite lookup_insert_ne in Hp by done.
    destruct (decide (p = 200)) as [->|H2]; [injection Hp as <-; cbn; eauto|].
    rewrite lookup_insert_ne in Hp by done.
    destruct (decide (p = 500)) as [->|H3]; [injection Hp as <-; cbn; eauto|].
    rewrite lookup_insert_ne in Hp by done. discriminate.
  - intros u uq len Hu Hlen. cbn in Hu.
    destruct (decide (u = 300)) as [->|H1];
      [injection Hu as <-; now injection Hlen as <-|].
    rewrite lookup_insert_ne in Hu by done. discriminate.
  - intros u uq Hu. cbn in Hu.
    destruct (decide (u = 300)) as [->|H1]; [now injection Hu as <-|].
    rewrite lookup_insert_ne in Hu by done. discriminate.
  - intros u uq w Hu Hin Hw0. cbn in Hu.
    destruct (decide (u = 300)) as [->|H1].
    + injection Hu as <-. cbn in Hin.
      apply elem_of_cons in Hin as [->|Hin]; [cbn; eauto|].
      apply elem_of_cons in Hin as [->|Hin]; [now destruct Hw0|].
      now apply elem_of_nil in Hin.
    + rewrite lookup_insert_ne in Hu by done. discriminate.
Qed.

Lemma uwq_trywork_keeps_wf_witness :
  ∃ s', uwq_trywork ex_params ex_env ex_state_running 0%nat
        = Some (true, s', [EvReadProc 1 0; EvHaswork 1 300 0;
                           EvTryworker 1 300 0; EvIncref 700; EvIncref 800;
                           EvVmapInsert 900 1048576; EvAddrun 600])
        ∧ wf ex_params s'
        ∧ (∀ e' d', worker_alloc e' ≠ 0 →
             is_Some (uwq_trywork ex_params e' s' d')).
Proof.
  eexists. split; [reflexivity|].
  apply (uwq_trywork_keeps_wf ex_params ex_env ex_state_running 0%nat true _
           [EvReadProc 1 0; EvHaswork 1 300 0; EvTryworker 1 300 0;
            EvIncref 700; EvIncref 800; EvVmapInsert 900 1048576;
            EvAddrun 600]).
  - exact ex_state_running_wf.
  - reflexivity.
  - reflexivity.
Defined.

(** X20: the result of [uwq_trywork] says whether a worker was started:
    it is [true] exactly when the call has woken a worker or has put a
    new one on the run queue, and after a result of [false] the run
    queue, the workers and the queues are as they were. *)
Theorem uwq_trywork_true_iff_started P e s d b s' t :
  uwq_trywork P e s d = Some (b, s', t) →
  (b = true ↔ started t = true)
  ∧ (b = false →
     runq s' = runq s ∧ workers s' = workers s ∧ uwqs s' = uwqs s).
Proof.
  intros H.
  destruct (trywork_loop_split _ _ _ _ _ _ _ _ _ H)
    as (steps & t' & -> & Hq & Hcase).
  rewrite started_app, (started_false _ Hq). cbn [orb].
  destruct Hcase as [(-> & -> & ->)|(u & Hrun)].
  - split; [split; discriminate|auto].
  - unfold tryworker in Hrun.
    destruct (tryworker_ret P e s u) as [[[r s0] t0]|] eqn:Hret; [|discriminate].
    cbn in Hrun. injection Hrun as <- <- <-.
    destruct (tryworker_ret_cases _ _ _ _ _ _ _ Hret)
      as [(-> & Hout)|[(-> & -> & -> & _)|(-> & Hst & _)]].
    + pose proof (outcome_started _ _ _ _ Hout). split; [done|discriminate].
    + split; [split; discriminate|auto].
    + split; [rewrite Hst; split; discriminate|]. intros _.
      destruct (tryworker_ret_failure _ _ _ _ _ _ _ Hret eq_refl)
        as [(-> & _)|(p1 & -> & _)]; auto.
Qed.

Lemma uwq_trywork_true_iff_started_witness :
  (true = true ↔
   started [EvReadProc 1 0; EvHaswork 1 300 0; EvTryworker 1 300 0;
            EvWakeup 400] = true)
  ∧ (true = false →
     runq (set_workers (<[400 := MkWorker 300 500 true]> (workers ex_state))
             (set_procs (<[500 := set_cpuid 0 (ex_proc 300)]> (procs ex_state))
                ex_state)) = runq ex_state
     ∧ workers (set_workers (<[400 := MkWorker 300 500 true]> (workers ex_state))
                  (set_procs (<[500 := set_cpuid 0 (ex_proc 300)]> (procs ex_state))
                     ex_state)) = workers ex_state
     ∧ uwqs (set_workers (<[400 := MkWorker 300 500 true]> (workers ex_state))
               (set_procs (<[500 := set_cpuid 0 (ex_proc 300)]> (procs ex_state))
                  ex_state)) = uwqs ex_state).
Proof.
  apply (uwq_trywork_true_iff_started ex_params ex_env ex_state 0%nat).
  reflexivity.
Defined.

Lemma probe_order_range P e j :
  j ∈ probe_order P e → 0 <= j < Z.of_nat (NCPU P) ∧ j ≠ mycpuid e.
Proof.
  unfold probe_order. intros Hin.
  apply list_elem_of_filter in Hin as [Hne Hin].
  apply list_elem_of_fmap in Hin as (i & -> & Hi). apply elem_of_seq in Hi.
  split; [|exact Hne]. apply Z.mod_pos_bound. lia.
Qed.

Lemma probe_order_covers P e j :
  0 <= rdtsc e → rdtsc e + Z.of_nat (NCPU P) <= modulus →
  0 <= j < Z.of_nat (NCPU P) → j ≠ mycpuid e →
  j ∈ probe_order P e.
Proof.
  intros Hk Hmax Hj Hne. unfold probe_order.
  apply list_elem_of_filter. split; [exact Hne|].
  apply list_elem_of_fmap.
  exists (Z.to_nat ((j - rdtsc e) `mod` Z.of_nat (NCPU P))).
  pose proof (Z.mod_pos_bound (j - rdtsc e) (Z.of_nat (NCPU P))) as Hb.
  split.
  - rewrite Z2Nat.id by lia. rewrite wrap_small by lia.
    rewrite Zplus_mod_idemp_l. replace (j - rdtsc e + rdtsc e) with j by lia.
    symmetry. apply Z.mod_small. lia.
  - apply elem_of_seq. lia.
Qed.

(** X21: as long as the time stamp is not within [NCPU] of the end of
    the 64-bit range, [uwq_trywork] overlooks no CPU: it calls
    [tryworker] exactly when some CPU other than the caller's runs a
    process whose work queue reports work. *)
Theorem uwq_trywork_finds_work P e s d b s' t :
  0 <= rdtsc e → rdtsc e + Z.of_nat (NCPU P) <= modulus →
  uwq_trywork P e s d = Some (b, s', t) →
  (calls t ≠ [] ↔
   ∃ j, 0 <= j < Z.of_nat (NCPU P) ∧ j ≠ mycpuid e ∧ busy P s j = true).
Proof.
  intros Hk Hmax H.
  destruct (trywork_loop_spec _ _ _ _ _ _ _ _ _ H) as [Hone _].
  fold (probe_order P e) in Hone. unfold one_victim in Hone.
  destruct (list_find _ (probe_order P e)) as [[n j]|] eqn:Hfind.
  - destruct Hone as (u & t' & _ & _ & Hc & _). rewrite Hc.
    split; [|discriminate]. intros _.
    apply list_find_Some in Hfind as (Hj & Hbusy & _).
    apply list_elem_of_lookup_2, probe_order_range in Hj as [Hr Hne].
    eauto.
  - destruct Hone as (_ & _ & Hc & _). rewrite Hc.
    split; [intros Hne; now destruct Hne|].
    intros (j & Hr & Hne & Hbusy). exfalso.
    apply list_find_None in Hfind. rewrite Forall_forall in Hfind.
    apply (Hfind j); [|exact Hbusy].
    now apply probe_order_covers.
Qed.

Lemma uwq_trywork_finds_work_witness :
  calls [EvReadProc 1 0; EvHaswork 1 300 0; EvTryworker 1 300 0; EvWakeup 400]
  ≠ []
  ↔ ∃ j, 0 <= j < Z.of_nat (NCPU ex_params) ∧ j ≠ mycpuid ex_env
         ∧ busy ex_params ex_state j = true.
Proof.
  apply (uwq_trywork_finds_work ex_params ex_env ex_state 0%nat true
           (set_workers (<[400 := MkWorker 300 500 true]> (workers ex_state))
              (set_procs (<[500 := set_cpuid 0 (ex_proc 300)]> (procs ex_state))
                 ex_state))).
  - cbn. lia.
  - unfold modulus, width. cbn. lia.
  - reflexivity.
Defined.

(** Without that bound a CPU can be left out: with three CPUs and a time
    stamp of 2^64 - 1 the caller on CPU 1 looks at CPU 0 twice and never
    at CPU 2. *)
Example probe_order_wraps :
  probe_order (MkParams 3 2 8 4096 32 40 512)
              (MkEnv 1 18446744073709551615 (600, ex_proc 0) 900 0 1000)
  = [0; 0].
Proof. reflexivity. Qed.

(** What [tryworker] does to the queue objects: nothing, or it fills an
    empty slot of the queue it was called on and counts the new worker. *)
Lemma tryworker_ret_uwqs P e s u r s' t :
  tryworker_ret P e s u = Some (r, s', t) →
  uwqs s' = uwqs s
  ∨ ∃ uq slot w ustack',
      uwqs s !! u = Some uq ∧ worker_ uq !! slot = Some 0 ∧ w ≠ 0
      ∧ uwqs s' = <[u := MkUwq (u_valid uq) (vmap_ uq) (ftable_ uq) (len_ uq)
                            (uentry_ uq) ustack' (wrap (uref_ uq + 1))
                            (<[slot := w]> (worker_ uq))]> (uwqs s).
Proof.
  intros H. destruct (bool_of_ret r) eqn:Hr.
  2:{ left. now destruct (tryworker_ret_failure _ _ _ _ _ _ _ H Hr)
        as [(-> & _)|(p1 & -> & _)]. }
  unfold tryworker_ret in H.
  destruct (uwqs s !! u) as [uq|] eqn:Hu; [|discriminate]. cbn in H.
  destruct (u_valid uq); cbn in H; [|injection H as <- <- <-; discriminate].
  destruct (worker_scan e s (worker_ uq) (seq 0 (NWORKERS P)) (-1))
    as [[s0 t0|slot]|] eqn:Hscan; [| |discriminate]; cbn in H.
  { injection H as <- <- <-. left.
    now destruct (worker_scan_woke_state _ _ _ _ _ _ _ Hscan)
      as (w & wo & po & _ & _ & ->). }
  pose proof (worker_scan_slot _ _ _ _ _ _ Hscan (or_introl eq_refl)) as Hslot.
  destruct (Z.eqb_spec slot (-1)) as [_|Hs]; cbn in H;
    [injection H as <- <- <-; discriminate|].
  destruct Hslot as [?|Hslot]; [contradiction|].
  destruct (allocworker P e s u) as [[[p s1] t1]|] eqn:Halloc; [|discriminate].
  cbn in H.
  destruct (allocworker_cases _ _ _ _ _ _ _ Halloc) as (uq0 & Hu0 & Hcases).
  assert (uq0 = uq) as -> by congruence. cbn zeta in Hcases.
  destruct (Z.eqb_spec p 0) as [->|Hp]; cbn in H;
    [injection H as <- <- <-; discriminate|].
  destruct (Z.eqb_spec (worker_alloc e) 0) as [_|Hw]; [discriminate|].
  destruct Hcases as [(? & _)|[(? & _)|(Hpa & _ & _ & _ & _ & -> & _)]];
    try contradiction.
  rewrite Hpa in *.
  cbn in H. rewrite !lookup_insert_eq in H. cbn in H.
  injection H as <- <- <-. right.
  eexists uq, (Z.to_nat slot), (worker_alloc e), _.
  repeat split; [exact Hslot|exact Hw|]. cbn.
  rewrite insert_insert_eq. reflexivity.
Qed.

Lemma occupied_insert (wk : list Z) i w :
  wk !! i = Some 0 → w ≠ 0 →
  length (UwqLife.occupied (<[i := w]> wk))
  = S (length (UwqLife.occupied wk)).
Proof.
  intros Hi Hw. unfold UwqLife.occupied.
  rewrite insert_take_drop by (eapply lookup_lt_Some, Hi).
  pose proof (take_drop_middle wk i 0 Hi) as Hmid.
  revert Hmid. generalize (take i wk) (drop (S i) wk). intros a b <-.
  rewrite !filter_app, !length_app, !filter_cons.
  repeat case_decide; try done; cbn; lia.
Qed.

Lemma occupied_lt (wk : list Z) i :
  wk !! i = Some 0 → (length (UwqLife.occupied wk) < length wk)%nat.
Proof.
  intros Hi. unfold UwqLife.occupied.
  apply (length_filter_lt _ _ 0); [|intros H; now apply H].
  eapply list_elem_of_lookup_2, Hi.
Qed.

Lemma occupied_replicate n : UwqLife.occupied (replicate n 0) = [].
Proof.
  unfold UwqLife.occupied. induction n as [|n IH]; cbn [replicate]; [done|].
  rewrite filter_cons. case_decide; [done|exact IH].
Qed.

(** X18: the counter [uref_] of a queue is the number of occupied slots
    of its worker array.  The constructor makes it so, with no worker
    and a count of zero, and [tryworker] keeps it so for every queue, as
    long as the array has fewer than 2^64 slots. *)
Theorem uref_counts_workers P K valid vmap ftable len e s u r s' t :
  (∀ uq, UwqLife.uwq_ctor P K valid vmap ftable len = Some uq →
         uref_ uq = 0 ∧ UwqLife.occupied (worker_ uq) = [])
  ∧ (Z.of_nat (NWORKERS P) < modulus →
     (∀ v vq, uwqs s !! v = Some vq →
        length (worker_ vq) = NWORKERS P
        ∧ uref_ vq = Z.of_nat (length (UwqLife.occupied (worker_ vq)))) →
     tryworker_ret P e s u = Some (r, s', t) →
     ∀ v vq, uwqs s' !! v = Some vq →
        length (worker_ vq) = NWORKERS P
        ∧ uref_ vq = Z.of_nat (length (UwqLife.occupied (worker_ vq)))).
Proof.
  split.
  - unfold UwqLife.uwq_ctor. intros uq H.
    destruct (UwqLife.zero_len len (seq 0 (NCPU P))); [|discriminate].
    cbn in H. injection H as <-. cbn. split; [done|apply occupied_replicate].
  - intros Hmax Hinv H v vq Hv.
    destruct (tryworker_ret_uwqs _ _ _ _ _ _ _ H)
      as [Heq|(uq & slot & w & ust & Hu & Hslot & Hw & Heq)];
      rewrite Heq in Hv; [eauto|].
    destruct (decide (u = v)) as [->|Hne];
      [|rewrite lookup_insert_ne in Hv by done; eauto].
    rewrite lookup_insert_eq in Hv. injection Hv as <-. cbn.
    destruct (Hinv v uq Hu) as [Hlen Href].
    rewrite length_insert, occupied_insert by done. split; [exact Hlen|].
    pose proof (occupied_lt _ _ Hslot). rewrite Href.
    rewrite wrap_small by lia. lia.
Qed.

Lemma uref_counts_workers_witness :
  let uq := MkUwq true 700 800 (Some [0; 3]) 4096
              (wrap (1048576 + (8 * 4096 + 4096))) (wrap (1 + 1))
              (<[1%nat := 1000]> [400; 0]) in
  length (worker_ uq) = NWORKERS ex_params
  ∧ uref_ uq = Z.of_nat (length (UwqLife.occupied (worker_ uq))).
Proof.
  intros uq.
  assert (Hrun : ∃ s' t,
    tryworker_ret ex_params ex_env ex_state_running 300 = Some (RetTrue, s', t)
    ∧ uwqs s' !! 300 = Some uq) by (eexists _, _; split; reflexivity).
  destruct Hrun as (s' & t & Hrun & Hlook).
  eapply (proj2 (uref_counts_workers ex_params 0 true 0 0 [] ex_env
                   ex_state_running 300 RetTrue s' t)); [| |exact Hrun|exact Hlook].
  - unfold modulus, width. cbn. lia.
  - intros u vq Hu. cbn in Hu.
    destruct (decide (u = 300)) as [->|Hne].
    + injection Hu as <-. split; reflexivity.
    + rewrite lookup_insert_ne in Hu by done. discriminate.
Defined.

Lemma zero_len_inv idx : ∀ len len',
  UwqLife.zero_len len idx = Some len' →
  length len' = length len
  ∧ (∀ i, i ∈ idx → (i < length len)%nat)
  ∧ (∀ i, i ∈ idx ∨ len !! i = Some 0 → (i < length len)%nat →
          len' !! i = Some 0).
Proof.
  induction idx as [|i idx IH]; intros len len' H; cbn [UwqLife.zero_len] in H.
  - injection H as <-. repeat split.
    + intros i Hi. now apply elem_of_nil in Hi.
    + intros i [Hi|Hi] _; [now apply elem_of_nil in Hi|exact Hi].
  - destruct (Nat.ltb_spec i (length len)) as [Hlt|]; [|discriminate].
    destruct (IH _ _ H) as (Hlen & Hin & Hzero).
    rewrite length_insert in Hlen, Hin, Hzero. repeat split.
    + exact Hlen.
    + intros j Hj. apply elem_of_cons in Hj as [->|Hj]; auto.
    + intros j Hj Hjlt. apply Hzero; [|exact Hjlt].
      destruct (decide (j = i)) as [->|Hne].
      * right. now apply list_lookup_insert_eq.
      * destruct Hj as [Hj|Hj].
        -- apply elem_of_cons in Hj as [?|Hj]; [contradiction|now left].
        -- right. now rewrite list_lookup_insert_ne.
Qed.

Lemma zero_len_spec idx len len' :
  UwqLife.zero_len len idx = Some len' →
  length len' = length len
  ∧ (∀ i, i ∈ idx → len' !! i = Some 0)
  ∧ (∀ i, i ∈ idx → (i < length len)%nat).
Proof.
  intros H. destruct (zero_len_inv _ _ _ H) as (Hlen & Hin & Hzero).
  repeat split; auto.
Qed.

Lemma lookup_replicate_zero n i :
  (i < n)%nat → replicate n 0 !! i = Some 0.
Proof. intros Hi. now apply lookup_replicate_2. Qed.

Lemma worker_scan_empty e s n :
  worker_scan e s (replicate n 0) (seq 0 n) (-1)
  = Some (ScanDone (if (n =? 0)%nat then -1 else 0)).
Proof.
  destruct n as [|n]; [done|].
  cbn [seq worker_scan]. rewrite lookup_replicate_zero by lia. cbn.
  apply worker_scan_busy; [lia|].
  intros j Hj. apply elem_of_seq in Hj. exists 0.
  split; [apply (lookup_replicate_zero (S n)); lia|now left].
Qed.

(** X19: a queue that [uwq::alloc] has just made reports no work and
    starts no worker: [tryworker] returns [false] and changes nothing,
    because the queue has no entry point yet.  After [setuentry] with a
    non-zero entry point, and when the queue is valid and the allocators
    succeed, [tryworker] starts the first worker, in slot 0. *)
Theorem fresh_uwq_needs_uentry P K A s vmap ftable u s1 t :
  UwqLife.alloc P K A s vmap ftable = Some (u, s1, t) → u ≠ 0 →
  ∃ uq, uwqs s1 !! u = Some uq
    ∧ haswork P uq = Some false
    ∧ (∀ e, tryworker P e s1 u = Some (false, s1, []))
    ∧ (∀ e entry,
         entry ≠ 0 → UwqLife.new_valid A = true → (0 < NWORKERS P)%nat →
         (proc_alloc e).1 ≠ 0 → vmnode_alloc e ≠ 0 → 0 <= vmap_insert e →
         worker_alloc e ≠ 0 →
         ∃ s2 s3 t3,
           UwqLife.setuentry s1 u entry = Some s2
           ∧ tryworker P e s2 u = Some (true, s3, t3)
           ∧ worker_ <$> uwqs s3 !! u
             = Some (<[0%nat := worker_alloc e]> (replicate (NWORKERS P) 0))
           ∧ runq s3 = runq s1 ++ [(proc_alloc e).1]).
Proof.
  unfold UwqLife.alloc. intros H Hu.
  destruct (UwqLife.ksalloc A) as [len slab].
  destruct (len =? 0); [injection H as <- <- <-; now destruct Hu|].
  destruct (UwqLife.new_uwq A =? 0) eqn:Hnew;
    [injection H as <- <- <-; now destruct Hu|].
  unfold UwqLife.uwq_ctor in H.
  destruct (UwqLife.zero_len slab (seq 0 (NCPU P))) as [len'|] eqn:Hzero;
    [|discriminate].
  cbn in H.
  destruct (UwqLife.mapkva A =? 0); cbn in H;
    [|injection H as <- <- <-; now destruct Hu].
  injection H as <- <- <-.
  destruct (zero_len_spec _ _ _ Hzero) as (Hlen & Hz & Hin).
  eexists. split; [cbn; apply lookup_insert_eq|]. split; [|split].
  - unfold haswork. cbn.
    destruct (haswork_loop_spec len' (seq 0 (NCPU P))) as (b & -> & Hiff).
    { intros i Hi. rewrite Hlen. auto. }
    f_equal. destruct b; [|done]. destruct Hiff as [Hiff _].
    destruct (Hiff eq_refl) as (i & v & Hi & Hv & Hpos).
    rewrite (Hz i Hi) in Hv. injection Hv as <-. lia.
  - intros e. unfold tryworker, tryworker_ret. cbn.
    rewrite lookup_insert_eq. cbn.
    destruct (UwqLife.new_valid A); cbn; [|done].
    rewrite worker_scan_empty. cbn.
    destruct (NWORKERS P =? 0)%nat; cbn; [done|].
    unfold allocworker. cbn. rewrite lookup_insert_eq. cbn. done.
  - intros e entry Hentry Hvalid Hn Hpa Hv Hins Hw.
    unfold UwqLife.setuentry. cbn. rewrite lookup_insert_eq. cbn.
    eexists.
    match goal with
    | |- ∃ s3 t3, Some ?s2 = Some _ ∧ _ =>
        destruct (tryworker_after_scan P e s2 (UwqLife.new_uwq A)
                    (MkUwq (UwqLife.new_valid A) vmap ftable (Some len') entry K 0
                       (replicate (NWORKERS P) 0)) 0)
          as (s3 & t1 & uq' & po' & Hrun & Huq' & Hwk & _ & _ & _ & _ & _ & Hrq);
          auto
    end.
    + cbn. apply lookup_insert_eq.
    + cbn [worker_]. rewrite worker_scan_empty.
      destruct (Nat.eqb_spec (NWORKERS P) 0); [lia|reflexivity].
    + exists s3, (t1 ++ [EvAddrun (proc_alloc e).1]).
      split; [reflexivity|]. split; [|split].
      * unfold tryworker. now rewrite Hrun.
      * rewrite Huq'. cbn. now rewrite Hwk.
      * exact Hrq.
Qed.

Lemma fresh_uwq_needs_uentry_witness :
  let s1 := set_uwqs (<[300 := MkUwq true 700 800 (Some [0; 0]) 0 1048576 0
                                 [0; 0]]> (uwqs ex_state)) ex_state in
  ∃ uq,
    uwqs s1 !! 300 = Some uq
    ∧ haswork ex_params uq = Some false
    ∧ tryworker ex_params ex_env s1 300 = Some (false, s1, []).
Proof.
  intros s1.
  destruct (fresh_uwq_needs_uentry ex_params 1048576
              (UwqLife.MkAllocEnv (900, [5; 7]) 300 true 0) ex_state 700 800
              300 s1
              [UwqLife.LIncref 800; UwqLife.LIncref 700; UwqLife.LMapkva 900])
    as (uq & Hu & Hw & Htry & _).
  - reflexivity.
  - discriminate.
  - exists uq. split; [exact Hu|]. split; [exact Hw|apply Htry].
Defined.

End UwqMore.

(** ** The end of a work queue *)

Section UwqLifeFacts.
Import Word Uwq UwqLife.

Lemma occupied_cons w wk :
  occupied (w :: wk) = if decide (w ≠ 0) then w :: occupied wk else occupied wk.
Proof. unfold occupied. now rewrite filter_cons. Qed.

Lemma finish_loop_spec s wk n : ∀ a g,
  (a + n ≤ length wk)%nat →
  (∀ w, w ∈ wk → w ≠ 0 → is_Some (workers s !! w)) →
  finish_loop s wk (seq a n) g
  = Some (g && bool_decide (occupied (take n (drop a wk)) = []),
          map LCvWakeup (occupied (take n (drop a wk)))).
Proof.
  induction n as [|n IH]; intros a g Hlen Hwk; cbn [seq finish_loop].
  - cbn. now rewrite andb_true_r.
  - destruct (lookup_lt_is_Some_2 wk a) as [w Hw]; [lia|].
    rewrite Hw, (drop_S _ _ _ Hw). cbn [mbind option_bind take].
    rewrite occupied_cons.
    destruct (Z.eqb_spec w 0) as [->|Hne]; cbn [negb].
    + rewrite decide_False by (intros H; now apply H).
      apply IH; [lia|exact Hwk].
    + rewrite decide_True by done.
      destruct (Hwk w) as [wo ->]; [eapply list_elem_of_lookup_2, Hw|done|].
      cbn [mbind option_bind]. rewrite IH by (lia || exact Hwk).
      cbn. now rewrite andb_false_r.
Qed.

(** X22: [finish] signals the condition variable of every worker of the
    queue, once each and in slot order, and it hands the queue to
    [gc_delayed] exactly when the queue has no worker. *)
Theorem finish_spec P s u uq :
  uwqs s !! u = Some uq →
  length (worker_ uq) = NWORKERS P →
  (∀ w, w ∈ worker_ uq → w ≠ 0 → is_Some (workers s !! w)) →
  finish P s u
  = Some (map LCvWakeup (occupied (worker_ uq))
          ++ (if decide (occupied (worker_ uq) = [])
              then [LGcDelayed u] else []))
  ∧ onzero P s u = finish P s u.
Proof.
  intros Hu Hlen Hwk. split; [|reflexivity]. unfold finish. rewrite Hu. cbn.
  rewrite (finish_loop_spec s (worker_ uq) (NWORKERS P) 0 true) by (lia || done).
  cbn. rewrite drop_0, <- Hlen, firstn_all.
  case_bool_decide as Hocc;
    [rewrite decide_True by done|rewrite decide_False by done]; [done|].
  now rewrite app_nil_r.
Qed.

Lemma finish_spec_witness :
  finish ex_params ex_state 300
  = Some (map LCvWakeup (occupied [400; 0])
          ++ (if decide (occupied [400; 0] = []) then [LGcDelayed 300] else []))
  ∧ onzero ex_params ex_state 300 = finish ex_params ex_state 300.
Proof.
  apply (finish_spec ex_params ex_state 300 (ex_uwq [400; 0])).
  - reflexivity.
  - reflexivity.
  - intros w Hin Hw0. cbn in Hin.
    apply elem_of_cons in Hin as [->|Hin]; [cbn; eauto|].
    apply elem_of_cons in Hin as [->|Hin]; [now destruct Hw0|].
    now apply elem_of_nil in Hin.
Defined.

Lemma gc_count_app u t1 t2 :
  gc_count u (t1 ++ t2) = (gc_count u t1 + gc_count u t2)%nat.
Proof. unfold gc_count. now rewrite omap_app, length_app. Qed.

Lemma gc_count_wakeups u ws : gc_count u (map LCvWakeup ws) = 0%nat.
Proof. unfold gc_count. induction ws as [|w ws IH]; cbn; [done|exact IH]. Qed.

Lemma gc_count_one u : gc_count u [LGcDelayed u] = 1%nat.
Proof. unfold gc_count. cbn. now rewrite Z.eqb_refl. Qed.

(** The workers [ws] of the queue [u] exit one after the other. *)
Lemma exit_all_spec u ws : ∀ s uq,
  uwqs s !! u = Some uq →
  uref_ uq = Z.of_nat (length ws) → Z.of_nat (length ws) < modulus →
  NoDup ws →
  (∀ w, w ∈ ws → ∃ wo, workers s !! w = Some wo ∧ uwq_ wo = u) →
  ∃ s2 t2,
    exit_all s ws = Some (s2, t2)
    ∧ gc_count u t2 = (if decide (ws = []) then 0 else 1)%nat
    ∧ uref_ <$> uwqs s2 !! u = Some 0
    ∧ (∀ w, w ∈ ws → workers s2 !! w = None).
Proof.
  induction ws as [|w ws IH]; intros s uq Hu Href Hmax Hnd Hws.
  - exists s, []. cbn. rewrite Hu. cbn. rewrite Href. repeat split.
    intros w Hw. now apply elem_of_nil in Hw.
  - apply NoDup_cons in Hnd as [Hnotin Hnd].
    destruct (Hws w) as (wo & Hwo & Huw); [now left|].
    cbn [exit_all]. unfold worker_exit. rewrite Hwo. cbn. rewrite Huw, Hu. cbn.
    cbn [length] in Href, Hmax.
    assert (Hn : wrap (uref_ uq - 1) = Z.of_nat (length ws))
      by (rewrite Href, wrap_small; lia).
    rewrite Hn.
    match goal with
    | |- context [exit_all ?s1 ws] =>
        destruct (IH s1 (MkUwq (u_valid uq) (vmap_ uq) (ftable_ uq) (len_ uq)
                           (uentry_ uq) (ustack_ uq) (Z.of_nat (length ws))
                           (worker_ uq)))
          as (s2 & t2 & Hrun & Hgc & Href2 & Hgone)
    end.
    + cbn. apply lookup_insert_eq.
    + reflexivity.
    + lia.
    + exact Hnd.
    + intros w' Hw'. destruct (Hws w') as (wo' & Hwo' & Huw'); [now right|].
      exists wo'. split; [|exact Huw']. cbn.
      rewrite lookup_delete_ne; [exact Hwo'|]. intros ->. contradiction.
    + rewrite Hrun. cbn. eexists _, _. split; [reflexivity|].
      rewrite decide_False by discriminate. repeat split.
      * rewrite gc_count_app, Hgc. destruct ws as [|w' ws'].
        -- rewrite decide_True by done. cbn [length Z.of_nat Z.eqb].
           rewrite gc_count_app, gc_count_one. reflexivity.
        -- rewrite decide_False by discriminate.
           destruct (Z.eqb_spec (Z.of_nat (length (w' :: ws'))) 0) as [H0|_];
             [cbn in H0; lia|reflexivity].
      * exact Href2.
      * intros w' Hw'. apply elem_of_cons in Hw' as [->|Hw']; [|auto].
        clear IH Hgc Href2 Hgone.
        assert (Hdel : ∀ l s0 s3 t3, exit_all s0 l = Some (s3, t3) →
                  workers s0 !! w = None → workers s3 !! w = None).
        { intros l. induction l as [|x l IHl]; intros s0 s3 t3 Hr Hnone;
            cbn in Hr; [now injection Hr as <- <-|].
          unfold worker_exit in Hr.
          destruct (workers s0 !! x) as [xo|]; [|discriminate]. cbn in Hr.
          destruct (uwqs s0 !! uwq_ xo) as [xq|]; [|discriminate]. cbn in Hr.
          match type of Hr with
          | context [exit_all ?s1 l] =>
              destruct (exit_all s1 l) as [[s4 t4]|] eqn:Hr4; [|discriminate];
              cbn in Hr; injection Hr as <- <-;
              apply (IHl _ _ _ Hr4)
          end.
          cbn. destruct (decide (x = w)) as [->|Hxw].
          - apply lookup_delete_eq.
          - now rewrite lookup_delete_ne. }
        apply (Hdel _ _ _ _ Hrun). cbn. apply lookup_delete_eq.
Qed.

(** X23: a queue is handed to [gc_delayed] exactly once.  When [uref_]
    counts the workers of the queue, [finish] followed by the exit of
    every worker, in any order, calls [gc_delayed] for the queue once: in
    [finish] when there is no worker, and otherwise in the exit of the
    last worker; afterwards the count is zero and the worker objects are
    gone. *)
Theorem uwq_collected_once P s u uq ws :
  uwqs s !! u = Some uq →
  length (worker_ uq) = NWORKERS P →
  Z.of_nat (NWORKERS P) < modulus →
  NoDup (occupied (worker_ uq)) →
  (∀ w, w ∈ occupied (worker_ uq) →
        ∃ wo, workers s !! w = Some wo ∧ uwq_ wo = u) →
  uref_ uq = Z.of_nat (length (occupied (worker_ uq))) →
  ws ≡ₚ occupied (worker_ uq) →
  ∃ t1 s2 t2,
    finish P s u = Some t1
    ∧ exit_all s ws = Some (s2, t2)
    ∧ gc_count u (t1 ++ t2) = 1%nat
    ∧ gc_count u t1 = (if decide (ws = []) then 1 else 0)%nat
    ∧ uref_ <$> uwqs s2 !! u = Some 0
    ∧ (∀ w, w ∈ ws → workers s2 !! w = None).
Proof.
  intros Hu Hlen Hmax Hnd Hws Href Hperm.
  assert (Hocc : (length (occupied (worker_ uq)) ≤ NWORKERS P)%nat)
    by (rewrite <- Hlen; apply length_filter).
  destruct (exit_all_spec u ws s uq Hu) as (s2 & t2 & Hrun & Hgc & Href2 & Hgone).
  { now rewrite Hperm. }
  { rewrite Hperm. lia. }
  { now rewrite Hperm. }
  { intros w Hw. apply Hws. now rewrite <- Hperm. }
  assert (Hfin : finish P s u
                 = Some (map LCvWakeup (occupied (worker_ uq))
                         ++ (if decide (occupied (worker_ uq) = [])
                             then [LGcDelayed u] else []))).
  { unfold finish. rewrite Hu. cbn.
    rewrite (finish_loop_spec s (worker_ uq) (NWORKERS P) 0 true).
    - cbn. rewrite drop_0, <- Hlen, firstn_all.
      case_bool_decide;
        [rewrite decide_True by done|rewrite decide_False by done]; [done|].
      now rewrite app_nil_r.
    - lia.
    - intros w Hin Hw0. destruct (Hws w) as (wo & -> & _); [|eauto].
      unfold occupied. now apply list_elem_of_filter. }
  assert (Hempty : ws = [] ↔ occupied (worker_ uq) = []).
  { split; intros H; rewrite H in Hperm.
    - symmetry in Hperm. now apply Permutation_nil_r in Hperm.
    - now apply Permutation_nil_r in Hperm. }
  eexists _, s2, t2. split; [exact Hfin|]. split; [exact Hrun|].
  rewrite !gc_count_app, gc_count_wakeups, Hgc.
  destruct (decide (ws = [])) as [Hnil|Hcons].
  - rewrite decide_True by now apply Hempty.
    rewrite gc_count_one. repeat split; auto.
  - rewrite decide_False by (intros H; now apply Hcons, Hempty).
    repeat split; auto.
Qed.

Lemma uwq_collected_once_witness :
  ∃ t1 s2 t2,
    finish ex_params ex_state 300 = Some t1
    ∧ exit_all ex_state [400] = Some (s2, t2)
    ∧ gc_count 300 (t1 ++ t2) = 1%nat
    ∧ gc_count 300 t1 = (if decide ([400] = []) then 1 else 0)%nat
    ∧ uref_ <$> uwqs s2 !! 300 = Some 0
    ∧ (∀ w, w ∈ [400] → workers s2 !! w = None).
Proof.
  apply (uwq_collected_once ex_params ex_state 300 (ex_uwq [400; 0]) [400]).
  - reflexivity.
  - reflexivity.
  - unfold modulus, width. cbn. lia.
  - apply NoDup_singleton.
  - intros w Hw. apply list_elem_of_singleton in Hw as ->.
    exists (MkWorker 300 500 false). split; reflexivity.
  - reflexivity.
  - reflexivity.
Defined.

(** A scan of the worker array that meets a worker that is not running
    wakes one. *)
Lemma worker_scan_idle e s wk idx : ∀ slot,
  (∀ i, i ∈ idx → (i < length wk)%nat) →
  (∀ w, w ∈ wk → w ≠ 0 →
     ∃ wo, workers s !! w = Some wo ∧ is_Some (procs s !! proc_ wo)) →
  (∃ i w wo, i ∈ idx ∧ wk !! i = Some w ∧ w ≠ 0
             ∧ workers s !! w = Some wo ∧ running_ wo = false) →
  ∃ s' w' wo',
    worker_scan e s wk idx slot = Some (ScanWoke s' [EvWakeup w'])
    ∧ w' ∈ wk ∧ workers s !! w' = Some wo' ∧ running_ wo' = false
    ∧ workers s' = <[w' := set_running true wo']> (workers s)
    ∧ runq s' = runq s ∧ uwqs s' = uwqs s.
Proof.
  induction idx as [|i idx IH]; intros slot Hidx Hwk Hidle.
  { destruct Hidle as (i & _ & _ & Hi & _). now apply elem_of_nil in Hi. }
  cbn [worker_scan].
  destruct (lookup_lt_is_Some_2 wk i) as [w Hw]; [apply Hidx; now left|].
  rewrite Hw. cbn [mbind option_bind].
  assert (Hrest : ∀ k, k ∈ idx → (k < length wk)%nat)
    by (intros k Hk; apply Hidx; now right).
  assert (Hnext : (w = 0 ∨ ∃ wo, workers s !! w = Some wo ∧ running_ wo = true) →
    ∃ i' w' wo', i' ∈ idx ∧ wk !! i' = Some w' ∧ w' ≠ 0
                 ∧ workers s !! w' = Some wo' ∧ running_ wo' = false).
  { intros Hskip. destruct Hidle as (i' & w' & wo' & Hi' & Hw' & Hne & Hwo' & Hr).
    apply elem_of_cons in Hi' as [->|Hi']; [|eauto 10].
    rewrite Hw in Hw'. injection Hw' as ->.
    destruct Hskip as [->|(wo & Hwo & Hrun)]; [contradiction|].
    rewrite Hwo' in Hwo. injection Hwo as ->. congruence. }
  destruct (Z.eqb_spec w 0) as [->|Hne].
  { apply IH; auto. }
  destruct (Hwk w) as (wo & Hwo & [po Hpo]);
    [eapply list_elem_of_lookup_2, Hw|done|].
  rewrite Hwo. cbn [mbind option_bind].
  destruct (running_ wo) eqn:Hrun.
  { apply IH; eauto. }
  rewrite Hpo. cbn [mbind option_bind].
  eexists _, w, wo. split; [reflexivity|]. cbn. repeat split; auto.
  eapply list_elem_of_lookup_2, Hw.
Qed.

(** X24: a worker that goes to sleep in [wait] can be woken by
    [tryworker].  On well-formed memory, when a worker of a valid queue
    calls [wait] it is marked as not running and sleeps; a call of
    [tryworker] on its queue then returns [true] by waking a worker that
    is not running, without allocating; and when the worker woken is
    this one, it is running again and its [wait] returns 0. *)
Theorem wait_then_tryworker P e s w wo uq :
  wf P s →
  workers s !! w = Some wo → uwqs s !! uwq_ wo = Some uq →
  u_valid uq = true → w ∈ worker_ uq → w ≠ 0 →
  ∃ s1 s2 w',
    wait_sleep s w = Some (Asleep s1)
    ∧ running_ <$> workers s1 !! w = Some false
    ∧ tryworker_ret P e s1 (uwq_ wo) = Some (RetTrue, s2, [EvWakeup w'])
    ∧ running_ <$> workers s2 !! w' = Some true
    ∧ runq s2 = runq s ∧ uwqs s2 = uwqs s
    ∧ (w' = w → wait_wake s2 w = Some (Returned s2 0)).
Proof.
  intros Hwf Hwo Hu Hvalid Hin Hw0.
  set (s1 := set_workers (<[w := set_running false wo]> (workers s)) s).
  assert (Hsleep : wait_sleep s w = Some (Asleep s1)).
  { unfold wait_sleep. rewrite Hwo. cbn. rewrite Hu. cbn. now rewrite Hvalid. }
  apply list_elem_of_lookup in Hin as [i Hi].
  destruct (worker_scan_idle e s1 (worker_ uq) (seq 0 (NWORKERS P)) (-1))
    as (s2 & w' & wo' & Hscan & Hin' & Hwo' & Hidle & Hworkers & Hrq & Huq).
  { intros k Hk. apply elem_of_seq in Hk.
    rewrite (wf_slots P s Hwf _ uq Hu). lia. }
  { intros x Hx Hx0.
    destruct (wf_worker P s Hwf _ uq x Hu Hx Hx0) as (xo & Hxo & Hp).
    destruct (decide (w = x)) as [<-|Hne].
    - exists (set_running false wo). cbn. rewrite lookup_insert_eq.
      split; [done|]. cbn. rewrite Hwo in Hxo. now injection Hxo as <-.
    - exists xo. cbn. now rewrite lookup_insert_ne. }
  { exists i, w, (set_running false wo). repeat split; auto.
    - apply elem_of_seq. apply lookup_lt_Some in Hi.
      rewrite (wf_slots P s Hwf _ uq Hu) in Hi. lia.
    - cbn. apply lookup_insert_eq. }
  exists s1, s2, w'. split; [exact Hsleep|]. split; [|split; [|split]].
  - cbn. now rewrite lookup_insert_eq.
  - unfold tryworker_ret. cbn. rewrite Hu. cbn. rewrite Hvalid. cbn.
    now rewrite Hscan.
  - rewrite Hworkers, lookup_insert_eq. reflexivity.
  - split; [exact Hrq|]. split; [exact Huq|].
    intros ->. unfold wait_wake. rewrite Hworkers, lookup_insert_eq. cbn.
    cbn in Hwo'. rewrite lookup_insert_eq in Hwo'. injection Hwo' as <-.
    cbn. rewrite Huq. cbn. rewrite Hu. cbn. now rewrite Hvalid.
Qed.

Lemma wait_then_tryworker_witness :
  ∃ s1 s2 w',
    wait_sleep ex_state_running 400 = Some (Asleep s1)
    ∧ running_ <$> workers s1 !! 400 = Some false
    ∧ tryworker_ret ex_params ex_env s1 (uwq_ (MkWorker 300 500 true))
      = Some (RetTrue, s2, [EvWakeup w'])
    ∧ running_ <$> workers s2 !! w' = Some true
    ∧ runq s2 = runq ex_state_running ∧ uwqs s2 = uwqs ex_state_running
    ∧ (w' = 400 → wait_wake s2 400 = Some (Returned s2 0)).
Proof.
  apply (wait_then_tryworker ex_params ex_env ex_state_running 400
           (MkWorker 300 500 true) (ex_uwq [400; 0])).
  - exact ex_state_running_wf.
  - reflexivity.
  - reflexivity.
  - reflexivity.
  - apply list_elem_of_here.
  - discriminate.
Defined.

End UwqLifeFacts.
